(** * Retail support agent: PII masking, nearest store, retrieval fallback

    A shallow embedding of [masking.py], of the nearest-store resolver of
    [database.py], of [RAGSystem.retrieve] ([rag.py]) and of
    [process_message] ([streamlit_app.py]), with the properties of the
    specification stated and settled against it.

    Texts are Python [str] values restricted to the code points 0..255, so
    that a character is an [ascii]; the character classes [\d], [\s], [\w]
    are Python's Unicode classes cut down to that range. *)

From Stdlib Require Import List Ascii String NArith ZArith Bool Arith Lia.
From Stdlib Require Reals Lra.
Import ListNotations.

Set Implicit Arguments.

#[global] Arguments Ascii.eqb : simpl never.

(* ================================================================== *)
(** * Texts *)

Module Text.

Definition text := list ascii.

(** A string literal as a text. *)
Definition txt (s : string) : text := list_ascii_of_string s.

Definition code (c : ascii) : N := N_of_ascii c.

Definition in_range (lo hi : N) (c : ascii) : bool :=
  ((lo <=? code c) && (code c <=? hi))%N.

Definition is_char (d c : ascii) : bool := Ascii.eqb d c.

Fixpoint text_eqb (a b : text) : bool :=
  match a, b with
  | [], [] => true
  | x :: a', y :: b' => Ascii.eqb x y && text_eqb a' b'
  | _, _ => false
  end.

(** [old] is a prefix of [s]  ([s.startswith(old)]). *)
Fixpoint prefixb (old s : text) : bool :=
  match old, s with
  | [], _ => true
  | x :: old', y :: s' => Ascii.eqb x y && prefixb old' s'
  | _ :: _, [] => false
  end.

(** Python's [\d] on code points 0..255: the ten ASCII digits. *)
Definition is_digit (c : ascii) : bool := in_range 48 57 c.

(** Python's [\s] and [str.isspace] on code points 0..255. *)
Definition is_space (c : ascii) : bool :=
  in_range 9 13 c || in_range 28 32 c
  || (code c =? 133)%N || (code c =? 160)%N.

Definition is_upper (c : ascii) : bool := in_range 65 90 c.
Definition is_lower (c : ascii) : bool := in_range 97 122 c.

(** Python's [\w] on code points 0..255:
    [str.isalnum] or the underscore. *)
Definition is_word (c : ascii) : bool :=
  is_digit c || is_upper c || is_lower c || (code c =? 95)%N
  || (code c =? 170)%N || (code c =? 178)%N || (code c =? 179)%N
  || (code c =? 181)%N || (code c =? 185)%N || (code c =? 186)%N
  || in_range 188 190 c || in_range 192 214 c
  || in_range 216 246 c || in_range 248 255 c.

(** ** [str.replace] *)

(** [s.replace(old, new, 1)]: the first occurrence only. *)
Fixpoint replace_first (old new s : text) : text :=
  if prefixb old s then new ++ skipn (List.length old) s
  else match s with
       | [] => []
       | c :: s' => c :: replace_first old new s'
       end.

(** The scan of [s.replace(old, new)] for a non-empty [old]: occurrences
    are taken left to right and do not overlap; [skip] counts the
    characters of the occurrence just replaced that are still to be
    passed over. *)
Fixpoint replace_scan (old new s : text) (skip : nat) : text :=
  match s with
  | [] => []
  | c :: s' =>
      match skip with
      | S k => replace_scan old new s' k
      | O => if prefixb old s
             then new ++ replace_scan old new s' (List.length old - 1)
             else c :: replace_scan old new s' 0
      end
  end.

(** [s.replace(old, new)]: every occurrence; an empty [old] matches
    before every character and at the end. *)
Definition replace (old new s : text) : text :=
  match old with
  | [] => new ++ flat_map (fun c => c :: new) s
  | _ :: _ => replace_scan old new s 0
  end.

(** ** [str.strip] *)

Fixpoint lstrip (s : text) : text :=
  match s with
  | c :: s' => if is_space c then lstrip s' else s
  | [] => []
  end.

Definition strip (s : text) : text := rev (lstrip (rev (lstrip s))).

(** Truth value of a [str]: non-empty. *)
Definition truthy (s : text) : bool :=
  match s with [] => false | _ :: _ => true end.

(** ** Decimal rendering of a non-negative [int] ([f"{n}"]) *)

Definition digit_char (d : N) : ascii := ascii_of_N (48 + d).

Fixpoint digits_fuel (fuel : nat) (n : N) (acc : text) : text :=
  match fuel with
  | O => acc
  | S f =>
      let acc' := digit_char (n mod 10) :: acc in
      if (n <? 10)%N then acc' else digits_fuel f (n / 10) acc'
  end.

Definition str_of_int (n : N) : text :=
  digits_fuel (S (N.to_nat (N.log2 n))) n [].

End Text.

Import Text.

(* ================================================================== *)
(** * The fragment of [re] that the patterns of [masking.py] use *)

Module Re.

(** One element of a pattern: a greedy quantified character set
    [set{lo,hi}] ([hi = None] is unbounded) or the assertion [\b]. *)
Inductive item : Type :=
| Rep (set : ascii -> bool) (lo : nat) (hi : option nat)
| Boundary.

Definition regex := list item.

Definition one (set : ascii -> bool) : item := Rep set 1 (Some 1).
Definition opt (set : ascii -> bool) : item := Rep set 0 (Some 1).
Definition times (n : nat) (set : ascii -> bool) : item := Rep set n (Some n).
Definition between (lo hi : nat) (set : ascii -> bool) : item :=
  Rep set lo (Some hi).
Definition star (set : ascii -> bool) : item := Rep set 0 None.
Definition plus (set : ascii -> bool) : item := Rep set 1 None.
Definition at_least (n : nat) (set : ascii -> bool) : item := Rep set n None.

Definition may_take (hi : option nat) : bool :=
  match hi with Some O => false | _ => true end.

Definition took_one (hi : option nat) : option nat :=
  match hi with Some h => Some (pred h) | None => None end.

(** [prev] is the character before the current position, [None] at the
    start of the string.  [\b] holds where exactly one of the two
    neighbours is a word character. *)
Definition word_before (prev : option ascii) : bool :=
  match prev with Some c => is_word c | None => false end.

Definition word_here (s : text) : bool :=
  match s with c :: _ => is_word c | [] => false end.

Definition at_boundary (prev : option ascii) (s : text) : bool :=
  xorb (word_before prev) (word_here s).

(** Greedy repetition with backtracking: take a character when allowed
    and try the rest; when that fails, stop here if [lo] is reached and
    hand over to the continuation [k].  The result is the text left
    after the match. *)
Fixpoint rep (set : ascii -> bool) (k : option ascii -> text -> option text)
         (lo : nat) (hi : option nat) (prev : option ascii) (s : text)
  : option text :=
  let stop := match lo with O => k prev s | S _ => None end in
  match s with
  | c :: s' =>
      if set c && may_take hi then
        match rep set k (pred lo) (took_one hi) (Some c) s' with
        | Some rest => Some rest
        | None => stop
        end
      else stop
  | [] => stop
  end.

Fixpoint match_items (r : regex) (prev : option ascii) (s : text)
  : option text :=
  match r with
  | [] => Some s
  | Boundary :: r' =>
      if at_boundary prev s then match_items r' prev s else None
  | Rep set lo hi :: r' => rep set (match_items r') lo hi prev s
  end.

(** A match at the current position: the matched text. *)
Definition match_here (r : regex) (prev : option ascii) (s : text)
  : option text :=
  match match_items r prev s with
  | Some rest => Some (firstn (List.length s - List.length rest) s)
  | None => None
  end.

(** [re.findall(r, s)] for a pattern without groups: the matches, left to
    right, not overlapping.  [skip] counts the characters of the last
    match still to be passed over. *)
Fixpoint findall_scan (r : regex) (prev : option ascii) (s : text)
         (skip : nat) : list text :=
  match skip with
  | S k =>
      match s with
      | [] => []
      | c :: s' => findall_scan r (Some c) s' k
      end
  | O =>
      match match_here r prev s with
      | Some m =>
          m :: match s with
               | [] => []
               | c :: s' => findall_scan r (Some c) s' (List.length m - 1)
               end
      | None =>
          match s with
          | [] => []
          | c :: s' => findall_scan r (Some c) s' 0
          end
      end
  end.

Definition findall (r : regex) (s : text) : list text :=
  findall_scan r None s 0.

End Re.

Import Re.

(* ================================================================== *)
(** * Exceptions *)

Module Py.

(** An exception, as far as the program looks at it: [str(e)]. *)
Inductive exn : Type := Exception (message : text).

Definition message_of (e : exn) : text :=
  match e with Exception m => m end.

(** The outcome of a call: a value, or an exception on its way up. *)
Inductive result (A : Type) : Type :=
| Ok (a : A)
| Raise (e : exn).

Arguments Ok {A} a.
Arguments Raise {A} e.

Definition bind {A B : Type} (r : result A) (k : A -> result B) : result B :=
  match r with
  | Ok a => k a
  | Raise e => Raise e
  end.

(** [try: body  except Exception as e: handler(e)] *)
Definition try_except {A : Type} (body : result A) (handler : exn -> result A)
  : result A :=
  match body with
  | Ok a => Ok a
  | Raise e => handler e
  end.

End Py.

Import Py.

Notation "x <- e ;; k" := (bind e (fun x => k))
  (at level 61, e at next level, right associativity).

(* ================================================================== *)
(** * [masking.py] *)

Module Masking.

(** A [dict] from [str] to [str], in insertion order. *)
Definition dict := list (text * text).

(** [d[k] = v]: an existing key keeps its place. *)
Fixpoint dict_set (d : dict) (k v : text) : dict :=
  match d with
  | [] => [(k, v)]
  | (k', v') :: d' =>
      if text_eqb k' k then (k, v) :: d' else (k', v') :: dict_set d' k v
  end.

Fixpoint dict_get (d : dict) (k : text) : option text :=
  match d with
  | [] => None
  | (k', v') :: d' => if text_eqb k' k then Some v' else dict_get d' k
  end.

Definition values (d : dict) : list text := map snd d.
Definition keys (d : dict) : list text := map fst d.

(** [d.update(e)] *)
Definition dict_update (d e : dict) : dict :=
  fold_left (fun acc kv => dict_set acc (fst kv) (snd kv)) e d.

Definition mem (x : text) (l : list text) : bool := existsb (text_eqb x) l.

(** The character sets of the patterns. *)
Definition sep (c : ascii) : bool :=
  is_char "-" c || is_char "." c || is_space c.

Definition email_local (c : ascii) : bool :=
  is_upper c || is_lower c || is_digit c
  || is_char "." c || is_char "_" c || is_char "%" c
  || is_char "+" c || is_char "-" c.

Definition email_domain (c : ascii) : bool :=
  is_upper c || is_lower c || is_digit c
  || is_char "." c || is_char "-" c.

(** [[A-Z|a-z]]: the bar is a member of the set. *)
Definition email_tld (c : ascii) : bool :=
  is_upper c || is_char "|" c || is_lower c.

(** [\+\d{1,3}[-.\s]?\d{3}[-.\s]?\d{4}] *)
Definition phone_intl_short : regex :=
  [one (is_char "+"); between 1 3 is_digit; opt sep;
   times 3 is_digit; opt sep; times 4 is_digit].

(** [\+\d{1,3}[-.\s]?\(?\d{3}\)?[-.\s]?\d{3}[-.\s]?\d{4}] *)
Definition phone_intl_area : regex :=
  [one (is_char "+"); between 1 3 is_digit; opt sep;
   opt (is_char "("); times 3 is_digit; opt (is_char ")"); opt sep;
   times 3 is_digit; opt sep; times 4 is_digit].

(** [\(\d{3}\)\s*\d{3}[-.\s]?\d{4}] *)
Definition phone_paren : regex :=
  [one (is_char "("); times 3 is_digit; one (is_char ")"); star is_space;
   times 3 is_digit; opt sep; times 4 is_digit].

(** [\d{3}[-.\s]\d{3}[-.\s]\d{4}] *)
Definition phone_sep : regex :=
  [times 3 is_digit; one sep; times 3 is_digit; one sep; times 4 is_digit].

(** [\b\d{10}\b] *)
Definition phone_bare : regex := [Boundary; times 10 is_digit; Boundary].

Definition phone_patterns : list regex :=
  [phone_intl_short; phone_intl_area; phone_paren; phone_sep; phone_bare].

(** [\b[A-Za-z0-9._%+-]+@[A-Za-z0-9.-]+\.[A-Z|a-z]{2,}\b] *)
Definition email_pattern : regex :=
  [Boundary; plus email_local; one (is_char "@"); plus email_domain;
   one (is_char "."); at_least 2 email_tld; Boundary].

(** The local variables of [mask_text]. *)
Record state : Type := State {
  masked_text : text;
  mapping : dict;
  phone_counter : N
}.

Definition phone_placeholder (n : N) : text :=
  txt "[PHONE_" ++ str_of_int n ++ txt "]".

Definition email_placeholder (n : N) : text :=
  txt "[EMAIL_" ++ str_of_int n ++ txt "]".

(** The body of [for phone in phones]. *)
Definition phone_step (st : state) (phone : text) : state :=
  if truthy (strip phone) && negb (mem phone (values (mapping st))) then
    let placeholder := phone_placeholder (phone_counter st) in
    State (replace_first phone placeholder (masked_text st))
          (dict_set (mapping st) placeholder phone)
          (phone_counter st + 1)
  else st.

(** The body of [for pattern in phone_patterns]: [findall] runs once, on
    the text as the earlier patterns left it. *)
Definition pattern_step (st : state) (pattern : regex) : state :=
  fold_left phone_step (findall pattern (masked_text st)) st.

(** The body of [for i, email in enumerate(emails, 1)], with [i] carried
    in the third component. *)
Definition email_step (st : state) (email : text) : state :=
  let placeholder := email_placeholder (phone_counter st) in
  State (replace_first email placeholder (masked_text st))
        (dict_set (mapping st) placeholder email)
        (phone_counter st + 1).

Definition mask_phones (t : text) : state :=
  fold_left pattern_step phone_patterns (State t [] 1).

Definition mask_emails (st : state) : state :=
  let emails := findall email_pattern (masked_text st) in
  fold_left email_step emails (State (masked_text st) (mapping st) 1).

Definition mask_text (t : text) : text * dict :=
  let st := mask_emails (mask_phones t) in
  (masked_text st, mapping st).

Definition unmask_text (t : text) (m : dict) : text :=
  fold_left (fun unmasked kv => replace (fst kv) (snd kv) unmasked) m t.

(** A value of the customer context: a [str], [None], or anything else
    (numbers, the lists of orders and coupons). *)
Inductive value (A : Type) : Type :=
| Str (s : text)
| Null
| Other (a : A).

Arguments Str {A} s.
Arguments Null {A}.
Arguments Other {A} a.

Section CustomerContext.

Variable A : Type.

(** The [TypeError] of [re.findall] on something that is not a [str]. *)
Variable not_a_string : value A -> exn.

(** The context [Dict], in insertion order. *)
Definition context : Type := list (text * value A).

Fixpoint context_get (c : context) (k : text) : option (value A) :=
  match c with
  | [] => None
  | (k', v') :: c' => if text_eqb k' k then Some v' else context_get c' k
  end.

Fixpoint context_set (c : context) (k : text) (v : value A) : context :=
  match c with
  | [] => [(k, v)]
  | (k', v') :: c' =>
      if text_eqb k' k then (k, v) :: c' else (k', v') :: context_set c' k v
  end.

(** [mask_text] called on a value of the context. *)
Definition mask_value (v : value A) : result (text * dict) :=
  match v with
  | Str s => Ok (mask_text s)
  | _ => Raise (not_a_string v)
  end.

(** One of the two blocks of [mask_customer_context]:
    [if field in masked_context: ...]. *)
Definition mask_field (field : text) (st : context * dict)
  : result (context * dict) :=
  let '(masked_context, all_mappings) := st in
  match context_get masked_context field with
  | Some v =>
      masked <- mask_value v ;;
      Ok (context_set masked_context field (Str (fst masked)),
          dict_update all_mappings (snd masked))
  | None => Ok (masked_context, all_mappings)
  end.

Definition mask_customer_context (c : context) : result (context * dict) :=
  let masked_context := c in
  let all_mappings : dict := [] in
  st <- mask_field (txt "phone") (masked_context, all_mappings) ;;
  mask_field (txt "email") st.

End CustomerContext.

End Masking.

Import Masking.

(** A placeholder-shaped text starts here: [\[(PHONE|EMAIL)_\d+\]]. *)
Fixpoint digits_then_close (s : text) (seen : bool) : bool :=
  match s with
  | c :: s' =>
      if is_digit c then digits_then_close s' true
      else is_char "]" c && seen
  | [] => false
  end.

Definition placeholder_here (s : text) : bool :=
  (prefixb (txt "[PHONE_") s || prefixb (txt "[EMAIL_") s)
  && digits_then_close (skipn 7 s) false.

(** The text has a placeholder-shaped substring. *)
Fixpoint has_placeholder (s : text) : bool :=
  placeholder_here s
  || match s with [] => false | _ :: s' => has_placeholder s' end.

(** [needle] occurs in [s]  ([needle in s]). *)
Fixpoint occurs (needle s : text) : bool :=
  prefixb needle s
  || match s with [] => false | _ :: s' => occurs needle s' end.

(** The number of phone placeholders that [mask_text] hands out. *)
Definition phones_assigned (t : text) : N :=
  phone_counter (mask_phones t) - 1.


(* ================================================================== *)
(** * [database.py]: distance and nearest store *)

Module Geo.

Section Resolver.

(** Python's [float] and the operations on it that the code uses.  The
    functions of [math] that can raise [ValueError] return [None] where
    they do. *)
Variable F : Type.
Variables fadd fsub fmul fdiv : F -> F -> F.
(** An [int] literal used where a float is expected. *)
Variable of_int : Z -> F.
Variable radians : F -> F.
Variables sin cos sqrt : F -> option F.
Variable atan2 : F -> F -> F.
(** [x ** 2] *)
Variable square : F -> F.
(** [round(x, 1)] *)
Variable round1 : F -> F.
(** [x < y], [float('inf')] and the truth value of a float. *)
Variable ltb : F -> F -> bool.
Variable inf : F.
Variable float_truthy : F -> bool.

Definition domain_error : exn := Exception (txt "math domain error").
Definition type_error : exn :=
  Exception (txt "must be real number, not NoneType").
Definition operand_error : exn :=
  Exception
    (txt "unsupported operand type(s) for -: 'NoneType' and 'float'").

Definition math (x : option F) : result F :=
  match x with
  | Some y => Ok y
  | None => Raise domain_error
  end.

Definition calculate_distance (lat1 lon1 lat2 lon2 : F) : result F :=
  let R := of_int 6371000 in
  let lat1_rad := radians lat1 in
  let lat2_rad := radians lat2 in
  let delta_lat := radians (fsub lat2 lat1) in
  let delta_lon := radians (fsub lon2 lon1) in
  s1 <- math (sin (fdiv delta_lat (of_int 2))) ;;
  c1 <- math (cos lat1_rad) ;;
  c2 <- math (cos lat2_rad) ;;
  s2 <- math (sin (fdiv delta_lon (of_int 2))) ;;
  let a := fadd (square s1) (fmul (fmul c1 c2) (square s2)) in
  q1 <- math (sqrt a) ;;
  q2 <- math (sqrt (fsub (of_int 1) a)) ;;
  let c := fmul (of_int 2) (atan2 q1 q2) in
  let distance := fmul R c in
  Ok (round1 distance).

(** The columns that the resolver reads; a [REAL] column may be [NULL]. *)
Record customer : Type := Customer {
  customer_id : Z;
  customer_latitude : option F;
  customer_longitude : option F
}.

Record store : Type := Store {
  store_id : Z;
  store_name : text;
  store_latitude : option F;
  store_longitude : option F;
  store_address : text;
  open_time : text;
  close_time : text
}.

(** The two tables, rows in rowid order. *)
Record database : Type := Database {
  customers : list customer;
  stores : list store
}.

(** [distance_m] is the [int] 50 of the fallback or a computed [float]. *)
Inductive distance_m : Type :=
| Sentinel (metres : Z)
| Computed (d : F).

(** What the function returns: [{}], [None], or [dict(store)] with
    [distance_m] added. *)
Inductive answer : Type :=
| EmptyDict
| NoneValue
| StoreWith (s : store) (d : distance_m).

(** [SELECT ... FROM customers WHERE id = ?] then [fetchone()]. *)
Definition customer_row (db : database) (id : Z) : option customer :=
  find (fun c => Z.eqb (customer_id c) id) (customers db).

(** [calculate_distance(lat, lon, store['latitude'], store['longitude'])]
    on a row of the table.  A [NULL] latitude is a [None] given to
    [math.radians], the first of the two to be used; a [NULL] longitude
    beside a latitude is a [None] in [lon2 - lon1]. *)
Definition store_distance (lat lon : F) (s : store) : result F :=
  match store_latitude s, store_longitude s with
  | Some slat, Some slon => calculate_distance lat lon slat slon
  | None, _ => Raise type_error
  | Some _, None => Raise operand_error
  end.

(** The loop [for store in stores], carrying [nearest_store] and
    [min_distance]. *)
Fixpoint scan (lat lon : F) (rows : list store)
         (nearest_store : answer) (min_distance : F) : result answer :=
  match rows with
  | [] => Ok nearest_store
  | s :: rest =>
      distance <- store_distance lat lon s ;;
      if ltb distance min_distance
      then scan lat lon rest (StoreWith s (Computed distance)) distance
      else scan lat lon rest nearest_store min_distance
  end.

(** [SELECT * FROM stores LIMIT 1], [distance_m = 50]. *)
Definition default_store (db : database) : answer :=
  match stores db with
  | [] => EmptyDict
  | s :: _ => StoreWith s (Sentinel 50)
  end.

(** The guard [not customer_row or not customer_row['latitude'] or not
    customer_row['longitude']] sends a missing row, a [NULL] and a zero
    to the default store. *)
Definition get_nearest_store_for_customer (db : database) (id : Z)
  : result answer :=
  match customer_row db id with
  | None => Ok (default_store db)
  | Some row =>
      match customer_latitude row, customer_longitude row with
      | Some customer_lat, Some customer_lon =>
          if negb (float_truthy customer_lat)
             || negb (float_truthy customer_lon)
          then Ok (default_store db)
          else
            match stores db with
            | [] => Ok EmptyDict
            | _ :: _ =>
                scan customer_lat customer_lon (stores db) NoneValue inf
            end
      | _, _ => Ok (default_store db)
      end
  end.

(** The origin is absent or null. *)
Definition origin_absent (db : database) (id : Z) : Prop :=
  match customer_row db id with
  | None => True
  | Some row => customer_latitude row = None \/ customer_longitude row = None
  end.

End Resolver.

End Geo.

(* ================================================================== *)
(** * [rag.py]: retrieval *)

Module Rag.

Section Retrieve.

(** The vector store and the embedding model are libraries: their
    handles are opaque and each call returns or raises. *)
Variable collection : Type.
Variable embedding : Type.
Variable get_collection : text -> result collection.
Variable encode : text -> result embedding.

(** [collection.query(...)]: [None] stands for a result that is empty or
    has no ["documents"]; otherwise the lists of documents, one per
    query embedding. *)
Variable query :
  collection -> embedding -> nat -> result (option (list (list text))).

Definition collection_name : text := txt "retail_knowledge".

(** [RAGSystem.retrieve]; the warning printed in the handler is not
    part of the result. *)
Definition retrieve (query_text : text) (k : nat) : result (list text) :=
  match get_collection collection_name with
  | Raise e => Ok []
  | Ok c =>
      query_embedding <- encode query_text ;;
      results <- query c query_embedding k ;;
      match results with
      | Some (documents :: _) => Ok documents
      | _ => Ok []
      end
  end.

End Retrieve.

End Rag.

(* ================================================================== *)
(** * [streamlit_app.py]: [process_message] *)

Module App.

Definition TOP_K_RAG : nat := 4.

Section ProcessMessage.

(** The other values of a customer context, and the store context. *)
Variable A : Type.
Variable store_context : Type.
Variable not_a_string : value A -> exn.

(** The collaborators: each call returns or raises. *)
Variable get_customer_context : Z -> result (context A).
Variable get_nearest_store_for_customer : Z -> result store_context.
Variable rag_retrieve : text -> nat -> result (list text).
Variable st_warning : text -> result unit.
Variable call_llm_with_system : text -> text -> result text.

(** [build_prompt] only lays its arguments out as text; what it writes
    is left open. *)
Variable build_prompt :
  context A -> store_context -> list text -> text -> result (text * text).

(** [rag_docs = []], then the inner [try] around [rag_retrieve]. *)
Definition retrieve_documents (masked_message : text) : result (list text) :=
  try_except
    (rag_retrieve masked_message TOP_K_RAG)
    (fun e =>
       _ <- st_warning (txt "RAG retrieval unavailable: " ++ message_of e) ;;
       Ok []).

(** The table of the message, updated with the table of the record. *)
Definition merged_mapping (pii_mapping customer_pii_mapping : dict) : dict :=
  dict_update pii_mapping customer_pii_mapping.

(** The body of the outer [try]. *)
Definition process_message_body (user_message : text) (customer_id : Z)
  : result text :=
  customer_ctx <- get_customer_context customer_id ;;
  store_ctx <- get_nearest_store_for_customer customer_id ;;
  let masked_message := fst (mask_text user_message) in
  let pii_mapping := snd (mask_text user_message) in
  masked_customer <- mask_customer_context not_a_string customer_ctx ;;
  let masked_customer_ctx := fst masked_customer in
  let pii_mapping := merged_mapping pii_mapping (snd masked_customer) in
  rag_docs <- retrieve_documents masked_message ;;
  prompts <- build_prompt masked_customer_ctx store_ctx rag_docs
                          masked_message ;;
  response_masked <- call_llm_with_system (fst prompts) (snd prompts) ;;
  Ok (unmask_text response_masked pii_mapping).

(** The text returned from [except Exception as e]. *)
Definition apology (e : exn) : text :=
  txt "I apologize, but I encountered an error: " ++ message_of e
  ++ ["010"%char; "010"%char]
  ++ txt "Please make sure your GROQ_API_KEY is set in the .env file.".

Definition process_message (user_message : text) (customer_id : Z)
  : result text :=
  try_except (process_message_body user_message customer_id)
             (fun e => Ok (apology e)).

End ProcessMessage.

End App.

(* ================================================================== *)
(** * [config.py] and [llm_client.py]: the call of the model *)

Module Llm.

Definition newline : ascii := "010"%char.

Definition DEFAULT_MODEL_NAME : text := txt "llama-3.3-70b-versatile".

(** A message of the chat. *)
Inductive role : Type := System | User.

Record message : Type := Message {
  message_role : role;
  message_content : text
}.

(** A chunk of the streamed completion, as far as the loop reads it:
    [chunk.choices[i].delta], which may be [None], and [delta.content],
    which may be [None] too. *)
Record delta : Type := Delta { content : option text }.

Record chunk : Type := Chunk { choices : list (option delta) }.

(** The iterator over the chunks: it ends, or it raises on the way. *)
Inductive completion : Type :=
| Finished
| Yield (c : chunk) (rest : completion)
| Interrupted (e : exn).

(** The [RuntimeError] of [validate_groq_api_key]. *)
Definition key_not_set : exn :=
  Exception
    (txt "GROQ_API_KEY is not set. Please define it in your .env file "
     ++ txt "or environment variables."
     ++ [newline] ++ txt "Example .env file:"
     ++ [newline] ++ txt "GROQ_API_KEY=your_actual_groq_api_key_here").

(** The [IndexError] of [choices[0]] on an empty list. *)
Definition index_error : exn := Exception (txt "list index out of range").

(** [raise Exception(f"Error calling Groq API: {str(e)}")] *)
Definition api_error (e : exn) : exn :=
  Exception (txt "Error calling Groq API: " ++ message_of e).

(** [chunk.choices[0].delta] *)
Definition first_delta (c : chunk) : result (option delta) :=
  match choices c with
  | [] => Raise index_error
  | d :: _ => Ok d
  end.

(** The loop [for chunk in completion], carrying [full_response]. *)
Fixpoint collect (stream : completion) (full_response : text) : result text :=
  match stream with
  | Finished => Ok full_response
  | Interrupted e => Raise e
  | Yield c rest =>
      d <- first_delta c ;;
      match d with
      | Some (Delta (Some s)) =>
          if truthy s then collect rest (full_response ++ s)
          else collect rest full_response
      | _ => collect rest full_response
      end
  end.

Section Client.

(** [os.getenv] *)
Variable getenv : text -> option text.

(** The Groq client is a library: [Groq(api_key=...)] and
    [client.chat.completions.create(...)] return or raise.  The constant
    arguments of [create] ([max_completion_tokens=1024], [top_p=1],
    [stream=True], [stop=None]) are left inside it. *)
Variable groq : Type.
Variable temperature_value : Type.
Variable Groq : option text -> result groq.
Variable create :
  groq -> text -> list message -> temperature_value -> result completion.

Definition get_groq_api_key : option text := getenv (txt "GROQ_API_KEY").

(** The truth value of [api_key]: [None] and the empty string are
    false. *)
Definition key_truthy (api_key : option text) : bool :=
  match api_key with
  | Some s => truthy s
  | None => false
  end.

Definition validate_groq_api_key : result unit :=
  let api_key := get_groq_api_key in
  if negb (key_truthy api_key) then Raise key_not_set else Ok tt.

(** What the two calls share: from the validation of the key to the
    stripped response, for the messages given. *)
Definition complete (messages : list message) (model : text)
           (temperature : temperature_value) : result text :=
  _ <- validate_groq_api_key ;;
  let api_key := get_groq_api_key in
  client <- Groq api_key ;;
  try_except
    (completion <- create client model messages temperature ;;
     full_response <- collect completion [] ;;
     Ok (strip full_response))
    (fun e => Raise (api_error e)).

Definition call_llm (prompt model : text) (temperature : temperature_value)
  : result text :=
  complete [Message User prompt] model temperature.

Definition call_llm_with_system (system_prompt user_prompt model : text)
           (temperature : temperature_value) : result text :=
  complete [Message System system_prompt; Message User user_prompt]
           model temperature.

End Client.

End Llm.

(* ================================================================== *)
(** * [streamlit_app.py]: [build_prompt] *)

Module Prompt.

Import Llm.

(** The values of the two context dictionaries: what the database
    module puts in them.  A column holds a [str], [None], an [int] or a
    [float]; the customer context also holds the two lists of rows. *)
Inductive number (F : Type) : Type :=
| Int (n : Z)
| Real (x : F).

Arguments Int {F} n.
Arguments Real {F} x.

(** A row as a [dict]: [dict(row)]. *)
Definition row (F : Type) : Type := context (number F).

Inductive item (F : Type) : Type :=
| Num (n : number F)
| Rows (rows : list (row F)).

Arguments Num {F} n.
Arguments Rows {F} rows.

(** ["\n".join(parts)] *)
Fixpoint join (sep : text) (parts : list text) : text :=
  match parts with
  | [] => []
  | [p] => p
  | p :: rest => p ++ sep ++ join sep rest
  end.

(** [f"{n}"] for an [int]. *)
Definition int_str (n : Z) : text :=
  if (n <? 0)%Z then txt "-" ++ str_of_int (Z.to_N (- n))
  else str_of_int (Z.to_N n).

Definition quote : ascii := "034"%char.

Definition system_prompt : text :=
  join [newline]
    [txt "You are a hyper-personalized retail assistant for a coffee shop "
       ++ txt "chain.";
     txt "";
     txt "Your role:";
     txt "- Provide helpful, specific, and context-aware responses";
     txt "- Use customer history and preferences to personalize suggestions";
     txt "- Mention nearby stores, distances, and operating hours when "
       ++ txt "relevant";
     txt "- Highlight available coupons and discounts";
     txt "- Be warm, friendly, and concise";
     txt "- If the user expresses a need (like " ++ [quote] ++ txt "I'm cold"
       ++ [quote] ++ txt "), proactively suggest relevant products";
     txt "";
     txt "Guidelines:";
     txt "- Always prioritize customer satisfaction";
     txt "- Use the provided context to give specific answers";
     txt "- Don't make up information not in the context";
     txt "- Keep responses conversational and natural";
     txt ""].

Definition customer_header : text := txt "=== CUSTOMER CONTEXT ===".
Definition store_header : text := txt "=== NEARBY STORE ===".
Definition documents_header : text := txt "=== RELEVANT INFORMATION ===".
Definition message_header : text := txt "=== CUSTOMER MESSAGE ===".

(** The [KeyError] of [d[k]]: its text is the [repr] of the key. *)
Definition key_error (k : text) : exn := Exception (txt "'" ++ k ++ txt "'").

(** The lines [[Document i]], the stripped document and an empty line,
    for [enumerate(rag_docs, i)]. *)
Fixpoint document_lines (i : N) (rag_docs : list text) : list text :=
  match rag_docs with
  | [] => []
  | doc :: rest =>
      (txt "[Document " ++ str_of_int i ++ txt "]")
        :: strip doc :: txt "" :: document_lines (i + 1) rest
  end.

Definition documents_part (rag_docs : list text) : list text :=
  match rag_docs with
  | [] => []
  | _ :: _ => documents_header :: document_lines 1 rag_docs
  end.

Section BuildPrompt.

Variable F : Type.

(** [str(x)] of a [float] and of a list of rows, and the truth value of
    a [float]. *)
Variable float_str : F -> text.
Variable rows_str : list (row F) -> text.
Variable float_truthy : F -> bool.

(** The [TypeError] of [len] or of a subscript on a value that is not a
    list of rows. *)
Variable not_rows : value (item F) -> exn.

Definition number_str (n : number F) : text :=
  match n with
  | Int z => int_str z
  | Real x => float_str x
  end.

(** [f"{v}"] for the value of a column. *)
Definition cell_str (v : value (number F)) : text :=
  match v with
  | Str s => s
  | Null => txt "None"
  | Other n => number_str n
  end.

(** [f"{v}"] for a value of the customer context. *)
Definition value_str (v : value (item F)) : text :=
  match v with
  | Str s => s
  | Null => txt "None"
  | Other (Num n) => number_str n
  | Other (Rows l) => rows_str l
  end.

(** The truth value of a value of the customer context. *)
Definition value_truthy (v : value (item F)) : bool :=
  match v with
  | Str s => truthy s
  | Null => false
  | Other (Num (Int z)) => negb (z =? 0)%Z
  | Other (Num (Real x)) => float_truthy x
  | Other (Rows l) => match l with [] => false | _ :: _ => true end
  end.

(** [f"{ctx.get(k, default)}"] *)
Definition customer_get (ctx : context (item F)) (k default : text) : text :=
  match context_get ctx k with
  | Some v => value_str v
  | None => default
  end.

Definition store_get (ctx : row F) (k default : text) : text :=
  match context_get ctx k with
  | Some v => cell_str v
  | None => default
  end.

(** [r[k]] *)
Definition subscript (r : row F) (k : text) : result (value (number F)) :=
  match context_get r k with
  | Some v => Ok v
  | None => Raise (key_error k)
  end.

Definition order_line (order : row F) : result text :=
  item_name <- subscript order (txt "item_name") ;;
  size <- subscript order (txt "size") ;;
  status <- subscript order (txt "status") ;;
  Ok (txt "  - " ++ cell_str item_name ++ txt " (" ++ cell_str size
      ++ txt ") - " ++ cell_str status).

Definition coupon_line (coupon : row F) : result text :=
  description <- subscript coupon (txt "description") ;;
  valid_until <- subscript coupon (txt "valid_until") ;;
  Ok (txt "  - " ++ cell_str description ++ txt " (valid until "
      ++ cell_str valid_until ++ txt ")").

(** A loop that appends one line per row. *)
Fixpoint lines (line : row F -> result text) (rows : list (row F))
  : result (list text) :=
  match rows with
  | [] => Ok []
  | r :: rest =>
      l <- line r ;;
      ls <- lines line rest ;;
      Ok (l :: ls)
  end.

(** [recent_orders = customer_ctx.get('recent_orders', [])] and the
    block under [if recent_orders:].  A value that is true and is not a
    list of rows fails in [len] or in the subscript of the first
    element. *)
Definition orders_part (customer_ctx : context (item F))
  : result (list text) :=
  let recent_orders :=
    match context_get customer_ctx (txt "recent_orders") with
    | Some v => v
    | None => Other (Rows [])
    end in
  if value_truthy recent_orders then
    match recent_orders with
    | Other (Rows l) =>
        ls <- lines order_line (firstn 3 l) ;;
        Ok ((newline :: txt "Recent Orders ("
               ++ str_of_int (N.of_nat (List.length l)) ++ txt "):") :: ls)
    | _ => Raise (not_rows recent_orders)
    end
  else Ok [].

Definition coupons_part (customer_ctx : context (item F))
  : result (list text) :=
  let coupons :=
    match context_get customer_ctx (txt "active_coupons") with
    | Some v => v
    | None => Other (Rows [])
    end in
  if value_truthy coupons then
    match coupons with
    | Other (Rows l) =>
        ls <- lines coupon_line l ;;
        Ok ((newline :: txt "Active Coupons ("
               ++ str_of_int (N.of_nat (List.length l)) ++ txt "):") :: ls)
    | _ => Raise (not_rows coupons)
    end
  else Ok [].

(** The block under [if customer_ctx:]. *)
Definition customer_part (customer_ctx : context (item F))
  : result (list text) :=
  match customer_ctx with
  | [] => Ok []
  | _ :: _ =>
      orders <- orders_part customer_ctx ;;
      coupons <- coupons_part customer_ctx ;;
      Ok ([customer_header;
           txt "Name: " ++ customer_get customer_ctx (txt "name")
                                        (txt "Unknown");
           txt "Loyalty Level: "
             ++ customer_get customer_ctx (txt "loyalty_level") (txt "None");
           txt "Preferred Drink: "
             ++ customer_get customer_ctx (txt "preferred_drink")
                             (txt "None")]
          ++ orders ++ coupons ++ [txt ""])
  end.

(** The block under [if store_ctx:]; the store context is a [dict] or
    [None]. *)
Definition store_part (store_ctx : option (row F)) : list text :=
  match store_ctx with
  | Some ((_ :: _) as ctx) =>
      [store_header;
       txt "Name: " ++ store_get ctx (txt "name") (txt "Unknown");
       txt "Distance: " ++ store_get ctx (txt "distance_m") (txt "Unknown")
         ++ txt "m away";
       txt "Address: " ++ store_get ctx (txt "address") (txt "Unknown");
       txt "Hours: " ++ store_get ctx (txt "open_time") (txt "Unknown")
         ++ txt " - " ++ store_get ctx (txt "close_time") (txt "Unknown");
       txt ""]
  | _ => []
  end.

Definition build_prompt (customer_ctx : context (item F))
           (store_ctx : option (row F)) (rag_docs : list text)
           (user_message : text) : result (text * text) :=
  customer <- customer_part customer_ctx ;;
  let user_prompt_parts :=
    customer ++ store_part store_ctx ++ documents_part rag_docs
    ++ [message_header; user_message] in
  let user_prompt := join [newline] user_prompt_parts in
  Ok (system_prompt, user_prompt).

End BuildPrompt.

End Prompt.

(* ================================================================== *)
(** * [database.py]: [get_customer_context] *)

Module Db.

Import Prompt.

Section Tables.

Variable F : Type.

(** The rows of the four tables, column by column; a column that the
    schema does not declare [NOT NULL] may be [NULL]. *)
Record customer : Type := Customer {
  id : Z;
  name : text;
  phone : text;
  email : option text;
  preferred_drink : option text;
  loyalty_level : option text;
  address : option text;
  latitude : option F;
  longitude : option F
}.

Record order : Type := Order {
  order_id : Z;
  order_customer_id : option Z;
  order_store_id : option Z;
  item_name : option text;
  item_type : option text;
  size : option text;
  status : option text;
  timestamp : option text
}.

Record coupon : Type := Coupon {
  coupon_id : Z;
  coupon_customer_id : option Z;
  description : option text;
  product_name : option text;
  discount_percent : option F;
  valid_until : option text;
  is_active : option Z
}.

Record database : Type := Database {
  customers : list customer;
  stores : list (Geo.store F);
  orders : list order;
  coupons : list coupon
}.

(** [ORDER BY key DESC]: the order among equal keys is the engine's. *)
Variable order_by_desc :
  forall A : Type, (A -> option text) -> list A -> list A.

(** [column = ?] is not true of a [NULL]. *)
Definition equals (column : option Z) (n : Z) : bool :=
  match column with
  | Some m => Z.eqb m n
  | None => false
  end.

Definition text_cell (A : Type) (c : option text) : value A :=
  match c with
  | Some s => Str s
  | None => Null
  end.

Definition int_cell (c : option Z) : value (number F) :=
  match c with
  | Some n => Other (Int n)
  | None => Null
  end.

Definition real_cell (c : option F) : value (number F) :=
  match c with
  | Some x => Other (Real x)
  | None => Null
  end.

Definition real_value (c : option F) : value (item F) :=
  match c with
  | Some x => Other (Num (Real x))
  | None => Null
  end.

(** [SELECT o.*, s.name as store_name FROM orders o JOIN stores s
    ON o.store_id = s.id WHERE o.customer_id = ?
    ORDER BY o.timestamp DESC LIMIT 5] *)
Definition recent_orders (db : database) (customer_id : Z)
  : list (order * Geo.store F) :=
  let joined :=
    flat_map
      (fun o =>
         map (pair o)
             (filter (fun s => equals (order_store_id o) (Geo.store_id s))
                     (stores db)))
      (filter (fun o => equals (order_customer_id o) customer_id)
              (orders db)) in
  firstn 5 (order_by_desc (fun os => timestamp (fst os)) joined).

(** [SELECT * FROM coupons WHERE customer_id = ? AND is_active = 1
    ORDER BY valid_until DESC] *)
Definition active_coupons (db : database) (customer_id : Z) : list coupon :=
  order_by_desc valid_until
    (filter (fun c => equals (coupon_customer_id c) customer_id
                      && equals (is_active c) 1)
            (coupons db)).

(** [dict(row)] for the rows of the two queries. *)
Definition order_dict (os : order * Geo.store F) : row F :=
  let (o, s) := os in
  [(txt "id", Other (Int (order_id o)));
   (txt "customer_id", int_cell (order_customer_id o));
   (txt "store_id", int_cell (order_store_id o));
   (txt "item_name", text_cell _ (item_name o));
   (txt "item_type", text_cell _ (item_type o));
   (txt "size", text_cell _ (size o));
   (txt "status", text_cell _ (status o));
   (txt "timestamp", text_cell _ (timestamp o));
   (txt "store_name", Str (Geo.store_name s))].

Definition coupon_dict (c : coupon) : row F :=
  [(txt "id", Other (Int (coupon_id c)));
   (txt "customer_id", int_cell (coupon_customer_id c));
   (txt "description", text_cell _ (description c));
   (txt "product_name", text_cell _ (product_name c));
   (txt "discount_percent", real_cell (discount_percent c));
   (txt "valid_until", text_cell _ (valid_until c));
   (txt "is_active", int_cell (is_active c))].

(** [SELECT * FROM customers WHERE id = ?] then [fetchone()]. *)
Definition customer_row (db : database) (customer_id : Z) : option customer :=
  find (fun c => Z.eqb (id c) customer_id) (customers db).

Definition get_customer_context (db : database) (customer_id : Z)
  : context (item F) :=
  match customer_row db customer_id with
  | None => []
  | Some customer =>
      let orders := map order_dict (recent_orders db customer_id) in
      let coupons := map coupon_dict (active_coupons db customer_id) in
      [(txt "id", Other (Num (Int (id customer))));
       (txt "name", Str (name customer));
       (txt "phone", Str (phone customer));
       (txt "email", text_cell _ (email customer));
       (txt "address", text_cell _ (address customer));
       (txt "latitude", real_value (latitude customer));
       (txt "longitude", real_value (longitude customer));
       (txt "preferred_drink", text_cell _ (preferred_drink customer));
       (txt "loyalty_level", text_cell _ (loyalty_level customer));
       (txt "recent_orders", Other (Rows orders));
       (txt "active_coupons", Other (Rows coupons))]
  end.

End Tables.

End Db.

(* ================================================================== *)
(** * [database.py]: the store context as a [dict] *)

(** What [get_nearest_store_for_customer] returns, as the value that
    [process_message] hands to [build_prompt]. *)
Module StoreContext.

Import Prompt.

Section Dict.

Variable F : Type.

Definition real_cell (c : option F) : value (number F) :=
  match c with
  | Some x => Other (Real x)
  | None => Null
  end.

(** [distance_m] is the [int] of the default or the computed [float]. *)
Definition distance_cell (d : Geo.distance_m F) : value (number F) :=
  match d with
  | Geo.Sentinel _ metres => Other (Int metres)
  | Geo.Computed x => Other (Real x)
  end.

(** [dict(store)] with [distance_m] set. *)
Definition store_dict (s : Geo.store F) (d : Geo.distance_m F) : row F :=
  [(txt "id", Other (Int (Geo.store_id s)));
   (txt "name", Str (Geo.store_name s));
   (txt "latitude", real_cell (Geo.store_latitude s));
   (txt "longitude", real_cell (Geo.store_longitude s));
   (txt "address", Str (Geo.store_address s));
   (txt "open_time", Str (Geo.open_time s));
   (txt "close_time", Str (Geo.close_time s));
   (txt "distance_m", distance_cell d)].

Definition store_context (a : Geo.answer F) : option (row F) :=
  match a with
  | Geo.EmptyDict _ => Some []
  | Geo.NoneValue _ => None
  | Geo.StoreWith s d => Some (store_dict s d)
  end.

End Dict.

End StoreContext.

(* ================================================================== *)
(** * [rag.py]: the batches of [build_vector_store] *)

Module Index.

Definition batch_size : nat := 100.

(** [range(start, stop, step)] for a positive [step]. *)
Fixpoint range_from (count start step : nat) : list nat :=
  match count with
  | O => []
  | S c => start :: range_from c (start + step) step
  end.

Definition range (start stop step : nat) : list nat :=
  range_from ((stop - start + (step - 1)) / step) start step.

(** [l[i:j]] for [0 <= i <= j]. *)
Definition slice (A : Type) (l : list A) (i j : nat) : list A :=
  firstn (j - i) (skipn i l).

(** A chunk of a document: its text and its metadata. *)
Record document : Type := Document {
  page_content : text;
  metadata : dict
}.

(** [doc.metadata.get("source", "unknown")] *)
Definition source_of (doc : document) : text :=
  match dict_get (metadata doc) (txt "source") with
  | Some s => s
  | None => txt "unknown"
  end.

(** The arguments of one [collection.add] besides the embeddings; each
    metadata is the [dict] with the one key ["source"]. *)
Record batch : Type := Batch {
  documents : list text;
  ids : list text;
  metadatas : list text
}.

(** [f"doc_{n}"] *)
Definition doc_id (n : nat) : text := txt "doc_" ++ str_of_int (N.of_nat n).

(** The body of [for i in range(0, len(chunks), batch_size)]. *)
Definition batch_at (chunks : list document) (i : nat) : batch :=
  let batch := slice chunks i (i + batch_size) in
  let texts := map page_content batch in
  let ids := map (fun j => doc_id (i + j)) (seq 0 (List.length batch)) in
  let metadatas := map source_of batch in
  Batch texts ids metadatas.

Definition batches (chunks : list document) : list batch :=
  map (batch_at chunks) (range 0 (List.length chunks) batch_size).

Section Store.

(** The embedding model and the collection are libraries. *)
Variable collection : Type.
Variable embedding : Type.
Variable encode : list text -> result (list embedding).
Variable add : collection -> list embedding -> batch -> result collection.

Fixpoint add_batches (c : collection) (bs : list batch) : result collection :=
  match bs with
  | [] => Ok c
  | b :: rest =>
      embeddings <- encode (documents b) ;;
      c' <- add c embeddings b ;;
      add_batches c' rest
  end.

Definition add_chunks (c : collection) (chunks : list document)
  : result collection :=
  add_batches c (batches chunks).

End Store.

End Index.
(* ================================================================== *)
(** * Facts about texts *)

Module TextFacts.

Lemma text_eqb_eq (a b : text) : text_eqb a b = true <-> a = b.
Proof.
  revert b; induction a as [|x a IH]; intros [|y b]; simpl;
    try (split; [discriminate | discriminate]); try tauto.
  rewrite andb_true_iff, Ascii.eqb_eq, IH.
  split; [intros [-> ->]; reflexivity | intros H; inversion H; auto].
Qed.

Lemma text_eqb_refl (a : text) : text_eqb a a = true.
Proof. apply text_eqb_eq; reflexivity. Qed.

Lemma text_eqb_neq (a b : text) : text_eqb a b = false <-> a <> b.
Proof.
  rewrite <- text_eqb_eq. destruct (text_eqb a b); split; congruence.
Qed.

Lemma prefixb_app (a r : text) : prefixb a (a ++ r) = true.
Proof.
  induction a as [|x a IH]; simpl; [reflexivity|].
  now rewrite Ascii.eqb_refl.
Qed.

Lemma prefixb_true (a s : text) :
  prefixb a s = true -> s = a ++ skipn (List.length a) s.
Proof.
  revert s; induction a as [|x a IH]; intros [|y s]; simpl;
    try discriminate; try reflexivity.
  rewrite andb_true_iff, Ascii.eqb_eq. intros [-> H].
  f_equal. now apply IH.
Qed.

Lemma prefixb_iff (a s : text) :
  prefixb a s = true <-> exists r, s = a ++ r.
Proof.
  split.
  - intros H. eexists. apply prefixb_true, H.
  - intros [r ->]. apply prefixb_app.
Qed.

(** A prefix of [a ++ b] lies inside [a] or runs over into [b]. *)
Lemma prefixb_app_cases (q a b : text) :
  prefixb q (a ++ b) = true ->
  prefixb q a = true
  \/ exists q2, q = a ++ q2 /\ q2 <> [] /\ prefixb q2 b = true.
Proof.
  revert a; induction q as [|x q IH]; intros a H.
  - left; reflexivity.
  - destruct a as [|y a].
    + right. exists (x :: q). repeat split; [discriminate | exact H].
    + simpl in H. apply andb_true_iff in H as [Hxy H].
      destruct (IH a H) as [Hin | (q2 & -> & Hne & Hq2)].
      * left. simpl. now rewrite Hxy.
      * right. exists q2. apply Ascii.eqb_eq in Hxy as ->. auto.
Qed.

Lemma skipn_length_app (a r : text) : skipn (List.length a) (a ++ r) = r.
Proof. induction a; simpl; auto. Qed.

(** ** The scan of [replace] *)

Lemma replace_scan_skip (old new x rest : text) :
  replace_scan old new (x ++ rest) (List.length x)
  = replace_scan old new rest 0.
Proof.
  induction x as [|c x IH]; simpl; [|exact IH].
  destruct rest; reflexivity.
Qed.

Lemma replace_scan_hit (old new rest : text) :
  old <> [] ->
  replace_scan old new (old ++ rest) 0
  = new ++ replace_scan old new rest 0.
Proof.
  destruct old as [|c old]; [congruence|]. intros _.
  change ((c :: old) ++ rest) with (c :: (old ++ rest)).
  cbn [replace_scan].
  change (c :: old ++ rest) with ((c :: old) ++ rest).
  rewrite prefixb_app.
  replace (List.length (c :: old) - 1) with (List.length old)
    by (simpl; lia).
  now rewrite replace_scan_skip.
Qed.

Lemma replace_scan_miss (old new : text) (c : ascii) (s : text) :
  prefixb old (c :: s) = false ->
  replace_scan old new (c :: s) 0 = c :: replace_scan old new s 0.
Proof. intros H. cbn [replace_scan]. now rewrite H. Qed.

(** No occurrence of [old] starts inside [x] in [x ++ rest]. *)
Fixpoint clear (old x rest : text) : Prop :=
  match x with
  | [] => True
  | _ :: x' => prefixb old (x ++ rest) = false /\ clear old x' rest
  end.

Lemma clear_app (old x y rest : text) :
  clear old x (y ++ rest) -> clear old y rest -> clear old (x ++ y) rest.
Proof.
  induction x as [|c x IH]; simpl; [auto|].
  rewrite <- app_assoc. intros [H1 H2] Hy. split; auto.
Qed.

Lemma replace_scan_clear (old new x rest : text) :
  clear old x rest ->
  replace_scan old new (x ++ rest) 0 = x ++ replace_scan old new rest 0.
Proof.
  induction x as [|c x IH]; simpl clear; [reflexivity|].
  intros [H1 H2]. simpl app. rewrite replace_scan_miss by exact H1.
  now rewrite IH.
Qed.

Lemma replace_first_clear (old new x rest : text) :
  clear old x rest ->
  replace_first old new (x ++ rest) = x ++ replace_first old new rest.
Proof.
  induction x as [|c x IH]; simpl clear; [reflexivity|].
  intros [H1 H2]. simpl app. cbn [replace_first].
  simpl app in H1. rewrite H1. now rewrite IH.
Qed.

(** [replace_first] either passes [x] untouched or replaces an
    occurrence that starts inside [x]. *)
Lemma replace_first_cases (old new x rest : text) :
  clear old x rest
  \/ exists a b, x ++ rest = a ++ old ++ b
                 /\ List.length a < List.length x
                 /\ replace_first old new (x ++ rest) = a ++ new ++ b.
Proof.
  induction x as [|c x IH]; [left; exact I|].
  destruct (prefixb old ((c :: x) ++ rest)) eqn:Hp.
  - right. exists [], (skipn (List.length old) ((c :: x) ++ rest)).
    split; [|split].
    + simpl app at 2. now apply prefixb_true.
    + simpl; lia.
    + simpl app in *. cbn [replace_first]. now rewrite Hp.
  - destruct IH as [Hc | (a & b & E & Hl & Hr)].
    + left. split; assumption.
    + right. exists (c :: a), b. split; [|split].
      * simpl. now rewrite E.
      * simpl; lia.
      * simpl app in *. cbn [replace_first]. rewrite Hp. now rewrite Hr.
Qed.

(** Two ways of cutting the same text. *)
Lemma app_align (x rest a w : text) :
  x ++ rest = a ++ w -> List.length a <= List.length x ->
  exists m, x = a ++ m /\ w = m ++ rest.
Proof.
  revert a; induction x as [|c x IH]; intros [|d a] E Hl; simpl in *.
  - exists []; auto.
  - lia.
  - exists (c :: x); auto.
  - inversion E; subst. destruct (IH a H1) as (m & -> & ->); [lia|].
    exists m; auto.
Qed.

End TextFacts.

Import TextFacts.

(* ================================================================== *)
(** * Facts about characters and decimal rendering *)

Module CharFacts.

Definition all_ascii : list ascii := map ascii_of_nat (seq 0 256).

Lemma all_ascii_complete (c : ascii) : In c all_ascii.
Proof.
  rewrite <- (ascii_nat_embedding c). apply in_map, in_seq.
  pose proof (nat_ascii_bounded c). lia.
Qed.

(** A property of characters checked on all 256 of them. *)
Lemma forall_ascii (P : ascii -> bool) :
  forallb P all_ascii = true -> forall c, P c = true.
Proof.
  intros H c. rewrite forallb_forall in H. apply H, all_ascii_complete.
Qed.

Lemma implies_ascii (P Q : ascii -> bool) :
  forallb (fun c => implb (P c) (Q c)) all_ascii = true ->
  forall c, P c = true -> Q c = true.
Proof.
  intros H c Hc. pose proof (forall_ascii _ H c) as G. simpl in G.
  now rewrite Hc in G.
Qed.

Definition open_bracket (c : ascii) : bool := is_char "[" c.
Definition close_bracket (c : ascii) : bool := is_char "]" c.
Definition bracket (c : ascii) : bool := open_bracket c || close_bracket c.

Lemma digit_char_is_digit (d : N) : (d < 10)%N -> is_digit (digit_char d) = true.
Proof.
  intros H.
  assert (E : In d [0;1;2;3;4;5;6;7;8;9]%N).
  { simpl. lia. }
  simpl in E.
  repeat (destruct E as [<- | E]; [reflexivity|]). destruct E.
Qed.

Definition digit_val (c : ascii) : N := code c - 48.

Lemma digit_val_char (d : N) : (d < 10)%N -> digit_val (digit_char d) = d.
Proof.
  intros H.
  assert (E : In d [0;1;2;3;4;5;6;7;8;9]%N).
  { simpl. lia. }
  simpl in E.
  repeat (destruct E as [<- | E]; [reflexivity|]). destruct E.
Qed.

(** The number a digit text denotes. *)
Definition num_of (s : text) : N :=
  fold_left (fun a c => 10 * a + digit_val c)%N s 0%N.

Lemma digits_fuel_acc (f : nat) (n : N) (acc : text) :
  digits_fuel f n acc = digits_fuel f n [] ++ acc.
Proof.
  revert n acc; induction f as [|f IH]; intros n acc; simpl; [reflexivity|].
  destruct (n <? 10)%N; [reflexivity|].
  rewrite IH. rewrite (IH _ [_]). now rewrite <- app_assoc.
Qed.

Lemma digits_fuel_digits (f : nat) (n : N) :
  forallb is_digit (digits_fuel f n []) = true.
Proof.
  revert n; induction f as [|f IH]; intros n; simpl; [reflexivity|].
  assert (Hd : is_digit (digit_char (n mod 10)) = true).
  { apply digit_char_is_digit, N.mod_lt; lia. }
  destruct (n <? 10)%N; simpl.
  - now rewrite Hd.
  - rewrite digits_fuel_acc, forallb_app, IH. simpl. now rewrite Hd.
Qed.

Lemma digits_fuel_nonempty (f : nat) (n : N) : digits_fuel (S f) n [] <> [].
Proof.
  simpl. destruct (n <? 10)%N; [discriminate|].
  rewrite digits_fuel_acc. intros H. apply app_eq_nil in H as [_ H].
  discriminate.
Qed.

Lemma digits_fuel_length (f k : nat) (n : N) :
  (n < 10 ^ N.of_nat (S k))%N -> List.length (digits_fuel f n []) <= S k.
Proof.
  revert k n; induction f as [|f IH]; intros k n H; simpl; [lia|].
  destruct (N.ltb_spec n 10); simpl; [lia|].
  rewrite digits_fuel_acc, length_app. simpl.
  destruct k as [|k].
  - change (10 ^ N.of_nat 1)%N with 10%N in H. lia.
  - assert (n / 10 < 10 ^ N.of_nat (S k))%N.
    { apply N.Div0.div_lt_upper_bound.
      replace (N.of_nat (S (S k))) with (N.succ (N.of_nat (S k))) in H by lia.
      rewrite N.pow_succ_r' in H. exact H. }
    specialize (IH k _ H1). lia.
Qed.

Lemma num_of_snoc (s : text) (c : ascii) :
  num_of (s ++ [c]) = (10 * num_of s + digit_val c)%N.
Proof. unfold num_of. now rewrite fold_left_app. Qed.

Lemma num_of_digits_fuel (f : nat) (n : N) :
  (n < 2 ^ N.of_nat f)%N -> num_of (digits_fuel f n []) = n.
Proof.
  revert n; induction f as [|f IH]; intros n H.
  - simpl in *. change (2 ^ 0)%N with 1%N in H.
    assert (n = 0%N) by lia. now subst.
  - simpl. destruct (N.ltb_spec n 10).
    + unfold num_of. simpl. rewrite digit_val_char by (apply N.mod_lt; lia).
      rewrite N.mod_small; lia.
    + rewrite digits_fuel_acc, num_of_snoc.
      rewrite digit_val_char by (apply N.mod_lt; lia).
      rewrite IH.
      * pose proof (N.div_mod n 10). lia.
      * replace (N.of_nat (S f)) with (N.succ (N.of_nat f)) in H by lia.
        rewrite N.pow_succ_r' in H.
        apply N.Div0.div_lt_upper_bound. lia.
Qed.

Lemma num_of_str_of_int (n : N) : num_of (str_of_int n) = n.
Proof.
  unfold str_of_int. apply num_of_digits_fuel.
  replace (N.of_nat (S (N.to_nat (N.log2 n)))) with (N.succ (N.log2 n)) by lia.
  destruct n as [|p]; [reflexivity|].
  apply N.log2_spec. lia.
Qed.

Lemma str_of_int_inj (n m : N) : str_of_int n = str_of_int m -> n = m.
Proof.
  intros H. rewrite <- (num_of_str_of_int n), <- (num_of_str_of_int m).
  now rewrite H.
Qed.

Lemma str_of_int_digits (n : N) : forallb is_digit (str_of_int n) = true.
Proof. apply digits_fuel_digits. Qed.

Lemma str_of_int_nonempty (n : N) : str_of_int n <> [].
Proof. apply digits_fuel_nonempty. Qed.

Lemma str_of_int_short (n : N) :
  (n < 1000000000)%N -> List.length (str_of_int n) <= 9.
Proof. intros H. apply (@digits_fuel_length _ 8). exact H. Qed.

End CharFacts.

Import CharFacts.

(* ================================================================== *)
(** * Placeholder tokens and the literals that masking replaces *)

Module Tokens.

(** To show that a test fails, assume it succeeds. *)
Ltac refute H :=
  match goal with
  | |- ?X = false => destruct X eqn:H; [exfalso | reflexivity]
  end.

Definition lb : ascii := "[".
Definition rb : ascii := "]".

(** The characters between the brackets of a placeholder. *)
Definition body_char (c : ascii) : bool :=
  is_upper c || is_char "_" c || is_digit c.

(** Characters that no placeholder holds and that every phone number
    with a separator, a sign or a parenthesis, and every email address,
    holds. *)
Definition special (c : ascii) : bool :=
  is_char "+" c || is_char "(" c || sep c || is_char "@" c.

Definition plain (c : ascii) : bool := negb (bracket c).

Fixpoint lead_digits (s : text) : nat :=
  match s with
  | c :: s' => if is_digit c then S (lead_digits s') else 0
  | [] => 0
  end.

(** No run of ten digits anywhere in [s]. *)
Fixpoint short_runs (s : text) : bool :=
  (lead_digits s <? 10)
  && match s with [] => true | _ :: s' => short_runs s' end.

Definition token (p : text) : Prop :=
  exists body, p = lb :: body ++ [rb] /\ forallb body_char body = true.

Definition short_token (p : text) : Prop :=
  exists body, p = lb :: body ++ [rb] /\ forallb body_char body = true
               /\ short_runs body = true.

(** [p] is a placeholder-shaped text, whatever follows it. *)
Definition shaped (p : text) : Prop :=
  forall z, placeholder_here (p ++ z) = true.

Definition safe_special (v : text) : Prop :=
  existsb special v = true /\ forallb plain v = true.

Definition safe_digits (v : text) : Prop :=
  List.length v = 10 /\ forallb is_digit v = true.

Definition safe (v : text) : Prop := safe_special v \/ safe_digits v.

Lemma short_token_token (p : text) : short_token p -> token p.
Proof. intros (b & E & H & _). exists b; auto. Qed.

Lemma body_char_plain (c : ascii) : body_char c = true -> plain c = true.
Proof.
  revert c. apply implies_ascii. vm_compute; reflexivity.
Qed.

Lemma body_char_not_special (c : ascii) :
  body_char c = true -> special c = false.
Proof.
  intros H. apply negb_true_iff. revert c H.
  apply (implies_ascii body_char (fun c => negb (special c))).
  vm_compute; reflexivity.
Qed.

Lemma digit_plain (c : ascii) : is_digit c = true -> plain c = true.
Proof.
  revert c. apply implies_ascii. vm_compute; reflexivity.
Qed.

Lemma digit_body_char (c : ascii) : is_digit c = true -> body_char c = true.
Proof.
  intros H. unfold body_char. rewrite H. apply orb_true_r.
Qed.

Lemma plain_not_lb (c : ascii) : plain c = true -> c <> lb.
Proof. intros H ->. discriminate H. Qed.

Lemma plain_not_rb (c : ascii) : plain c = true -> c <> rb.
Proof. intros H ->. discriminate H. Qed.

Lemma forallb_impl (P Q : ascii -> bool) (s : text) :
  (forall c, P c = true -> Q c = true) ->
  forallb P s = true -> forallb Q s = true.
Proof.
  intros H. rewrite !forallb_forall. auto.
Qed.

Lemma safe_digits_plain (v : text) : safe_digits v -> forallb plain v = true.
Proof. intros [_ H]. eapply forallb_impl; [apply digit_plain | exact H]. Qed.

Lemma safe_plain (v : text) : safe v -> forallb plain v = true.
Proof. intros [[_ H] | H]; [exact H | now apply safe_digits_plain]. Qed.

Lemma safe_nonempty (v : text) : safe v -> v <> [].
Proof. intros [[H _] | [H _]] ->; discriminate. Qed.

(** ** Placeholders do not start inside a text that has none *)

Lemma digits_then_close_app (u b : text) (seen : bool) :
  digits_then_close u seen = true -> digits_then_close (u ++ b) seen = true.
Proof.
  revert seen; induction u as [|c u IH]; intros seen; simpl; [discriminate|].
  destruct (is_digit c); auto.
Qed.

Lemma prefixb_app_r (q s b : text) :
  prefixb q s = true -> prefixb q (s ++ b) = true.
Proof.
  intros H. apply prefixb_iff in H as [r ->]. rewrite <- app_assoc.
  apply prefixb_app.
Qed.

Lemma placeholder_here_app (s b : text) :
  placeholder_here s = true -> placeholder_here (s ++ b) = true.
Proof.
  unfold placeholder_here. rewrite !andb_true_iff, !orb_true_iff.
  intros [Hp Hd]. split.
  - destruct Hp as [Hp | Hp]; [left | right]; now apply prefixb_app_r.
  - destruct Hp as [Hp | Hp]; apply prefixb_iff in Hp as [r ->];
      cbn [txt list_ascii_of_string app skipn] in *;
      now apply digits_then_close_app.
Qed.

Lemma has_placeholder_app_l (a b : text) :
  has_placeholder (a ++ b) = false -> has_placeholder a = false.
Proof.
  induction a as [|c a IH]; simpl.
  - intros _. reflexivity.
  - rewrite !orb_false_iff. intros [H1 H2]. split; [|auto].
    destruct (placeholder_here (c :: a)) eqn:E; [|reflexivity].
    apply (placeholder_here_app _ b) in E. simpl app in E. congruence.
Qed.

Lemma has_placeholder_app_r (a b : text) :
  has_placeholder (a ++ b) = false -> has_placeholder b = false.
Proof.
  induction a as [|c a IH]; simpl; [auto|].
  rewrite orb_false_iff. intros [_ H]. auto.
Qed.

Lemma has_placeholder_tail (c : ascii) (s : text) :
  has_placeholder (c :: s) = false -> has_placeholder s = false.
Proof. apply (has_placeholder_app_r [c]). Qed.

Lemma token_no_inner_open (body q1 q2 : text) :
  forallb body_char body = true -> body ++ [rb] <> q1 ++ lb :: q2.
Proof.
  intros Hb E.
  assert (Hin : In lb (body ++ [rb])) by (rewrite E; apply in_elt).
  apply in_app_or in Hin as [Hin | [Hin | []]]; [|discriminate].
  rewrite forallb_forall in Hb. specialize (Hb _ Hin). discriminate.
Qed.

Lemma clear_raw (p x rest : text) :
  token p -> shaped p -> has_placeholder x = false ->
  rest = [] \/ (exists r, rest = lb :: r) ->
  clear p x rest.
Proof.
  intros (body & -> & Hb) Hs Hx Hrest.
  induction x as [|c x IH]; [exact I|].
  split; [|apply IH; eapply has_placeholder_tail; eauto].
  refute Hp.
  apply prefixb_app_cases in Hp as [Hp | (q2 & E & Hne & Hq)].
  - apply prefixb_iff in Hp as [z Hz].
    simpl in Hx. apply orb_false_iff in Hx as [Hx _].
    rewrite Hz, Hs in Hx. discriminate.
  - destruct Hrest as [-> | [r ->]].
    + destruct q2; [congruence | discriminate].
    + destruct q2 as [|d q2]; [congruence|].
      simpl in Hq. apply andb_true_iff in Hq as [Hd _].
      apply Ascii.eqb_eq in Hd as ->.
      inversion E. eapply token_no_inner_open; eauto.
Qed.

(** ** Distinct tokens do not overlap *)

Lemma prefix_body_eq (body body' R : text) :
  forallb body_char body = true -> forallb body_char body' = true ->
  prefixb (body ++ [rb]) (body' ++ rb :: R) = true -> body = body'.
Proof.
  revert body'; induction body as [|c b IH]; intros [|c' b'] Hb Hb' H;
    simpl in *.
  - reflexivity.
  - apply andb_true_iff in Hb' as [Hc _].
    apply andb_true_iff in H as [H _]. apply Ascii.eqb_eq in H as <-.
    discriminate.
  - apply andb_true_iff in Hb as [Hc _].
    apply andb_true_iff in H as [H _]. apply Ascii.eqb_eq in H as ->.
    discriminate.
  - apply andb_true_iff in Hb as [_ Hb]. apply andb_true_iff in Hb' as [_ Hb'].
    apply andb_true_iff in H as [Hc H]. apply Ascii.eqb_eq in Hc as ->.
    f_equal. now apply IH.
Qed.

Lemma clear_no_open (p y R : text) :
  forallb (fun c => negb (open_bracket c)) y = true ->
  clear (lb :: p) y R.
Proof.
  induction y as [|c y IH]; simpl; [auto|].
  rewrite andb_true_iff. intros [Hc Hy]. split; [|auto].
  destruct (Ascii.eqb lb c) eqn:E; [|reflexivity].
  unfold open_bracket, is_char in Hc. fold lb in Hc. rewrite E in Hc.
  discriminate.
Qed.

Lemma body_no_open (body : text) :
  forallb body_char body = true ->
  forallb (fun c => negb (open_bracket c)) (body ++ [rb]) = true.
Proof.
  intros H. rewrite forallb_app. apply andb_true_iff. split; [|reflexivity].
  eapply forallb_impl; [|exact H].
  intros c Hc. apply body_char_plain in Hc. unfold plain, bracket in Hc.
  now destruct (open_bracket c).
Qed.

Lemma clear_token (p p' R : text) :
  token p -> token p' -> p <> p' -> clear p p' R.
Proof.
  intros (b & -> & Hb) (b' & -> & Hb') Hne.
  split.
  - refute Hp.
    simpl in Hp. rewrite <- app_assoc in Hp. simpl in Hp.
    apply Hne. f_equal. f_equal. eapply prefix_body_eq; eauto.
  - apply clear_no_open, body_no_open, Hb'.
Qed.

(** ** Replaced literals do not start inside a token *)

Lemma prefixb_head (v : text) (c : ascii) (R : text) :
  v <> [] -> forallb plain v = true -> bracket c = true ->
  prefixb v (c :: R) = false.
Proof.
  destruct v as [|d v]; [congruence|]. intros _ Hv Hc. simpl in *.
  apply andb_true_iff in Hv as [Hd _].
  destruct (Ascii.eqb d c) eqn:E; [|reflexivity].
  apply Ascii.eqb_eq in E as ->. unfold plain in Hd. rewrite Hc in Hd.
  discriminate.
Qed.

Lemma clear_in_body (v body R : text) :
  v <> [] -> forallb plain v = true ->
  (forall a q, body = a ++ q -> prefixb v q = false) ->
  clear v (body ++ [rb]) R.
Proof.
  intros Hne Hv. induction body as [|c b IH]; intros Hq.
  - split; [|exact I]. now apply prefixb_head.
  - split.
    + refute Hp.
      change (prefixb v (((c :: b) ++ [rb]) ++ R) = true) in Hp.
      rewrite <- app_assoc in Hp.
      apply prefixb_app_cases in Hp as [Hp | (q2 & E & Hq2 & Hp)].
      * rewrite (Hq [] (c :: b) eq_refl) in Hp. discriminate.
      * destruct q2 as [|d q2]; [congruence|]. simpl in Hp.
        apply andb_true_iff in Hp as [Hd _]. apply Ascii.eqb_eq in Hd as ->.
        rewrite E, forallb_app in Hv. apply andb_true_iff in Hv as [_ Hv].
        simpl in Hv. discriminate.
    + apply IH. intros a q E. apply (Hq (c :: a) q). simpl. now rewrite E.
Qed.

Lemma clear_safe_special (v p R : text) :
  token p -> safe_special v -> clear v p R.
Proof.
  intros (b & -> & Hb) [Hs Hv].
  assert (Hne : v <> []) by (intros ->; discriminate).
  split.
  - now apply prefixb_head.
  - apply clear_in_body; auto.
    intros a q E. refute Hp.
    apply prefixb_iff in Hp as [z ->].
    rewrite E, !forallb_app in Hb.
    apply andb_true_iff in Hb as [_ Hb]. apply andb_true_iff in Hb as [Hb _].
    apply existsb_exists in Hs as (c & Hin & Hc).
    rewrite forallb_forall in Hb. specialize (Hb _ Hin).
    apply body_char_not_special in Hb. congruence.
Qed.

Lemma lead_digits_app (v z : text) :
  forallb is_digit v = true -> List.length v <= lead_digits (v ++ z).
Proof.
  induction v as [|c v IH]; simpl; [lia|].
  rewrite andb_true_iff. intros [-> H]. specialize (IH H). lia.
Qed.

Lemma short_runs_suffix (a q : text) :
  short_runs (a ++ q) = true -> lead_digits q < 10.
Proof.
  induction a as [|c a IH]; simpl app.
  - destruct q; cbn [short_runs]; rewrite andb_true_iff;
      intros [H _]; now apply Nat.ltb_lt in H.
  - cbn [short_runs]. rewrite andb_true_iff. intros [_ H]. auto.
Qed.

Lemma clear_safe_digits (v p R : text) :
  short_token p -> safe_digits v -> clear v p R.
Proof.
  intros (b & -> & Hb & Hr) Hv.
  pose proof (@safe_digits_plain v Hv) as Hp.
  destruct Hv as [Hl Hd].
  assert (Hne : v <> []) by (intros ->; discriminate).
  split.
  - now apply prefixb_head.
  - apply clear_in_body; auto.
    intros a q E. refute Hpre.
    apply prefixb_iff in Hpre as [z ->]. rewrite E in Hr.
    apply short_runs_suffix in Hr.
    pose proof (@lead_digits_app v z Hd). lia.
Qed.

Lemma clear_safe (v p R : text) : short_token p -> safe v -> clear v p R.
Proof.
  intros Hp [H | H].
  - apply clear_safe_special; auto using short_token_token.
  - now apply clear_safe_digits.
Qed.

End Tokens.

Import Tokens.

#[global] Arguments str_of_int : simpl never.

(* ================================================================== *)
(** * What the patterns can match *)

Module ReFacts.

Definition within (hi : option nat) (n : nat) : Prop :=
  match hi with Some h => n <= h | None => True end.

(** The texts a pattern can match, whatever surrounds them. *)
Fixpoint shape (r : regex) (m : text) : Prop :=
  match r with
  | [] => m = []
  | Boundary :: r' => shape r' m
  | Rep set lo hi :: r' =>
      exists m1 m2, m = m1 ++ m2 /\ forallb set m1 = true
                    /\ lo <= List.length m1 /\ within hi (List.length m1)
                    /\ shape r' m2
  end.

Lemma within_0 hi : within hi 0.
Proof. destruct hi; simpl; [lia | exact I]. Qed.

Lemma rep_shape set k lo hi prev s rest :
  rep set k lo hi prev s = Some rest ->
  exists m1 s1 prev1,
    s = m1 ++ s1 /\ forallb set m1 = true /\ lo <= List.length m1
    /\ within hi (List.length m1) /\ k prev1 s1 = Some rest.
Proof.
  revert lo hi prev; induction s as [|c s IH]; intros lo hi prev H.
  - simpl in H. destruct lo; [|discriminate].
    exists [], [], prev. repeat split; auto. apply within_0.
  - assert (Hstop : match lo with O => k prev (c :: s) | S _ => None end
                    = Some rest ->
                    exists m1 s1 prev1,
                      c :: s = m1 ++ s1 /\ forallb set m1 = true
                      /\ lo <= List.length m1
                      /\ within hi (List.length m1)
                      /\ k prev1 s1 = Some rest).
    { intros Hk. destruct lo; [|discriminate].
      exists [], (c :: s), prev. repeat split; auto. apply within_0. }
    cbn [rep] in H.
    destruct (set c && may_take hi) eqn:Ht; [|auto].
    destruct (rep set k (pred lo) (took_one hi) (Some c) s) as [r0|] eqn:Hr;
      [|auto].
    inversion H; subst r0; clear H.
    apply IH in Hr as (m1 & s1 & prev1 & -> & Hm & Hlo & Hhi & Hk).
    apply andb_true_iff in Ht as [Hc Hmay].
    exists (c :: m1), s1, prev1. repeat split; auto.
    + simpl. now rewrite Hc.
    + simpl. lia.
    + destruct hi as [[|h]|]; simpl in *; try discriminate; auto; lia.
Qed.

Lemma match_items_shape r prev s rest :
  match_items r prev s = Some rest ->
  exists m, s = m ++ rest /\ shape r m.
Proof.
  revert prev s; induction r as [|[set lo hi|] r IH]; intros prev s H.
  - inversion H; subst. exists []. split; reflexivity.
  - cbn [match_items] in H.
    apply rep_shape in H as (m1 & s1 & prev1 & -> & Hm & Hlo & Hhi & Hk).
    apply IH in Hk as (m2 & -> & Hs).
    exists (m1 ++ m2). split; [now rewrite app_assoc|].
    exists m1, m2. auto.
  - cbn [match_items] in H. destruct (at_boundary prev s); [|discriminate].
    apply IH in H. exact H.
Qed.

Lemma match_here_shape r prev s m :
  match_here r prev s = Some m -> shape r m.
Proof.
  unfold match_here.
  destruct (match_items r prev s) as [rest|] eqn:H; [|discriminate].
  intros E; inversion E; subst m; clear E.
  apply match_items_shape in H as (m & -> & Hs).
  rewrite length_app.
  replace (List.length m + List.length rest - List.length rest)
    with (List.length m + 0) by lia.
  now rewrite firstn_app_2, firstn_O, app_nil_r.
Qed.

Lemma findall_scan_in r prev s skip m :
  In m (findall_scan r prev s skip) ->
  exists prev' s', match_here r prev' s' = Some m.
Proof.
  revert prev skip; induction s as [|c s IH]; intros prev skip H.
  - destruct skip; cbn [findall_scan] in H; [|destruct H].
    destruct (match_here r prev []) as [m0|] eqn:E; [|destruct H].
    destruct H as [<- | []]. eauto.
  - destruct skip; cbn [findall_scan] in H; [|eauto].
    destruct (match_here r prev (c :: s)) as [m0|] eqn:E; [|eauto].
    destruct H as [<- | H]; eauto.
Qed.

Lemma findall_shape r s m : In m (findall r s) -> shape r m.
Proof.
  intros H. apply findall_scan_in in H as (prev & s' & H).
  eapply match_here_shape; eauto.
Qed.

(** Every character of a match belongs to one of the sets. *)
Fixpoint anyset (r : regex) (c : ascii) : bool :=
  match r with
  | [] => false
  | Boundary :: r' => anyset r' c
  | Rep set _ _ :: r' => set c || anyset r' c
  end.

Lemma shape_chars r m : shape r m -> forallb (anyset r) m = true.
Proof.
  revert m; induction r as [|[set lo hi|] r IH]; intros m H; cbn [shape] in H.
  - now subst.
  - destruct H as (m1 & m2 & -> & Hm & _ & _ & Hs).
    rewrite forallb_app. apply andb_true_iff. split.
    + eapply forallb_impl; [|exact Hm]. intros c Hc. simpl. now rewrite Hc.
    + eapply forallb_impl; [|apply IH, Hs].
      intros c Hc. simpl. rewrite Hc. apply orb_true_r.
  - now apply IH.
Qed.

(** A set that must be taken at least once leaves a character. *)
Lemma shape_mandatory r m set lo hi :
  shape r m -> In (Rep set (S lo) hi) r -> existsb set m = true.
Proof.
  revert m; induction r as [|[set' lo' hi'|] r IH]; intros m H Hin;
    cbn [shape] in H.
  - destruct Hin.
  - destruct H as (m1 & m2 & -> & Hm & Hlo & _ & Hs).
    rewrite existsb_app. apply orb_true_iff.
    destruct Hin as [E | Hin].
    + left. inversion E; subst.
      destruct m1 as [|c m1]; [simpl in Hlo; lia|].
      simpl in *. apply andb_true_iff in Hm as [-> _]. reflexivity.
    + right. now apply IH.
  - destruct Hin as [E | Hin]; [discriminate|]. now apply IH.
Qed.

Lemma existsb_impl (P Q : ascii -> bool) (s : text) :
  (forall c, P c = true -> Q c = true) ->
  existsb P s = true -> existsb Q s = true.
Proof.
  intros H. rewrite !existsb_exists. intros (c & Hin & Hc). eauto.
Qed.

(** A pattern whose sets hold no bracket and that must take a special
    character only matches literals safe to replace. *)
Lemma shape_safe_special r m set lo hi :
  In (Rep set (S lo) hi) r ->
  forallb (fun c => implb (set c) (special c)) all_ascii = true ->
  forallb (fun c => implb (anyset r c) (plain c)) all_ascii = true ->
  shape r m -> safe_special m.
Proof.
  intros Hin Hset Hany Hs. split.
  - eapply existsb_impl; [apply implies_ascii, Hset|].
    eapply shape_mandatory; eauto.
  - eapply forallb_impl; [apply implies_ascii, Hany|].
    now apply shape_chars.
Qed.

(** The pattern of the hypothesis must take a character of [set]. *)
Ltac by_special set :=
  match goal with
  | H : shape ?r _ |- _ =>
      eapply (@shape_safe_special r _ set 0);
      [ repeat (first [left; reflexivity | right])
      | vm_compute; reflexivity
      | vm_compute; reflexivity
      | exact H ]
  end.

Lemma phone_intl_short_safe m : shape phone_intl_short m -> safe m.
Proof. intros H. left. by_special (is_char "+"). Qed.

Lemma phone_intl_area_safe m : shape phone_intl_area m -> safe m.
Proof. intros H. left. by_special (is_char "+"). Qed.

Lemma phone_paren_safe m : shape phone_paren m -> safe m.
Proof. intros H. left. by_special (is_char "("). Qed.

Lemma phone_sep_safe m : shape phone_sep m -> safe m.
Proof. intros H. left. by_special sep. Qed.

Lemma phone_bare_safe m : shape phone_bare m -> safe m.
Proof.
  intros (m1 & m2 & -> & Hm & Hlo & Hhi & ->). right.
  rewrite app_nil_r. split; [simpl in Hhi; lia | exact Hm].
Qed.

Lemma phone_match_safe r s m :
  In r phone_patterns -> In m (findall r s) -> safe m.
Proof.
  intros Hr Hm. apply findall_shape in Hm.
  destruct Hr as [<- | [<- | [<- | [<- | [<- | []]]]]].
  - now apply phone_intl_short_safe.
  - now apply phone_intl_area_safe.
  - now apply phone_paren_safe.
  - now apply phone_sep_safe.
  - now apply phone_bare_safe.
Qed.

Lemma email_match_safe s m :
  In m (findall email_pattern s) -> safe_special m.
Proof.
  intros Hm. apply findall_shape in Hm. by_special (is_char "@").
Qed.

End ReFacts.

Import ReFacts.

(* ================================================================== *)
(** * The placeholders that [mask_text] generates *)

Module Placeholders.

Definition phone_body (n : N) : text := txt "PHONE_" ++ str_of_int n.
Definition email_body (n : N) : text := txt "EMAIL_" ++ str_of_int n.

Lemma phone_placeholder_eq n :
  phone_placeholder n = lb :: phone_body n ++ [rb].
Proof.
  unfold phone_placeholder, phone_body. now rewrite <- app_assoc.
Qed.

Lemma email_placeholder_eq n :
  email_placeholder n = lb :: email_body n ++ [rb].
Proof.
  unfold email_placeholder, email_body. now rewrite <- app_assoc.
Qed.

Lemma digits_body n : forallb body_char (str_of_int n) = true.
Proof.
  eapply forallb_impl; [apply digit_body_char | apply str_of_int_digits].
Qed.

Lemma phone_token n : token (phone_placeholder n).
Proof.
  exists (phone_body n). split; [apply phone_placeholder_eq|].
  unfold phone_body. rewrite forallb_app, digits_body. reflexivity.
Qed.

Lemma email_token n : token (email_placeholder n).
Proof.
  exists (email_body n). split; [apply email_placeholder_eq|].
  unfold email_body. rewrite forallb_app, digits_body. reflexivity.
Qed.

Lemma lead_digits_le s : lead_digits s <= List.length s.
Proof.
  induction s as [|c s IH]; simpl; [lia|]. destruct (is_digit c); lia.
Qed.

Lemma short_runs_short s : List.length s <= 9 -> short_runs s = true.
Proof.
  induction s as [|c s IH]; intros H; [reflexivity|].
  cbn [short_runs]. apply andb_true_iff. split.
  - apply Nat.ltb_lt. pose proof (lead_digits_le (c :: s)). lia.
  - apply IH. simpl in H. lia.
Qed.

Lemma phone_short_token n :
  (n < 1000000000)%N -> short_token (phone_placeholder n).
Proof.
  intros H. exists (phone_body n).
  split; [apply phone_placeholder_eq|]. split.
  - unfold phone_body. rewrite forallb_app, digits_body. reflexivity.
  - unfold phone_body.
    change (short_runs (txt "PHONE_" ++ str_of_int n))
      with (short_runs (str_of_int n)).
    now apply short_runs_short, str_of_int_short.
Qed.

Lemma digits_then_close_digits ds z seen :
  forallb is_digit ds = true -> seen = true \/ ds <> [] ->
  digits_then_close (ds ++ rb :: z) seen = true.
Proof.
  revert seen; induction ds as [|c ds IH]; intros seen Hd Hs.
  - destruct Hs as [-> | Hs]; [reflexivity | congruence].
  - simpl in *. apply andb_true_iff in Hd as [-> Hd]. apply IH; auto.
Qed.

Lemma phone_shaped n : shaped (phone_placeholder n).
Proof.
  intros z. unfold phone_placeholder, placeholder_here.
  rewrite <- !app_assoc.
  change (prefixb (txt "[PHONE_") (txt "[PHONE_" ++ _)) with true.
  cbn [orb andb]. 
  change (skipn 7 (txt "[PHONE_" ++ ?x)) with x.
  apply digits_then_close_digits.
  - apply str_of_int_digits.
  - right. apply str_of_int_nonempty.
Qed.

Lemma email_shaped n : shaped (email_placeholder n).
Proof.
  intros z. unfold email_placeholder, placeholder_here.
  rewrite <- !app_assoc.
  change (prefixb (txt "[EMAIL_") (txt "[EMAIL_" ++ _)) with true.
  rewrite orb_true_r. cbn [andb].
  apply digits_then_close_digits.
  - apply str_of_int_digits.
  - right. apply str_of_int_nonempty.
Qed.

Lemma phone_placeholder_inj n m :
  phone_placeholder n = phone_placeholder m -> n = m.
Proof.
  unfold phone_placeholder. intros H.
  apply app_inv_head, app_inv_tail in H. now apply str_of_int_inj.
Qed.

Lemma email_placeholder_inj n m :
  email_placeholder n = email_placeholder m -> n = m.
Proof.
  unfold email_placeholder. intros H.
  apply app_inv_head, app_inv_tail in H. now apply str_of_int_inj.
Qed.

Lemma phone_not_email n m : phone_placeholder n <> email_placeholder m.
Proof. unfold phone_placeholder, email_placeholder. discriminate. Qed.

End Placeholders.

Import Placeholders.

(* ================================================================== *)
(** * Masked texts as segments *)

(** A masked text read as the original cut into pieces: stretches left
    as they were, and placeholders standing for a literal. *)
Module Segments.

Inductive seg : Type :=
| Raw (x : text)
| Hole (p v : text).

Definition masked_of (sg : seg) : text :=
  match sg with Raw x => x | Hole p _ => p end.

Definition original_of (sg : seg) : text :=
  match sg with Raw x => x | Hole _ v => v end.

Definition render_masked (segs : list seg) : text := flat_map masked_of segs.
Definition render_original (segs : list seg) : text :=
  flat_map original_of segs.

Fixpoint holes (segs : list seg) : dict :=
  match segs with
  | [] => []
  | Raw _ :: r => holes r
  | Hole p v :: r => (p, v) :: holes r
  end.

(** The holes of placeholder [p] put back. *)
Definition fill_seg (p : text) (sg : seg) : seg :=
  match sg with
  | Raw x => Raw x
  | Hole p' v' => if text_eqb p' p then Raw v' else Hole p' v'
  end.

Definition fill (p : text) (segs : list seg) : list seg :=
  map (fill_seg p) segs.

Lemma render_original_fill p segs :
  render_original (fill p segs) = render_original segs.
Proof.
  induction segs as [|[x|p' v'] segs IH]; simpl; [reflexivity| |].
  - now rewrite <- IH.
  - destruct (text_eqb p' p); simpl; now rewrite <- IH.
Qed.

Lemma holes_fill p segs q v :
  In (q, v) (holes (fill p segs)) -> In (q, v) (holes segs) /\ q <> p.
Proof.
  induction segs as [|[x|p' v'] segs IH]; simpl; [tauto|auto|].
  destruct (text_eqb p' p) eqn:E; simpl.
  - intros H. apply IH in H. tauto.
  - apply text_eqb_neq in E. intros [H | H].
    + inversion H; subst. auto.
    + apply IH in H. tauto.
Qed.

Lemma no_holes_render segs :
  holes segs = [] -> render_masked segs = render_original segs.
Proof.
  induction segs as [|[x|p v] segs IH]; simpl; [reflexivity| |discriminate].
  intros H. now rewrite IH.
Qed.

(** ** One [replace(literal, placeholder, 1)] *)

Lemma replace_first_nil v p : v <> [] -> replace_first v p [] = [].
Proof. destruct v; [congruence | reflexivity]. Qed.

Lemma replace_first_segs v p segs :
  v <> [] -> forallb plain v = true ->
  (forall p' v', In (p', v') (holes segs) ->
                 token p' /\ forall R, clear v p' R) ->
  forall x,
  exists segs',
    replace_first v p (x ++ render_masked segs) = render_masked segs'
    /\ render_original segs' = x ++ render_original segs
    /\ incl (holes segs') ((p, v) :: holes segs).
Proof.
  intros Hne Hv. induction segs as [|[y|p' v'] segs IH]; intros Hh x.
  - simpl. rewrite app_nil_r.
    destruct (replace_first_cases v p x []) as [Hc | (a & b & E & _ & Hr)].
    + exists [Raw x]. simpl. rewrite !app_nil_r.
      pose proof (replace_first_clear v p x [] Hc) as G.
      rewrite app_nil_r, replace_first_nil, app_nil_r in G by exact Hne.
      repeat split; auto. intros kv [].
    + rewrite app_nil_r in E, Hr. exists [Raw a; Hole p v; Raw b].
      simpl. rewrite !app_nil_r. repeat split; auto.
      intros kv [<- | []]. now left.
  - simpl. rewrite app_assoc.
    destruct (IH Hh (x ++ y)) as (segs' & E1 & E2 & E3).
    exists segs'. rewrite E1, E2, <- app_assoc. auto.
  - simpl.
    destruct (Hh p' v' (or_introl eq_refl)) as [(body & Ep & Hb) Hcl].
    assert (Hh' : forall q w, In (q, w) (holes segs) ->
                              token q /\ forall R, clear v q R).
    { intros q w Hin. apply (Hh q w). now right. }
    destruct (replace_first_cases v p x (p' ++ render_masked segs))
      as [Hc | (a & b & E & Hl & Hr)].
    + destruct (IH Hh' []) as (segs' & E1 & E2 & E3).
      exists (Raw x :: Hole p' v' :: segs'). simpl in *.
      rewrite replace_first_clear by exact Hc.
      rewrite replace_first_clear by apply Hcl.
      rewrite E1, E2. repeat split; auto.
      intros kv [<- | Hin]; [right; now left|].
      apply E3 in Hin as [<- | Hin]; [now left | right; now right].
    + apply app_align in E as (m & Ex & Em); [|lia].
      assert (Hm : m <> []).
      { intros ->. rewrite app_nil_r in Ex. subst x. lia. }
      apply app_eq_app in Em as (l & [[E1 E2] | [E1 E2]]).
      * (* the occurrence would run over into the next placeholder *)
        destruct l as [|c l].
        -- exists (Raw a :: Hole p v :: Raw [] :: Hole p' v' :: segs).
           rewrite app_nil_r in E1. subst m. simpl in E2. subst b.
           simpl. rewrite Hr, Ex, <- !app_assoc.
           repeat split; auto.
           intros kv [<- | [<- | Hin]];
             [now left | right; now left | right; now right].
        -- exfalso. rewrite Ep in E2. simpl in E2. inversion E2; subst c.
           rewrite E1, forallb_app in Hv.
           apply andb_true_iff in Hv as [_ Hv]. simpl in Hv. discriminate.
      * (* the occurrence lies inside [x] *)
        exists (Raw a :: Hole p v :: Raw l :: Hole p' v' :: segs).
        simpl. rewrite Hr, E2, Ex, E1, <- !app_assoc.
        repeat split; auto.
        intros kv [<- | [<- | Hin]];
          [now left | right; now left | right; now right].
Qed.

(** ** One [replace(placeholder, literal)] *)

Lemma replace_scan_nil p v : replace_scan p v [] 0 = [].
Proof. reflexivity. Qed.

Lemma replace_segs p v segs :
  token p -> shaped p ->
  (forall p' v', In (p', v') (holes segs) ->
                 token p' /\ (p' = p -> v' = v)) ->
  forall x,
    has_placeholder (x ++ render_original segs) = false ->
    replace_scan p v (x ++ render_masked segs) 0
    = x ++ render_masked (fill p segs).
Proof.
  intros Ht Hs. induction segs as [|[y|p' v'] segs IH]; intros Hh x Hx.
  - simpl in *. rewrite app_nil_r in Hx.
    rewrite replace_scan_clear; [reflexivity|].
    apply clear_raw; auto.
  - simpl in *. rewrite app_assoc in Hx |- *.
    rewrite (IH Hh _ Hx). now rewrite <- app_assoc.
  - simpl in *.
    destruct (Hh p' v' (or_introl eq_refl)) as [Ht' Hv'].
    assert (Hh' : forall q w, In (q, w) (holes segs) ->
                              token q /\ (q = p -> w = v)).
    { intros q w Hin. apply (Hh q w). now right. }
    assert (Hx' : has_placeholder ([] ++ render_original segs) = false).
    { simpl. eapply has_placeholder_app_r, has_placeholder_app_r, Hx. }
    assert (Hrest : forall R, p' ++ R = [] \/ exists r, p' ++ R = lb :: r).
    { intros R. right. destruct Ht' as (b & -> & _). simpl. eauto. }
    assert (Hcx : clear p x (p' ++ render_masked segs)).
    { apply clear_raw; auto. eapply has_placeholder_app_l, Hx. }
    destruct (text_eqb p' p) eqn:E.
    + apply text_eqb_eq in E. subst p'. rewrite (Hv' eq_refl) in *.
      rewrite replace_scan_clear by exact Hcx.
      rewrite replace_scan_hit.
      * specialize (IH Hh' [] Hx'). simpl in IH. now rewrite IH.
      * destruct Ht as (b & -> & _). discriminate.
    + apply text_eqb_neq in E.
      rewrite app_assoc, replace_scan_clear.
      * specialize (IH Hh' [] Hx'). simpl in IH.
        now rewrite IH, <- app_assoc.
      * apply clear_app; [exact Hcx|]. apply clear_token; auto.
Qed.

(** ** [unmask_text] over the segments *)

Lemma replace_token p v s :
  token p -> replace p v s = replace_scan p v s 0.
Proof. intros (b & -> & _). reflexivity. Qed.

Lemma unmask_segs m :
  forall segs,
    NoDup (keys m) ->
    (forall p v, In (p, v) m -> token p /\ shaped p) ->
    incl (holes segs) m ->
    has_placeholder (render_original segs) = false ->
    unmask_text (render_masked segs) m = render_original segs.
Proof.
  induction m as [|[p v] m IH]; intros segs Hnd Hk Hin Hfree.
  - simpl. apply no_holes_render.
    destruct (holes segs) as [|kv h]; [reflexivity|].
    destruct (Hin kv (or_introl eq_refl)).
  - cbn [unmask_text fold_left fst snd].
    destruct (Hk p v (or_introl eq_refl)) as [Hp Hs].
    rewrite replace_token by exact Hp.
    inversion Hnd as [|k ks Hnotin Hnd']; subst.
    assert (Hh : forall p' v', In (p', v') (holes segs) ->
                               token p' /\ (p' = p -> v' = v)).
    { intros p' v' H. split; [apply (Hk p' v'), Hin, H|].
      intros ->. destruct (Hin _ H) as [E | E]; [congruence|].
      exfalso. apply Hnotin. now apply (in_map fst) in E. }
    pose proof (@replace_segs p v segs Hp Hs Hh [] Hfree) as G.
    simpl in G. rewrite G.
    rewrite <- (render_original_fill p segs).
    apply IH; auto.
    + intros q w H. apply (Hk q w). now right.
    + intros [q w] H. apply holes_fill in H as [H Hq].
      destruct (Hin _ H) as [E | E]; [congruence | exact E].
    + now rewrite render_original_fill.
Qed.

End Segments.

(* ================================================================== *)
(** * The invariant of [mask_text] and the round trip *)

Module RoundTrip.

Import Segments.

(** Below this many phone placeholders, no placeholder holds ten digits. *)
Definition bound : N := 1000000000.

(** [T] with table [m] is a masking of [t]. *)
Definition masking_of (t T : text) (m : dict) : Prop :=
  exists segs,
    render_masked segs = T /\ render_original segs = t
    /\ incl (holes segs) m.

Lemma masking_of_start t : masking_of t t [].
Proof.
  exists [Raw t]. simpl. rewrite app_nil_r. repeat split. intros kv [].
Qed.

Lemma dict_set_fresh d k v :
  ~ In k (keys d) -> dict_set d k v = d ++ [(k, v)].
Proof.
  induction d as [|[k' v'] d IH]; simpl; [reflexivity|].
  intros H. destruct (text_eqb k' k) eqn:E.
  - apply text_eqb_eq in E. tauto.
  - rewrite IH; tauto.
Qed.

Lemma keys_snoc d k v : keys (d ++ [(k, v)]) = keys d ++ [k].
Proof. unfold keys. now rewrite map_app. Qed.

Lemma NoDup_snoc (l : list text) k : NoDup l -> ~ In k l -> NoDup (l ++ [k]).
Proof.
  induction 1 as [|x l Hx Hl IH]; simpl; intros Hk.
  - constructor; [tauto | constructor].
  - constructor.
    + rewrite in_app_iff. simpl. intros [H | [H | []]]; [tauto|].
      subst. tauto.
    + apply IH. tauto.
Qed.

Lemma in_keys d k : In k (keys d) -> exists v, In (k, v) d.
Proof.
  unfold keys. rewrite in_map_iff. intros ([k' v] & E & H).
  simpl in E. subst. eauto.
Qed.

Lemma mask_step t T m v p :
  masking_of t T m -> v <> [] -> forallb plain v = true ->
  (forall p' v', In (p', v') m -> token p' /\ forall R, clear v p' R) ->
  masking_of t (replace_first v p T) (m ++ [(p, v)]).
Proof.
  intros (segs & <- & <- & Hin) Hne Hv Hh.
  destruct (@replace_first_segs v p segs Hne Hv) with (x := @nil ascii)
    as (segs' & E1 & E2 & E3).
  - intros p' v' H. apply (Hh p' v'), Hin, H.
  - exists segs'. simpl in *. repeat split; auto.
    intros kv H. apply in_app_iff. apply E3 in H as [<- | H].
    + right. now left.
    + left. now apply Hin.
Qed.

(** ** The phone loop *)

Record phone_inv (t : text) (st : state) : Prop := {
  phone_masking : masking_of t (masked_text st) (mapping st);
  phone_nodup : NoDup (keys (mapping st));
  phone_keys : forall p v, In (p, v) (mapping st) ->
      exists i, (i < phone_counter st)%N /\ p = phone_placeholder i
}.

Lemma phone_step_counter st v :
  (phone_counter st <= phone_counter (phone_step st v))%N.
Proof.
  unfold phone_step.
  destruct (truthy (strip v) && negb (mem v (values (mapping st))));
    simpl; lia.
Qed.

Lemma phones_counter l : forall st,
  (phone_counter st <= phone_counter (fold_left phone_step l st))%N.
Proof.
  induction l as [|v l IH]; intros st; simpl; [lia|].
  pose proof (phone_step_counter st v). specialize (IH (phone_step st v)).
  lia.
Qed.

Lemma phone_step_inv t st v :
  phone_inv t st -> safe v -> (phone_counter st <= bound)%N ->
  phone_inv t (phone_step st v).
Proof.
  intros [Hm Hnd Hk] Hv Hc. unfold phone_step.
  destruct (truthy (strip v) && negb (mem v (values (mapping st))));
    [|now constructor].
  assert (Hfresh : ~ In (phone_placeholder (phone_counter st))
                        (keys (mapping st))).
  { intros H. apply in_keys in H as (w & H).
    apply Hk in H as (i & Hi & E). apply phone_placeholder_inj in E. lia. }
  rewrite dict_set_fresh by exact Hfresh.
  constructor; simpl.
  - apply mask_step; auto using safe_nonempty, safe_plain.
    intros p' v' H. apply Hk in H as (i & Hi & ->).
    assert (Hs : short_token (phone_placeholder i)).
    { apply phone_short_token. unfold bound in Hc. lia. }
    split; [now apply short_token_token|].
    intros R. now apply clear_safe.
  - rewrite keys_snoc. now apply NoDup_snoc.
  - intros p w H. apply in_app_iff in H as [H | [H | []]].
    + apply Hk in H as (i & Hi & ->). exists i. split; [lia | reflexivity].
    + inversion H; subst. exists (phone_counter st). split; [lia | reflexivity].
Qed.

Lemma phones_inv t l :
  Forall safe l -> forall st,
  phone_inv t st ->
  (phone_counter (fold_left phone_step l st) <= bound)%N ->
  phone_inv t (fold_left phone_step l st).
Proof.
  induction 1 as [|v l Hv Hl IH]; intros st Hst Hc; simpl in *; [exact Hst|].
  apply IH; [|exact Hc].
  apply phone_step_inv; auto.
  pose proof (phones_counter l (phone_step st v)).
  pose proof (phone_step_counter st v). lia.
Qed.

Lemma pattern_step_counter st r :
  (phone_counter st <= phone_counter (pattern_step st r))%N.
Proof. apply phones_counter. Qed.

Lemma patterns_counter rs : forall st,
  (phone_counter st <= phone_counter (fold_left pattern_step rs st))%N.
Proof.
  induction rs as [|r rs IH]; intros st; simpl; [lia|].
  pose proof (pattern_step_counter st r). specialize (IH (pattern_step st r)).
  lia.
Qed.

Lemma pattern_step_inv t st r :
  In r phone_patterns -> phone_inv t st ->
  (phone_counter (pattern_step st r) <= bound)%N ->
  phone_inv t (pattern_step st r).
Proof.
  intros Hr Hst Hc. unfold pattern_step in *.
  apply phones_inv; auto.
  apply Forall_forall. intros m Hm. eapply phone_match_safe; eauto.
Qed.

Lemma patterns_inv t rs :
  incl rs phone_patterns -> forall st,
  phone_inv t st ->
  (phone_counter (fold_left pattern_step rs st) <= bound)%N ->
  phone_inv t (fold_left pattern_step rs st).
Proof.
  induction rs as [|r rs IH]; intros Hrs st Hst Hc; simpl in *; [exact Hst|].
  apply IH; [|  |exact Hc].
  - intros x Hx. apply Hrs. now right.
  - apply pattern_step_inv; auto.
    + apply Hrs. now left.
    + pose proof (patterns_counter rs (pattern_step st r)). lia.
Qed.

Lemma mask_phones_inv t :
  (phone_counter (mask_phones t) <= bound)%N -> phone_inv t (mask_phones t).
Proof.
  intros H. apply patterns_inv; auto.
  - apply incl_refl.
  - constructor; simpl.
    + apply masking_of_start.
    + constructor.
    + intros p v [].
Qed.

(** ** The email loop *)

Record email_inv (t : text) (st : state) : Prop := {
  email_masking : masking_of t (masked_text st) (mapping st);
  email_nodup : NoDup (keys (mapping st));
  email_keys : forall p v, In (p, v) (mapping st) ->
      (exists i, p = phone_placeholder i)
      \/ (exists i, (i < phone_counter st)%N /\ p = email_placeholder i)
}.

Lemma email_step_inv t st v :
  email_inv t st -> safe_special v -> email_inv t (email_step st v).
Proof.
  intros [Hm Hnd Hk] Hv. unfold email_step.
  assert (Hfresh : ~ In (email_placeholder (phone_counter st))
                        (keys (mapping st))).
  { intros H. apply in_keys in H as (w & H).
    apply Hk in H as [(i & E) | (i & Hi & E)].
    - symmetry in E. now apply phone_not_email in E.
    - apply email_placeholder_inj in E. lia. }
  rewrite dict_set_fresh by exact Hfresh.
  constructor; simpl.
  - apply mask_step; auto.
    + apply safe_nonempty. now left.
    + apply Hv.
    + intros p' v' H.
      assert (Ht : token p').
      { apply Hk in H as [(i & ->) | (i & _ & ->)];
          [apply phone_token | apply email_token]. }
      split; [exact Ht|]. intros R. now apply clear_safe_special.
  - rewrite keys_snoc. now apply NoDup_snoc.
  - intros p w H. apply in_app_iff in H as [H | [H | []]].
    + apply Hk in H as [H | (i & Hi & ->)]; [now left|].
      right. exists i. split; [lia | reflexivity].
    + inversion H; subst. right. exists (phone_counter st).
      split; [lia | reflexivity].
Qed.

Lemma emails_inv t l :
  Forall safe_special l -> forall st,
  email_inv t st -> email_inv t (fold_left email_step l st).
Proof.
  induction 1 as [|v l Hv Hl IH]; intros st Hst; simpl; [exact Hst|].
  apply IH. now apply email_step_inv.
Qed.

Lemma mask_emails_inv t st : phone_inv t st -> email_inv t (mask_emails st).
Proof.
  intros [Hm Hnd Hk]. unfold mask_emails. apply emails_inv.
  - apply Forall_forall. intros m Hin. eapply email_match_safe; eauto.
  - constructor; simpl; auto.
    intros p v H. apply Hk in H as (i & _ & ->). left. eauto.
Qed.

Lemma email_inv_round_trip t st :
  email_inv t st -> has_placeholder t = false ->
  unmask_text (masked_text st) (mapping st) = t.
Proof.
  intros [(segs & <- & <- & Hin) Hnd Hk] Hfree.
  apply unmask_segs; auto.
  intros p v H. apply Hk in H as [(i & ->) | (i & _ & ->)].
  - split; [apply phone_token | apply phone_shaped].
  - split; [apply email_token | apply email_shaped].
Qed.

End RoundTrip.

Import RoundTrip.


(* ================================================================== *)
(** * A text with more than 10^9 phone numbers *)

(** The ten-digit numbers 1000000001, ..., 2000000000 and then
    1000000000, separated by commas: the last one is replaced inside the
    placeholder [[PHONE_1000000000]] that the one before it received. *)
Module Beyond.

Definition comma : ascii := ",".

(** The [i]-th number of the text. *)
Definition literal (i : N) : text := str_of_int (bound + i).

Fixpoint literals (k : nat) (i : N) : list text :=
  match k with
  | O => []
  | S k' => literal i :: literals k' (i + 1)
  end.

Fixpoint plain_blocks (k : nat) (i : N) : text :=
  match k with
  | O => []
  | S k' => literal i ++ comma :: plain_blocks k' (i + 1)
  end.

Fixpoint masked_blocks (k : nat) (i : N) : text :=
  match k with
  | O => []
  | S k' => phone_placeholder i ++ comma :: masked_blocks k' (i + 1)
  end.

Fixpoint entries (k : nat) (i : N) : dict :=
  match k with
  | O => []
  | S k' => (phone_placeholder i, literal i) :: entries k' (i + 1)
  end.

Definition last_but_one : text := txt "2000000000".
Definition last_literal : text := txt "1000000000".

(** 10^9 - 1 numbers, then 2000000000, then 1000000000. *)
Definition many : nat := N.to_nat 999999999.

Definition numbers_text (k : nat) : text :=
  plain_blocks k 1 ++ last_but_one ++ comma :: last_literal.

Definition giant : text := numbers_text many.

Lemma many_eq : N.of_nat many = 999999999%N.
Proof. apply N2Nat.id. Qed.

#[global] Opaque many.

(** ** Ten-digit numbers *)

Lemma digit_val_small c : is_digit c = true -> (digit_val c <? 10)%N = true.
Proof.
  revert c. apply implies_ascii. vm_compute; reflexivity.
Qed.

Lemma num_of_bound ds : forall a,
  forallb is_digit ds = true ->
  (fold_left (fun a c => 10 * a + digit_val c) ds a
   < (a + 1) * 10 ^ N.of_nat (List.length ds))%N.
Proof.
  induction ds as [|c ds IH]; intros a H.
  - simpl. lia.
  - simpl in H. apply andb_true_iff in H as [Hc H].
    apply digit_val_small, N.ltb_lt in Hc.
    cbn [fold_left List.length]. specialize (IH (10 * a + digit_val c)%N H).
    rewrite Nat2N.inj_succ, N.pow_succ_r'.
    set (P := (10 ^ N.of_nat (List.length ds))%N) in *.
    assert (0 < P)%N by (apply N.neq_0_lt_0, N.pow_nonzero; lia).
    nia.
Qed.

Lemma str_of_int_long n :
  (1000000000 <= n)%N -> 10 <= List.length (str_of_int n).
Proof.
  intros H.
  pose proof (@num_of_bound (str_of_int n) 0%N (str_of_int_digits n)) as G.
  fold (num_of (str_of_int n)) in G. rewrite num_of_str_of_int in G.
  destruct (Nat.le_gt_cases 10 (List.length (str_of_int n))) as [L | L];
    [exact L | exfalso].
  assert (E : (10 ^ N.of_nat (List.length (str_of_int n)) <= 10 ^ 9)%N).
  { apply N.pow_le_mono_r; lia. }
  change (10 ^ 9)%N with 1000000000%N in E. lia.
Qed.

Lemma literal_safe i : (i <= bound)%N -> safe_digits (literal i).
Proof.
  intros H. unfold literal. split; [|apply str_of_int_digits].
  apply Nat.le_antisymm.
  - apply (@digits_fuel_length _ 9). unfold bound in *.
    change (10 ^ N.of_nat 10)%N with 10000000000%N. lia.
  - apply str_of_int_long. unfold bound. lia.
Qed.

Lemma literal_inj i j : literal i = literal j -> i = j.
Proof. unfold literal. intros H. apply str_of_int_inj in H. lia. Qed.

Lemma last_but_one_literal : last_but_one = literal bound.
Proof. vm_compute. reflexivity. Qed.

Lemma last_literal_eq : last_literal = str_of_int bound.
Proof. vm_compute. reflexivity. Qed.

Lemma last_literal_fresh i : (1 <= i)%N -> literal i <> last_literal.
Proof.
  rewrite last_literal_eq. unfold literal. intros H E.
  apply str_of_int_inj in E. lia.
Qed.

Lemma last_literal_safe : safe_digits last_literal.
Proof. split; reflexivity. Qed.

(** ** [strip] of a number *)

Lemma digit_not_space c : is_digit c = true -> is_space c = false.
Proof.
  intros H. apply negb_true_iff. revert c H.
  apply (implies_ascii is_digit (fun c => negb (is_space c))).
  vm_compute; reflexivity.
Qed.

Lemma lstrip_digits v : forallb is_digit v = true -> lstrip v = v.
Proof.
  destruct v as [|c v]; [reflexivity|]. simpl.
  rewrite andb_true_iff. intros [H _]. now rewrite (digit_not_space _ H).
Qed.

Lemma strip_digits v : forallb is_digit v = true -> strip v = v.
Proof.
  intros H. unfold strip. rewrite (lstrip_digits _ H).
  rewrite lstrip_digits; [apply rev_involutive|].
  rewrite forallb_forall in *. intros c Hc. apply H. now apply in_rev.
Qed.

Lemma truthy_strip v : safe_digits v -> truthy (strip v) = true.
Proof.
  intros [Hl Hd]. rewrite strip_digits by exact Hd.
  destruct v; [discriminate | reflexivity].
Qed.

(** ** Texts in which no ten-digit number starts *)

Definition good (pre : text) : Prop :=
  forall v R, safe_digits v -> clear v pre R.

Lemma good_nil : good [].
Proof. intros v R _. exact I. Qed.

Lemma good_app a b : good a -> good b -> good (a ++ b).
Proof. intros Ha Hb v R Hv. apply clear_app; auto. Qed.

Lemma good_token p : short_token p -> good p.
Proof. intros Hp v R Hv. now apply clear_safe_digits. Qed.

Lemma clear_nondigit v y R :
  safe_digits v -> forallb (fun c => negb (is_digit c)) y = true ->
  clear v y R.
Proof.
  intros [Hl Hd]. induction y as [|c y IH]; [intros _; exact I|].
  simpl. rewrite andb_true_iff. intros [Hc Hy]. split; [|auto].
  destruct v as [|d v]; [discriminate|]. simpl in *.
  apply andb_true_iff in Hd as [Hd _].
  destruct (Ascii.eqb d c) eqn:E; [|reflexivity].
  apply Ascii.eqb_eq in E. subst. rewrite Hd in Hc. discriminate.
Qed.

Lemma good_comma : good [comma].
Proof. intros v R Hv. now apply clear_nondigit. Qed.

Lemma good_masked_blocks k : forall i,
  (i + N.of_nat k <= bound)%N -> good (masked_blocks k i).
Proof.
  induction k as [|k IH]; intros i H; [apply good_nil|].
  cbn [masked_blocks].
  change (phone_placeholder i ++ comma :: masked_blocks k (i + 1))
    with (phone_placeholder i ++ [comma] ++ masked_blocks k (i + 1)).
  apply good_app; [|apply good_app].
  - apply good_token, phone_short_token. unfold bound in *. lia.
  - apply good_comma.
  - apply IH. lia.
Qed.

(** ** The phone loop on the numbers *)

Lemma mem_false v l : (forall w, In w l -> w <> v) -> mem v l = false.
Proof.
  intros H. unfold mem. destruct (existsb (text_eqb v) l) eqn:E; auto.
  apply existsb_exists in E as (w & Hw & E). apply text_eqb_eq in E.
  subst. now apply H in Hw.
Qed.

Lemma replace_first_hit v p pre rest :
  clear v pre (v ++ rest) ->
  replace_first v p (pre ++ v ++ rest) = pre ++ p ++ rest.
Proof.
  intros H. rewrite replace_first_clear by exact H. f_equal.
  destruct v as [|c v]; [destruct rest; reflexivity|].
  change ((c :: v) ++ rest) with (c :: (v ++ rest)).
  cbn [replace_first].
  change (c :: v ++ rest) with ((c :: v) ++ rest).
  now rewrite prefixb_app, skipn_length_app.
Qed.

(** The entries so far belong to the numbers before the [i]-th. *)
Definition table_below (i : N) (m : dict) : Prop :=
  forall p w, In (p, w) m ->
    exists j, (1 <= j < i)%N /\ p = phone_placeholder j /\ w = literal j.

Lemma step_block pre rest m i v :
  safe_digits v -> clear v pre (v ++ rest) ->
  (forall p w, In (p, w) m ->
     (exists j, (j < i)%N /\ p = phone_placeholder j) /\ w <> v) ->
  phone_step (State (pre ++ v ++ rest) m i) v
  = State (pre ++ phone_placeholder i ++ rest)
          (m ++ [(phone_placeholder i, v)]) (i + 1).
Proof.
  intros Hv Hpre Hm. unfold phone_step. cbn [masked_text mapping phone_counter].
  rewrite truthy_strip by exact Hv.
  rewrite mem_false.
  - cbn [andb negb]. f_equal.
    + apply replace_first_hit. exact Hpre.
    + apply dict_set_fresh. intros H. apply in_keys in H as (w & H).
      apply Hm in H as [(j & Hj & E) _].
      apply phone_placeholder_inj in E. lia.
  - intros w Hw. unfold values in Hw. apply in_map_iff in Hw as ([p w'] & E & Hin).
    simpl in E. subst. now apply Hm in Hin.
Qed.

Lemma steps_blocks k : forall i pre m tail later,
  good pre -> (1 <= i)%N -> (i + N.of_nat k <= bound)%N ->
  table_below i m ->
  fold_left phone_step (literals k i ++ later)
            (State (pre ++ plain_blocks k i ++ tail) m i)
  = fold_left phone_step later
              (State (pre ++ masked_blocks k i ++ tail)
                     (m ++ entries k i) (i + N.of_nat k)).
Proof.
  induction k as [|k IH]; intros i pre m tail later Hpre Hi Hb Hm.
  - simpl. now rewrite app_nil_r, N.add_0_r.
  - cbn [literals plain_blocks masked_blocks entries app fold_left].
    rewrite <- app_assoc. cbn [app].
    rewrite step_block.
    + replace (pre ++ phone_placeholder i
                   ++ comma :: plain_blocks k (i + 1) ++ tail)
        with ((pre ++ phone_placeholder i ++ [comma])
                ++ plain_blocks k (i + 1) ++ tail)
        by (now rewrite <- !app_assoc).
      rewrite IH.
      * f_equal. f_equal.
        -- now rewrite <- !app_assoc.
        -- now rewrite <- app_assoc.
        -- lia.
      * apply good_app; [exact Hpre|]. apply good_app; [|apply good_comma].
        apply good_token, phone_short_token. unfold bound in *. lia.
      * lia.
      * lia.
      * intros p w H. apply in_app_iff in H as [H | [H | []]].
        -- apply Hm in H as (j & Hj & -> & ->). exists j.
           repeat split; lia.
        -- inversion H; subst. exists i. repeat split; lia.
    + apply literal_safe. lia.
    + apply Hpre, literal_safe. lia.
    + intros p w H. apply Hm in H as (j & Hj & -> & ->). split.
      * exists j. split; [lia | reflexivity].
      * intros E. apply literal_inj in E. lia.
Qed.


Lemma entries_in k : forall i p w,
  In (p, w) (entries k i) ->
  exists j, (i <= j < i + N.of_nat k)%N
            /\ p = phone_placeholder j /\ w = literal j.
Proof.
  induction k as [|k IH]; intros i p w H; [destruct H|].
  destruct H as [H | H].
  - inversion H; subst. exists i. repeat split; lia.
  - apply IH in H as (j & Hj & -> & ->). exists j. repeat split; lia.
Qed.

(** ** [findall] on the numbers *)

Lemma match_here_items r prev m rest :
  match_items r prev (m ++ rest) = Some rest ->
  match_here r prev (m ++ rest) = Some m.
Proof.
  intros H. unfold match_here. rewrite H, length_app.
  replace (List.length m + List.length rest - List.length rest)
    with (List.length m + 0) by lia.
  now rewrite firstn_app_2, firstn_O, app_nil_r.
Qed.

Lemma match_here_prefix r prev s m :
  match_here r prev s = Some m -> shape r m /\ exists rest, s = m ++ rest.
Proof.
  intros H. split; [eapply match_here_shape; eauto|].
  unfold match_here in H.
  destruct (match_items r prev s) as [rest|] eqn:E; [|discriminate].
  apply match_items_shape in E as (m' & -> & _).
  rewrite length_app in H.
  replace (List.length m' + List.length rest - List.length rest)
    with (List.length m' + 0) in H by lia.
  rewrite firstn_app_2, firstn_O, app_nil_r in H. inversion H; subst. eauto.
Qed.

(** A pattern that must take a character of [set] finds nothing in a
    text without one. *)
Lemma findall_scan_none r set lo hi :
  In (Rep set (S lo) hi) r ->
  forall s prev skip,
    forallb (fun c => negb (set c)) s = true ->
    findall_scan r prev s skip = [].
Proof.
  intros Hin.
  assert (Hnone : forall s prev,
             forallb (fun c => negb (set c)) s = true ->
             match_here r prev s = None).
  { intros s prev Hs. destruct (match_here r prev s) as [m|] eqn:E; auto.
    apply match_here_prefix in E as [Hm (rest & ->)].
    eapply shape_mandatory in Hm; [|exact Hin].
    rewrite forallb_app in Hs. apply andb_true_iff in Hs as [Hs _].
    apply existsb_exists in Hm as (c & Hc & Hset).
    rewrite forallb_forall in Hs. apply Hs in Hc. rewrite Hset in Hc.
    discriminate. }
  induction s as [|c s IH]; intros prev skip Hs.
  - destruct skip; cbn [findall_scan]; [|reflexivity].
    now rewrite Hnone.
  - pose proof Hs as Hs'. simpl in Hs'. apply andb_true_iff in Hs' as [_ Hs'].
    destruct skip; cbn [findall_scan]; [|now apply IH].
    rewrite Hnone by exact Hs. now apply IH.
Qed.

Lemma pattern_none st r :
  findall r (masked_text st) = [] -> pattern_step st r = st.
Proof. unfold pattern_step. now intros ->. Qed.

(** The character before the position reached after [x]. *)
Definition last_prev (prev : option ascii) (x : text) : option ascii :=
  fold_left (fun _ c => Some c) x prev.

Lemma findall_scan_skip r x : forall prev rest,
  findall_scan r prev (x ++ rest) (List.length x)
  = findall_scan r (last_prev prev x) rest 0.
Proof.
  induction x as [|c x IH]; intros prev rest; [reflexivity|].
  cbn [List.length app findall_scan]. now rewrite IH.
Qed.

Lemma rep_exact set k m : forall n prev rest r,
  forallb set m = true -> List.length m = n ->
  k (last_prev prev m) rest = Some r ->
  rep set k n (Some n) prev (m ++ rest) = Some r.
Proof.
  induction m as [|c m IH]; intros n prev rest r Hm Hn Hk.
  - simpl in Hn. subst n. simpl in Hk.
    destruct rest as [|c rest]; cbn [rep app may_take]; [exact Hk|].
    now rewrite andb_false_r.
  - simpl in Hn. subst n. simpl in Hm. apply andb_true_iff in Hm as [Hc Hm].
    cbn [app rep may_take took_one pred]. rewrite Hc. cbn [andb].
    now rewrite (IH _ (Some c) rest r Hm eq_refl Hk).
Qed.

Lemma digit_word c : is_digit c = true -> is_word c = true.
Proof. revert c. apply implies_ascii. vm_compute; reflexivity. Qed.

Lemma last_prev_digits v prev :
  v <> [] -> forallb is_digit v = true ->
  exists c, last_prev prev v = Some c /\ is_digit c = true.
Proof.
  revert prev; induction v as [|c v IH]; intros prev Hne Hd; [congruence|].
  simpl in Hd. apply andb_true_iff in Hd as [Hc Hd].
  destruct v as [|d v].
  - exists c. split; [reflexivity | exact Hc].
  - apply (IH (Some c)); [discriminate | exact Hd].
Qed.

Lemma match_bare prev v rest :
  safe_digits v -> word_before prev = false ->
  match_items phone_bare prev (v ++ comma :: rest) = Some (comma :: rest).
Proof.
  intros [Hl Hd] Hprev.
  assert (Hne : v <> []) by (intros ->; discriminate).
  unfold phone_bare, times. cbn [match_items].
  assert (Hb : at_boundary prev (v ++ comma :: rest) = true).
  { destruct v as [|c v]; [congruence|]. unfold at_boundary. rewrite Hprev.
    simpl in Hd. apply andb_true_iff in Hd as [Hc _]. simpl.
    now rewrite (digit_word _ Hc). }
  rewrite Hb. apply rep_exact; auto.
  destruct (@last_prev_digits v prev Hne Hd) as (c & -> & Hc).
  unfold at_boundary. simpl. now rewrite (digit_word _ Hc).
Qed.

Lemma match_comma prev rest :
  match_here phone_bare prev (comma :: rest) = None.
Proof.
  unfold match_here, phone_bare, times. cbn [match_items].
  destruct (at_boundary prev (comma :: rest)); reflexivity.
Qed.

Lemma findall_block prev v rest :
  safe_digits v -> word_before prev = false ->
  findall_scan phone_bare prev (v ++ comma :: rest) 0
  = v :: findall_scan phone_bare (Some comma) rest 0.
Proof.
  intros Hv Hprev. pose proof (@match_bare prev v rest Hv Hprev) as Hm.
  apply match_here_items in Hm.
  destruct v as [|c v]; [destruct Hv; discriminate|].
  change ((c :: v) ++ comma :: rest) with (c :: (v ++ comma :: rest)) in *.
  cbn [findall_scan]. rewrite Hm. f_equal.
  replace (List.length (c :: v) - 1) with (List.length v) by (simpl; lia).
  rewrite findall_scan_skip. cbn [findall_scan].
  now rewrite match_comma.
Qed.

Lemma findall_blocks k : forall i prev rest found,
  (i + N.of_nat k <= bound + 1)%N -> word_before prev = false ->
  (forall prev', word_before prev' = false ->
                 findall_scan phone_bare prev' rest 0 = found) ->
  findall_scan phone_bare prev (plain_blocks k i ++ rest) 0
  = literals k i ++ found.
Proof.
  induction k as [|k IH]; intros i prev rest found Hb Hprev Hrest.
  - now apply Hrest.
  - cbn [plain_blocks literals app]. rewrite <- app_assoc. cbn [app].
    rewrite findall_block; auto.
    + f_equal. apply IH; auto. lia.
    + apply literal_safe. lia.
Qed.

Lemma last_but_one_safe : safe_digits last_but_one.
Proof. split; reflexivity. Qed.

Section Numbers.

(** The number of blocks before the last two, kept abstract. *)
Variable k : nat.
Hypothesis k_eq : N.of_nat k = 999999999%N.

Lemma findall_numbers :
  findall phone_bare (numbers_text k)
  = literals k 1 ++ [last_but_one; last_literal].
Proof.
  unfold findall, numbers_text. apply findall_blocks.
  - rewrite k_eq. unfold bound. lia.
  - reflexivity.
  - intros prev Hprev.
    rewrite findall_block; auto using last_but_one_safe.
Qed.

(** ** The characters of the text and of its masked form *)

Definition number_char (c : ascii) : bool := is_digit c || is_char "," c.

Definition masked_char (c : ascii) : bool :=
  body_char c || bracket c || is_char "," c.

Lemma digits_number_chars v :
  forallb is_digit v = true -> forallb number_char v = true.
Proof.
  apply forallb_impl. intros c H. unfold number_char. now rewrite H.
Qed.

Lemma plain_blocks_chars n : forall i,
  forallb number_char (plain_blocks n i) = true.
Proof.
  induction n as [|n IH]; intros i; [reflexivity|].
  cbn [plain_blocks]. rewrite forallb_app. apply andb_true_iff. split.
  - apply digits_number_chars, str_of_int_digits.
  - cbn [forallb]. now rewrite IH.
Qed.

Lemma numbers_chars : forallb number_char (numbers_text k) = true.
Proof.
  unfold numbers_text. rewrite forallb_app, plain_blocks_chars. reflexivity.
Qed.

Lemma placeholder_chars i : forallb masked_char (phone_placeholder i) = true.
Proof.
  unfold phone_placeholder. rewrite !forallb_app. cbn [andb].
  assert (H : forallb masked_char (str_of_int i) = true).
  { eapply forallb_impl; [|apply digits_body].
    intros c Hc. unfold masked_char. now rewrite Hc. }
  rewrite H. reflexivity.
Qed.

Lemma masked_blocks_chars n : forall i,
  forallb masked_char (masked_blocks n i) = true.
Proof.
  induction n as [|n IH]; intros i; [reflexivity|].
  cbn [masked_blocks]. rewrite forallb_app, placeholder_chars.
  cbn [forallb andb]. now rewrite IH.
Qed.

Lemma no_open_no_placeholder s :
  forallb (fun c => negb (open_bracket c)) s = true ->
  has_placeholder s = false.
Proof.
  induction s as [|c s IH]; [reflexivity|].
  simpl. rewrite andb_true_iff. intros [Hc Hs]. rewrite (IH Hs).
  rewrite orb_false_r. unfold placeholder_here.
  replace (prefixb (txt "[PHONE_") (c :: s)) with false.
  - replace (prefixb (txt "[EMAIL_") (c :: s)) with false; [reflexivity|].
    simpl. unfold open_bracket, is_char in Hc.
    destruct (Ascii.eqb "[" c); [discriminate | reflexivity].
  - simpl. unfold open_bracket, is_char in Hc.
    destruct (Ascii.eqb "[" c); [discriminate | reflexivity].
Qed.

Lemma numbers_free : has_placeholder (numbers_text k) = false.
Proof.
  apply no_open_no_placeholder.
  eapply forallb_impl; [|apply numbers_chars].
  apply (implies_ascii number_char (fun c => negb (open_bracket c))).
  vm_compute; reflexivity.
Qed.

(** ** [mask_text] on the text *)

Definition numbers_masked : text :=
  masked_blocks k 1
  ++ txt "[PHONE_" ++ phone_placeholder (bound + 1) ++ txt "]"
  ++ comma :: last_literal.

Definition numbers_table : dict :=
  (entries k 1 ++ [(phone_placeholder bound, last_but_one)])
  ++ [(phone_placeholder (bound + 1), last_literal)].

Lemma numbers_other_patterns r set lo hi :
  In (Rep set (S lo) hi) r ->
  forallb (fun c => implb (number_char c) (negb (set c))) all_ascii = true ->
  pattern_step (State (numbers_text k) [] 1) r
  = State (numbers_text k) [] 1.
Proof.
  intros Hin Hset. apply pattern_none. cbn [masked_text].
  eapply findall_scan_none; [exact Hin|].
  eapply forallb_impl; [|apply numbers_chars].
  apply (implies_ascii number_char (fun c => negb (set c))), Hset.
Qed.

Lemma numbers_phones :
  mask_phones (numbers_text k)
  = State numbers_masked numbers_table (bound + 2).
Proof.
  unfold mask_phones, phone_patterns. cbn [fold_left].
  rewrite (@numbers_other_patterns phone_intl_short (is_char "+") 0 (Some 1));
    [|left; reflexivity | vm_compute; reflexivity].
  rewrite (@numbers_other_patterns phone_intl_area (is_char "+") 0 (Some 1));
    [|left; reflexivity | vm_compute; reflexivity].
  rewrite (@numbers_other_patterns phone_paren (is_char "(") 0 (Some 1));
    [|left; reflexivity | vm_compute; reflexivity].
  rewrite (@numbers_other_patterns phone_sep sep 0 (Some 1));
    [|right; left; reflexivity | vm_compute; reflexivity].
  unfold pattern_step. cbn [masked_text]. rewrite findall_numbers.
  unfold numbers_text.
  pose proof (@steps_blocks k 1 [] [] (last_but_one ++ comma :: last_literal)
                [last_but_one; last_literal]) as G.
  cbn [app] in G. rewrite G; clear G.
  - cbn [fold_left]. rewrite k_eq.
    change (1 + 999999999)%N with bound.
    (* the number before the last takes the placeholder 10^9 *)
    rewrite step_block.
    + (* the last number is first found inside that placeholder *)
      change (phone_placeholder bound)
        with (txt "[PHONE_" ++ last_literal ++ txt "]").
      replace (masked_blocks k 1
               ++ (txt "[PHONE_" ++ last_literal ++ txt "]")
               ++ comma :: last_literal)
        with ((masked_blocks k 1 ++ txt "[PHONE_")
              ++ last_literal ++ txt "]" ++ comma :: last_literal)
        by (now rewrite <- !app_assoc).
      rewrite step_block.
      * unfold numbers_masked, numbers_table. f_equal.
        now rewrite <- !app_assoc.
      * apply last_literal_safe.
      * apply clear_app.
        -- apply good_masked_blocks; [|apply last_literal_safe].
           rewrite k_eq. unfold bound. lia.
        -- now apply clear_nondigit; [apply last_literal_safe|].
      * intros p w H. apply in_app_iff in H as [H | [H | []]].
        -- apply entries_in in H as (j & Hj & -> & ->).
           rewrite k_eq in Hj. split.
           ++ exists j. split; [unfold bound; lia | reflexivity].
           ++ apply last_literal_fresh. lia.
        -- inversion H; subst. split.
           ++ exists bound. split; [lia | reflexivity].
           ++ discriminate.
    + apply last_but_one_safe.
    + apply good_masked_blocks; [|apply last_but_one_safe].
      rewrite k_eq. unfold bound. lia.
    + intros p w H. apply entries_in in H as (j & Hj & -> & ->).
      rewrite k_eq in Hj. split.
      * exists j. split; [unfold bound; lia | reflexivity].
      * rewrite last_but_one_literal. intros E. apply literal_inj in E.
        unfold bound in E. lia.
  - apply good_nil.
  - lia.
  - rewrite k_eq. unfold bound. lia.
  - intros p w [].
Qed.

Lemma numbers_masked_chars : forallb masked_char numbers_masked = true.
Proof.
  unfold numbers_masked.
  rewrite !forallb_app, masked_blocks_chars, placeholder_chars. reflexivity.
Qed.

Lemma numbers_mask_text :
  mask_text (numbers_text k) = (numbers_masked, numbers_table).
Proof.
  unfold mask_text, mask_emails. rewrite numbers_phones.
  cbn [masked_text mapping].
  replace (findall email_pattern numbers_masked) with (@nil text);
    [reflexivity|].
  symmetry. unfold findall.
  eapply (@findall_scan_none email_pattern (is_char "@") 0 (Some 1)).
  - right; right; left; reflexivity.
  - eapply forallb_impl; [|apply numbers_masked_chars].
    apply (implies_ascii masked_char (fun c => negb (is_char "@" c))).
    vm_compute; reflexivity.
Qed.

(** ** [unmask_text] on the masked text *)

Definition underscore : ascii := "_".

(** The placeholder of the last number, inside the damaged one. *)
Definition inner : text := phone_placeholder (bound + 1).

(** The text still holds [_] followed by the inner placeholder. *)
Definition damaged (s : text) : Prop :=
  exists a b, s = a ++ underscore :: inner ++ b.

Lemma token_no_straddle p a R :
  token p -> a <> [] ->
  prefixb p (a ++ underscore :: lb :: R) = true -> prefixb p a = true.
Proof.
  intros (body & -> & Hb) Ha H.
  apply prefixb_app_cases in H as [H | (q & E & Hq & Hp)]; [exact H|].
  exfalso. destruct a as [|c a]; [congruence|].
  inversion E as [[Ec E']]. clear E.
  destruct q as [|d q]; [congruence|].
  simpl in Hp. apply andb_true_iff in Hp as [Hd Hp].
  apply Ascii.eqb_eq in Hd. subst d.
  destruct q as [|e q].
  - change (a ++ [underscore]) with (a ++ [underscore]) in E'.
    apply app_inj_tail in E' as [_ E']. discriminate.
  - simpl in Hp. apply andb_true_iff in Hp as [He _].
    apply Ascii.eqb_eq in He. subst e.
    apply (@token_no_inner_open body (a ++ [underscore]) q Hb).
    now rewrite <- app_assoc.
Qed.

(** Scanning the part before the mark never runs over it. *)
Lemma replace_scan_before p w R a : forall skip,
  token p -> skip <= List.length a ->
  exists a',
    replace_scan p w (a ++ underscore :: lb :: R) skip
    = a' ++ replace_scan p w (underscore :: lb :: R) 0.
Proof.
  intros skip Hp. revert skip.
  induction a as [|c a IH]; intros skip Hs.
  - simpl in Hs. assert (skip = 0) by lia. subst. exists []. reflexivity.
  - destruct skip as [|skip].
    + destruct (prefixb p ((c :: a) ++ underscore :: lb :: R)) eqn:E.
      * pose proof E as E'.
        apply token_no_straddle in E'; [|exact Hp | discriminate].
        apply prefixb_iff in E' as (r & Er).
        assert (Hl : List.length p - 1 <= List.length a).
        { apply (f_equal (@List.length ascii)) in Er.
          rewrite length_app in Er. simpl in Er. lia. }
        destruct (IH _ Hl) as (a' & Ea).
        exists (w ++ a'). cbn [app] in *. cbn [replace_scan].
        rewrite E, Ea. now rewrite app_assoc.
      * destruct (IH 0 (Nat.le_0_l _)) as (a' & Ea).
        exists (c :: a'). cbn [app] in *. cbn [replace_scan].
        rewrite E, Ea. reflexivity.
    + destruct (IH skip) as (a' & Ea); [simpl in Hs; lia|].
      exists a'. cbn [app]. cbn [replace_scan]. exact Ea.
Qed.

Lemma inner_token : token inner.
Proof. apply phone_token. Qed.

Lemma inner_eq : exists r, inner = lb :: r.
Proof. destruct inner_token as (b & -> & _). eauto. Qed.

Lemma replace_keeps_damage p w s :
  token p -> p <> inner -> damaged s -> damaged (replace p w s).
Proof.
  intros Hp Hne (a & b & ->). rewrite Segments.replace_token by exact Hp.
  destruct inner_eq as (r & Er).
  destruct (@replace_scan_before p w (r ++ b) a 0 Hp (Nat.le_0_l _))
    as (a' & Ea).
  rewrite Er. cbn [app] in *. rewrite Ea.
  assert (Hmiss : prefixb p (underscore :: lb :: r ++ b) = false).
  { destruct Hp as (body & -> & _). reflexivity. }
  rewrite replace_scan_miss by exact Hmiss.
  change (lb :: r ++ b) with ((lb :: r) ++ b). rewrite <- Er.
  rewrite replace_scan_clear by (apply clear_token; auto using inner_token).
  exists a', (replace_scan p w b 0). reflexivity.
Qed.

Lemma replace_inner_leaves_mark w s :
  damaged s -> In underscore (replace inner w s).
Proof.
  intros (a & b & ->). rewrite Segments.replace_token by apply inner_token.
  destruct inner_eq as (r & Er).
  destruct (@replace_scan_before inner w (r ++ b) a 0 inner_token
                                 (Nat.le_0_l _)) as (a' & Ea).
  rewrite Er at 2. cbn [app] in *. rewrite Ea.
  assert (Hmiss : prefixb inner (underscore :: lb :: r ++ b) = false).
  { rewrite Er. reflexivity. }
  rewrite replace_scan_miss by exact Hmiss.
  apply in_elt.
Qed.

Lemma unmask_keeps_damage m : forall s,
  (forall p w, In (p, w) m -> token p /\ p <> inner) ->
  damaged s -> damaged (unmask_text s m).
Proof.
  induction m as [|[p w] m IH]; intros s Hm Hs; [exact Hs|].
  cbn [unmask_text fold_left fst snd]. apply IH.
  - intros q v H. apply (Hm q v). now right.
  - destruct (Hm p w (or_introl eq_refl)) as [Hp Hne].
    now apply replace_keeps_damage.
Qed.

Lemma numbers_masked_damaged : damaged numbers_masked.
Proof.
  exists (masked_blocks k 1 ++ txt "[PHONE"),
         (txt "]" ++ comma :: last_literal).
  unfold numbers_masked, inner. rewrite <- !app_assoc. reflexivity.
Qed.

Lemma numbers_unmask_mark :
  In underscore (unmask_text numbers_masked numbers_table).
Proof.
  unfold numbers_table, unmask_text. rewrite fold_left_app.
  cbn [fold_left fst snd]. apply replace_inner_leaves_mark.
  apply unmask_keeps_damage; [|apply numbers_masked_damaged].
  intros p w H. apply in_app_iff in H as [H | [H | []]].
  - apply entries_in in H as (j & Hj & -> & ->). rewrite k_eq in Hj.
    split; [apply phone_token|]. unfold inner. intros E.
    apply phone_placeholder_inj in E. unfold bound in E. lia.
  - inversion H; subst. split; [apply phone_token|].
    unfold inner. intros E. apply phone_placeholder_inj in E.
    unfold bound in E. lia.
Qed.

Lemma numbers_no_mark : ~ In underscore (numbers_text k).
Proof.
  intros H. pose proof numbers_chars as G.
  rewrite forallb_forall in G. apply G in H. discriminate.
Qed.

Lemma numbers_round_trip_fails :
  unmask_text (fst (mask_text (numbers_text k)))
              (snd (mask_text (numbers_text k)))
  <> numbers_text k.
Proof.
  rewrite numbers_mask_text. cbn [fst snd]. intros E.
  apply numbers_no_mark. rewrite <- E. apply numbers_unmask_mark.
Qed.

End Numbers.

End Beyond.

(* ================================================================== *)
(** * The nearest-store scan *)

Module GeoFacts.

Import Geo.

Section Scan.

Variable F : Type.
Variable ltb : F -> F -> bool.

(** The order of the floats that are numbers: [<] is transitive, and so
    is its complement. *)
Hypothesis ltb_trans :
  forall a b c, ltb a b = true -> ltb b c = true -> ltb a c = true.
Hypothesis geb_trans :
  forall a b c, ltb a b = false -> ltb b c = false -> ltb a c = false.
Hypothesis ltb_irrefl : forall a, ltb a a = false.

Variable dist : store F -> result F.

(** The loop of [get_nearest_store_for_customer] over any distance. *)
Fixpoint scan_with (rows : list (store F)) (nearest_store : answer F)
         (min_distance : F) : result (answer F) :=
  match rows with
  | [] => Ok nearest_store
  | s :: rest =>
      distance <- dist s ;;
      if ltb distance min_distance
      then scan_with rest (StoreWith s (Computed distance)) distance
      else scan_with rest nearest_store min_distance
  end.

(** The scan returns what it was given, or a row with its distance; the
    distance returned is below the starting one, no row is below it, and
    the rows before the one returned are strictly above it. *)
Lemma scan_with_minimal rows : forall nearest m,
  (forall s, In s rows -> exists d, dist s = Ok d) ->
  exists best,
    scan_with rows nearest m = Ok best
    /\ ((best = nearest
         /\ forall s d, In s rows -> dist s = Ok d -> ltb d m = false)
        \/ exists before s after d,
             rows = before ++ s :: after
             /\ best = StoreWith s (Computed d)
             /\ dist s = Ok d
             /\ ltb d m = true
             /\ (forall s' d', In s' rows -> dist s' = Ok d' ->
                               ltb d' d = false)
             /\ (forall s' d', In s' before -> dist s' = Ok d' ->
                               ltb d d' = true)).
Proof.
  induction rows as [|s rows IH]; intros nearest m Hd.
  - exists nearest. split; [reflexivity|]. left. split; [reflexivity|].
    intros s d [].
  - destruct (Hd s (or_introl eq_refl)) as (d & Es).
    assert (Hd' : forall s', In s' rows -> exists d', dist s' = Ok d').
    { intros s' H. apply Hd. now right. }
    cbn [scan_with]. rewrite Es. cbn [bind].
    destruct (ltb d m) eqn:Hlt.
    + destruct (IH (StoreWith s (Computed d)) d Hd')
        as (best & E & [[-> Hall]
                       | (bf & s1 & af & d1 & Er & -> & E1 & L1 & Hmin & Hbf)]).
      * exists (StoreWith s (Computed d)). split; [exact E|]. right.
        exists [], s, rows, d.
        split; [reflexivity|]. split; [reflexivity|].
        split; [exact Es|]. split; [exact Hlt|]. split.
        -- intros s' d' [<- | H] E'.
           ++ rewrite Es in E'. inversion E'; subst. apply ltb_irrefl.
           ++ eapply Hall; eauto.
        -- intros s' d' [].
      * exists (StoreWith s1 (Computed d1)). split; [exact E|]. right.
        exists (s :: bf), s1, af, d1.
        split; [simpl; now rewrite Er|]. split; [reflexivity|].
        split; [exact E1|].
        split; [eapply ltb_trans; eauto|]. split.
        -- intros s' d' [<- | H] E'.
           ++ rewrite Es in E'. inversion E'; subst.
              destruct (ltb d' d1) eqn:C; [|reflexivity].
              pose proof (@ltb_trans _ _ _ C L1) as X.
              now rewrite ltb_irrefl in X.
           ++ eapply Hmin; eauto.
        -- intros s' d' [<- | H] E'.
           ++ rewrite Es in E'. inversion E'; subst. exact L1.
           ++ eapply Hbf; eauto.
    + destruct (IH nearest m Hd')
        as (best & E & [[-> Hall]
                       | (bf & s1 & af & d1 & Er & -> & E1 & L1 & Hmin & Hbf)]).
      * exists nearest. split; [exact E|]. left. split; [reflexivity|].
        intros s' d' [<- | H] E'.
        -- rewrite Es in E'. inversion E'; subst. exact Hlt.
        -- eapply Hall; eauto.
      * exists (StoreWith s1 (Computed d1)). split; [exact E|]. right.
        exists (s :: bf), s1, af, d1.
        split; [simpl; now rewrite Er|]. split; [reflexivity|].
        split; [exact E1|]. split; [exact L1|]. split.
        -- intros s' d' [<- | H] E'.
           ++ rewrite Es in E'. inversion E'; subst.
              destruct (ltb d' d1) eqn:C; [|reflexivity].
              pose proof (@ltb_trans _ _ _ C L1) as X. congruence.
           ++ eapply Hmin; eauto.
        -- intros s' d' [<- | H] E'.
           ++ rewrite Es in E'. inversion E'; subst.
              destruct (ltb d1 d') eqn:C; [reflexivity|].
              pose proof (@geb_trans _ _ _ C Hlt) as X. congruence.
           ++ eapply Hbf; eauto.
Qed.

End Scan.


Section Nearest.

Variable F : Type.
Variables fadd fsub fmul fdiv : F -> F -> F.
Variable of_int : Z -> F.
Variable radians : F -> F.
Variables sin cos sqrt : F -> option F.
Variable atan2 : F -> F -> F.
Variable square : F -> F.
Variable round1 : F -> F.
Variable ltb : F -> F -> bool.
Variable inf : F.
Variable float_truthy : F -> bool.

Hypothesis ltb_trans :
  forall a b c, ltb a b = true -> ltb b c = true -> ltb a c = true.
Hypothesis geb_trans :
  forall a b c, ltb a b = false -> ltb b c = false -> ltb a c = false.
Hypothesis ltb_irrefl : forall a, ltb a a = false.

#[local] Abbreviation distance_to :=
  (store_distance fadd fsub fmul fdiv of_int
                  radians sin cos sqrt atan2 square round1).

#[local] Abbreviation nearest :=
  (get_nearest_store_for_customer
     fadd fsub fmul fdiv of_int
     radians sin cos sqrt atan2 square round1 ltb inf float_truthy).

Lemma scan_scan_with lat lon rows : forall nearest_store m,
  scan fadd fsub fmul fdiv of_int
       radians sin cos sqrt atan2 square round1 ltb
       lat lon rows nearest_store m
  = scan_with ltb (distance_to lat lon) rows nearest_store m.
Proof.
  induction rows as [|s rows IH]; intros n m; [reflexivity|].
  cbn [scan scan_with]. destruct (distance_to lat lon s); [|reflexivity].
  cbn [bind]. now rewrite !IH.
Qed.

(** Where the origin has two non-zero coordinates and every store has a
    distance that is a number, the store returned carries its computed
    distance, no store is nearer, and the stores before it in the table
    are strictly farther. *)
Lemma nearest_store_minimal db id row lat lon :
  customer_row db id = Some row ->
  customer_latitude row = Some lat -> customer_longitude row = Some lon ->
  float_truthy lat = true -> float_truthy lon = true ->
  stores db <> [] ->
  (forall s, In s (stores db) ->
             exists d, distance_to lat lon s = Ok d /\ ltb d inf = true) ->
  exists before s after d,
    stores db = before ++ s :: after
    /\ nearest db id = Ok (StoreWith s (Computed d))
    /\ distance_to lat lon s = Ok d
    /\ (forall s' d', In s' (stores db) -> distance_to lat lon s' = Ok d' ->
                      ltb d' d = false)
    /\ (forall s' d', In s' before -> distance_to lat lon s' = Ok d' ->
                      ltb d d' = true).
Proof.
  intros Hrow Hlat Hlon Tlat Tlon Hne Hd.
  unfold get_nearest_store_for_customer.
  rewrite Hrow, Hlat, Hlon, Tlat, Tlon. cbn [negb orb].
  destruct (stores db) as [|s0 rows] eqn:Es; [congruence|].
  rewrite scan_scan_with.
  destruct (@scan_with_minimal F ltb ltb_trans geb_trans ltb_irrefl
              (distance_to lat lon) (s0 :: rows) (NoneValue F) inf)
    as (best & E & [[-> Hall]
                   | (bf & s & af & d & Er & -> & E1 & L1 & Hmin & Hbf)]).
  - intros s Hs. destruct (Hd s Hs) as (d & Ed & _). eauto.
  - exfalso. destruct (Hd s0 (or_introl eq_refl)) as (d & Ed & Hlt).
    rewrite (Hall s0 d (or_introl eq_refl) Ed) in Hlt. discriminate.
  - exists bf, s, af, d. repeat split; auto.
Qed.

(** With no store in the table the answer is the empty [dict]. *)
Lemma nearest_store_no_stores db id :
  stores db = [] -> nearest db id = Ok (EmptyDict F).
Proof.
  intros E. unfold get_nearest_store_for_customer, default_store.
  rewrite E. destruct (customer_row db id) as [row|]; [|reflexivity].
  destruct (customer_latitude row); [|reflexivity].
  destruct (customer_longitude row); [|reflexivity].
  now destruct (negb (float_truthy f) || negb (float_truthy f0)).
Qed.

End Nearest.

End GeoFacts.

(* ================================================================== *)
(** * The float operations read over the real numbers *)

(** The laws assumed of the float operations hold of the operations on
    the reals that they round. *)
Module RealModel.

Import Stdlib.Reals.Reals Stdlib.micromega.Lra.

Local Open Scope R_scope.

Definition of_int (z : Z) : R := IZR z.

Definition zero : R := of_int 0.

(** The reals have no infinity: a length above every distance on Earth
    stands for it. *)
Definition far : R := 100000000.

Definition neg : R -> R := Ropp.

Definition radians (x : R) : R := x * (PI / 180).

Definition sin (x : R) : option R := Some (Rtrigo_def.sin x).
Definition cos (x : R) : option R := Some (Rtrigo_def.cos x).

(** [math.sqrt] raises on a negative number. *)
Definition sqrt (x : R) : option R :=
  if Rle_dec 0 x then Some (R_sqrt.sqrt x) else None.

(** The angle of the point [(x, y)], away from the negative x axis. *)
Definition atan2 (y x : R) : R :=
  2 * atan (y / (R_sqrt.sqrt (x * x + y * y) + x)).

Definition square (x : R) : R := x * x.

(** To one decimal place, halves upwards. *)
Definition round1 (x : R) : R := IZR (Int_part (x * 10 + / 2)) / 10.

Definition ltb (x y : R) : bool := if Rlt_dec x y then true else false.

Definition float_truthy (x : R) : bool :=
  if Req_dec_T x 0 then false else true.

Definition distance : R -> R -> R -> R -> result R :=
  Geo.calculate_distance Rplus Rminus Rmult Rdiv of_int
                         radians sin cos sqrt atan2 square round1.

Definition nearest_store : Geo.database R -> Z -> result (Geo.answer R) :=
  Geo.get_nearest_store_for_customer
    Rplus Rminus Rmult Rdiv of_int
    radians sin cos sqrt atan2 square round1 ltb far float_truthy.

Definition shop (id : Z) (latitude longitude : R) : Geo.store R :=
  Geo.Store id (txt "Shop") (Some latitude) (Some longitude)
            (txt "1 Main St") (txt "07:00") (txt "19:00").

Lemma sub_swap a b : a - b = - (b - a) \/ a - b = b - a.
Proof. left. lra. Qed.

Lemma radians_neg x : radians (- x) = - radians x.
Proof. unfold radians. lra. Qed.

Lemma half_neg x : - x / of_int 2 = - (x / of_int 2).
Proof. unfold of_int. lra. Qed.

Lemma sin_neg x : sin (- x) = option_map Ropp (sin x).
Proof. unfold sin. simpl. now rewrite Rtrigo1.sin_neg. Qed.

Lemma square_neg x : square (- x) = square x.
Proof. unfold square. lra. Qed.

Lemma mul_comm a b : a * b = b * a.
Proof. lra. Qed.

Lemma sub_0_0 : zero - zero = zero.
Proof. unfold zero, of_int. lra. Qed.

Lemma radians_0 : radians zero = zero.
Proof. unfold radians, zero, of_int. lra. Qed.

Lemma half_0 : zero / of_int 2 = zero.
Proof. unfold zero, of_int. lra. Qed.

Lemma sin_0 : sin zero = Some zero.
Proof. unfold sin, zero, of_int. now rewrite Rtrigo_def.sin_0. Qed.

Lemma cos_0 : cos zero = Some (of_int 1).
Proof. unfold cos, zero, of_int. now rewrite Rtrigo_def.cos_0. Qed.

Lemma square_0 : square zero = zero.
Proof. unfold square, zero, of_int. lra. Qed.

Lemma mul_1_1 : of_int 1 * of_int 1 = of_int 1.
Proof. unfold of_int. lra. Qed.

Lemma mul_1_0 : of_int 1 * zero = zero.
Proof. unfold zero, of_int. lra. Qed.

Lemma add_0_0 : zero + zero = zero.
Proof. unfold zero, of_int. lra. Qed.

Lemma sqrt_0 : sqrt zero = Some zero.
Proof.
  unfold sqrt, zero, of_int. destruct (Rle_dec 0 0) as [_ | H]; [|lra].
  now rewrite R_sqrt.sqrt_0.
Qed.

Lemma sub_1_0 : of_int 1 - zero = of_int 1.
Proof. unfold zero, of_int. lra. Qed.

Lemma sqrt_1 : sqrt (of_int 1) = Some (of_int 1).
Proof.
  unfold sqrt, of_int. destruct (Rle_dec 0 1) as [_ | H]; [|lra].
  now rewrite R_sqrt.sqrt_1.
Qed.

Lemma atan2_0_1 : atan2 zero (of_int 1) = zero.
Proof.
  unfold atan2, zero, of_int.
  replace (0 / _) with 0 by (unfold Rdiv; lra).
  rewrite atan_0. lra.
Qed.

Lemma mul_2_0 : of_int 2 * zero = zero.
Proof. unfold zero, of_int. lra. Qed.

Lemma mul_radius_0 : of_int 6371000 * zero = zero.
Proof. unfold zero, of_int. lra. Qed.

Lemma round1_0 : round1 zero = zero.
Proof.
  unfold round1, zero, of_int.
  rewrite <- (Int_part_spec (0 * 10 + / 2) 0).
  - lra.
  - simpl. lra.
Qed.

Lemma float_truthy_0 : float_truthy zero = false.
Proof.
  unfold float_truthy, zero, of_int. destruct (Req_dec_T 0 0); congruence.
Qed.

End RealModel.

(* ================================================================== *)
(** * Unmasking a response that echoes one placeholder *)

Module EchoFacts.

Definition no_open (s : text) : bool :=
  forallb (fun c => negb (open_bracket c)) s.

Lemma replace_scan_no_open p w s :
  no_open s = true -> replace_scan (lb :: p) w s 0 = s.
Proof.
  intros H. rewrite <- (app_nil_r s) at 1.
  rewrite replace_scan_clear by (now apply clear_no_open).
  simpl. apply app_nil_r.
Qed.

Lemma replace_echo p w a b :
  no_open a = true -> no_open b = true ->
  replace (lb :: p) w (a ++ (lb :: p) ++ b) = a ++ w ++ b.
Proof.
  intros Ha Hb. unfold replace.
  rewrite replace_scan_clear by (now apply clear_no_open).
  rewrite replace_scan_hit by discriminate.
  now rewrite replace_scan_no_open.
Qed.

Lemma replace_absent p w s :
  no_open s = true -> replace (lb :: p) w s = s.
Proof. intros H. unfold replace. now apply replace_scan_no_open. Qed.

Lemma no_open_app a b :
  no_open a = true -> no_open b = true -> no_open (a ++ b) = true.
Proof.
  unfold no_open. intros Ha Hb. now rewrite forallb_app, Ha, Hb.
Qed.

End EchoFacts.

(* ================================================================== *)
(** * A session of [process_message] *)

(** A customer record, a store, a model that answers, and no index. *)
Module Session.

Definition not_a_string (v : value unit) : exn :=
  Exception (txt "expected string or bytes-like object").

Definition record : context unit :=
  [(txt "id", Other tt);
   (txt "name", Str (txt "Bob"));
   (txt "phone", Str (txt "555-987-6543"));
   (txt "email", Str (txt "bob@example.com"))].

Definition message : text := txt "Call me at +1-555-0101".

Definition get_customer_context (id : Z) : result (context unit) :=
  Ok record.

Definition get_nearest_store_for_customer (id : Z) : result unit := Ok tt.

Definition no_index : exn := Exception (txt "no index").

Definition rag_retrieve (q : text) (k : nat) : result (list text) :=
  Raise no_index.

Definition st_warning (s : text) : result unit := Ok tt.

Definition build_prompt (c : context unit) (s : unit) (docs : list text)
           (m : text) : result (text * text) :=
  Ok (txt "You are a retail assistant.", m).

(** A model that answers with a fixed greeting. *)
Definition greeting (system_prompt user_prompt : text) : result text :=
  Ok (txt "Hello!").

(** A model that repeats the message it was given. *)
Definition echo (system_prompt user_prompt : text) : result text :=
  Ok user_prompt.

End Session.

(* ================================================================== *)
(** * The table that [mask_text] returns *)

Module TableFacts.

(** The entries that the email loop adds for the matches [l], the first
    one numbered [i]. *)
Fixpoint email_entries (i : N) (l : list text) : dict :=
  match l with
  | [] => []
  | e :: l' => (email_placeholder i, e) :: email_entries (i + 1) l'
  end.

Lemma mem_false_iff v l : mem v l = false -> ~ In v l.
Proof.
  unfold mem. intros H Hin.
  assert (E : existsb (text_eqb v) l = true).
  { apply existsb_exists. exists v. split; [exact Hin | apply text_eqb_refl]. }
  congruence.
Qed.

Lemma values_snoc d k v : values (d ++ [(k, v)]) = values d ++ [v].
Proof. unfold values. now rewrite map_app. Qed.

(** The phone loop: keys are phone placeholders below the counter, and
    no value is entered twice. *)
Record phone_table (st : state) : Prop := {
  table_keys : forall p v, In (p, v) (mapping st) ->
      exists i, (i < phone_counter st)%N /\ p = phone_placeholder i;
  table_values : NoDup (values (mapping st))
}.

Lemma phone_step_table st v : phone_table st -> phone_table (phone_step st v).
Proof.
  intros [Hk Hv]. unfold phone_step.
  destruct (truthy (strip v)); cbn [andb]; [|now constructor].
  destruct (mem v (values (mapping st))) eqn:Hm; cbn [negb];
    [now constructor|].
  assert (Hfresh : ~ In (phone_placeholder (phone_counter st))
                        (keys (mapping st))).
  { intros H. apply in_keys in H as (w & H).
    apply Hk in H as (i & Hi & E). apply phone_placeholder_inj in E. lia. }
  rewrite dict_set_fresh by exact Hfresh.
  constructor; simpl.
  - intros p w H. apply in_app_iff in H as [H | [H | []]].
    + apply Hk in H as (i & Hi & ->). exists i. split; [lia | reflexivity].
    + inversion H; subst. exists (phone_counter st).
      split; [lia | reflexivity].
  - rewrite values_snoc. apply NoDup_snoc; [exact Hv|].
    now apply mem_false_iff.
Qed.

Lemma phones_table l : forall st,
  phone_table st -> phone_table (fold_left phone_step l st).
Proof.
  induction l as [|v l IH]; intros st H; [exact H|].
  simpl. apply IH. now apply phone_step_table.
Qed.

Lemma patterns_table rs : forall st,
  phone_table st -> phone_table (fold_left pattern_step rs st).
Proof.
  induction rs as [|r rs IH]; intros st H; [exact H|].
  simpl. apply IH. unfold pattern_step. now apply phones_table.
Qed.

Lemma mask_phones_table t : phone_table (mask_phones t).
Proof.
  apply patterns_table. constructor; simpl.
  - intros p v [].
  - constructor.
Qed.

Lemma emails_table l : forall T m i,
  (forall p v, In (p, v) m ->
     (exists j, p = phone_placeholder j)
     \/ (exists j, (j < i)%N /\ p = email_placeholder j)) ->
  mapping (fold_left email_step l (State T m i)) = m ++ email_entries i l.
Proof.
  induction l as [|e l IH]; intros T m i Hk.
  - simpl. now rewrite app_nil_r.
  - cbn [fold_left email_entries]. unfold email_step at 2.
    cbn [masked_text mapping phone_counter].
    rewrite dict_set_fresh.
    + rewrite IH; [now rewrite <- app_assoc|].
      intros p v H. apply in_app_iff in H as [H | [H | []]].
      * apply Hk in H as [H | (j & Hj & ->)]; [now left|].
        right. exists j. split; [lia | reflexivity].
      * inversion H; subst. right. exists i. split; [lia | reflexivity].
    + intros H. apply in_keys in H as (w & H).
      apply Hk in H as [(j & E) | (j & Hj & E)].
      * symmetry in E. now apply phone_not_email in E.
      * apply email_placeholder_inj in E. lia.
Qed.

End TableFacts.

(* ================================================================== *)
(** * Placeholder tokens already in the text *)

Module KeepFacts.

(** Digits, then the closing bracket, and nothing after it. *)
Fixpoint digits_close (s : text) (seen : bool) : bool :=
  match s with
  | [] => false
  | c :: s' =>
      match s' with
      | [] => is_char "]" c && seen
      | _ :: _ => is_digit c && digits_close s' true
      end
  end.

(** [tok] is a placeholder token: [[PHONE_n]] or [[EMAIL_n]]. *)
Definition is_placeholder (tok : text) : bool :=
  (prefixb (txt "[PHONE_") tok || prefixb (txt "[EMAIL_") tok)
  && digits_close (skipn 7 tok) false.

(** [s] holds an occurrence of [tok]. *)
Definition holds (tok s : text) : Prop := exists x y, s = x ++ tok ++ y.

Lemma occurs_holds tok s : occurs tok s = true <-> holds tok s.
Proof.
  split.
  - induction s as [|c s IH]; simpl; rewrite orb_true_iff.
    + intros [H | H]; [|discriminate].
      apply prefixb_iff in H as (r & E). exists [], r. exact E.
    + intros [H | H].
      * apply prefixb_iff in H as (r & E). exists [], r. exact E.
      * destruct (IH H) as (x & y & ->). exists (c :: x), y. reflexivity.
  - intros (x & y & ->). induction x as [|c x IH].
    + simpl app. destruct (tok ++ y) eqn:E; simpl; rewrite <- E;
        now rewrite prefixb_app.
    + simpl. rewrite IH. apply orb_true_r.
Qed.

Lemma digits_close_split s : forall seen,
  digits_close s seen = true ->
  exists ds, s = ds ++ [rb] /\ forallb is_digit ds = true
             /\ (seen = true \/ ds <> []).
Proof.
  induction s as [|c s IH]; intros seen H; [discriminate|].
  cbn [digits_close] in H. destruct s as [|d s].
  - apply andb_true_iff in H as [Hc Hs]. apply Ascii.eqb_eq in Hc. subst c.
    exists []. repeat split; auto.
  - apply andb_true_iff in H as [Hc H].
    apply IH in H as (ds & E & Hd & _). exists (c :: ds).
    repeat split.
    + simpl. now rewrite E.
    + simpl. now rewrite Hc.
    + right. discriminate.
Qed.

(** A placeholder token is a token; one of at most seventeen characters
    has at most nine digits. *)
Lemma is_placeholder_token tok :
  is_placeholder tok = true ->
  token tok /\ (List.length tok <= 17 -> short_token tok).
Proof.
  unfold is_placeholder. rewrite andb_true_iff, orb_true_iff.
  intros [Hp Hd].
  assert (E : exists pre ds,
             (pre = txt "PHONE_" \/ pre = txt "EMAIL_")
             /\ tok = lb :: (pre ++ ds) ++ [rb]
             /\ forallb is_digit ds = true).
  { destruct Hp as [Hp | Hp]; apply prefixb_iff in Hp as (r & ->);
      cbn [txt list_ascii_of_string app skipn] in Hd;
      apply digits_close_split in Hd as (ds & -> & Hds & _);
      [exists (txt "PHONE_"), ds | exists (txt "EMAIL_"), ds];
      (split; [auto|]); (split; [|exact Hds]);
      cbn [txt list_ascii_of_string app]; reflexivity. }
  destruct E as (pre & ds & Hpre & -> & Hds).
  assert (Hb : forallb body_char (pre ++ ds) = true).
  { rewrite forallb_app. apply andb_true_iff. split.
    - destruct Hpre as [-> | ->]; reflexivity.
    - eapply forallb_impl; [apply digit_body_char | exact Hds]. }
  split.
  - exists (pre ++ ds). auto.
  - intros Hl. exists (pre ++ ds). repeat split; auto.
    assert (Hlen : List.length ds <= 9).
    { cbn [List.length] in Hl. rewrite !length_app in Hl.
      destruct Hpre as [-> | ->]; simpl in Hl; lia. }
    destruct Hpre as [-> | ->];
      (change (short_runs (_ ++ ds)) with (short_runs ds));
      now apply short_runs_short.
Qed.

(** One [replace(literal, placeholder, 1)] leaves the token in place. *)
Lemma replace_first_keeps v p tok s :
  v <> [] -> forallb plain v = true ->
  (exists r, tok = lb :: r) -> (forall R, clear v tok R) ->
  holds tok s -> holds tok (replace_first v p s).
Proof.
  intros Hne Hv (r & Er) Hcl (x & y & ->).
  destruct (replace_first_cases v p x (tok ++ y))
    as [Hc | (a & b & E & Hl & Hr)].
  - exists x, (replace_first v p y).
    rewrite replace_first_clear by exact Hc.
    now rewrite replace_first_clear by apply Hcl.
  - rewrite Hr. apply app_align in E as (m & Ex & Em); [|lia].
    apply app_eq_app in Em as (l & [[E1 E2] | [E1 E2]]).
    + destruct l as [|c l].
      * simpl in E2. subst b. exists (a ++ p), y.
        now rewrite <- app_assoc.
      * exfalso. rewrite Er in E2. simpl in E2. inversion E2; subst c.
        rewrite E1, forallb_app in Hv.
        apply andb_true_iff in Hv as [_ Hv]. simpl in Hv. discriminate.
    + subst b. exists (a ++ p ++ l), y. now rewrite <- !app_assoc.
Qed.

Section Keep.

Variable tok : text.
Hypothesis tok_short : short_token tok.

Lemma tok_open : exists r, tok = lb :: r.
Proof. destruct tok_short as (b & -> & _). eauto. Qed.

Lemma phone_step_keeps st v :
  safe v -> holds tok (masked_text st) ->
  holds tok (masked_text (phone_step st v)).
Proof.
  intros Hv H. unfold phone_step.
  destruct (truthy (strip v) && negb (mem v (values (mapping st))));
    [|exact H].
  cbn [masked_text]. apply replace_first_keeps;
    auto using safe_nonempty, safe_plain, tok_open.
  intros R. now apply clear_safe.
Qed.

Lemma phones_keep l : Forall safe l -> forall st,
  holds tok (masked_text st) ->
  holds tok (masked_text (fold_left phone_step l st)).
Proof.
  induction 1 as [|v l Hv Hl IH]; intros st H; [exact H|].
  simpl. apply IH. now apply phone_step_keeps.
Qed.

Lemma patterns_keep rs : incl rs phone_patterns -> forall st,
  holds tok (masked_text st) ->
  holds tok (masked_text (fold_left pattern_step rs st)).
Proof.
  induction rs as [|r rs IH]; intros Hrs st H; [exact H|].
  simpl. apply IH.
  - intros x Hx. apply Hrs. now right.
  - unfold pattern_step. apply phones_keep; [|exact H].
    apply Forall_forall. intros m Hm.
    eapply phone_match_safe; [apply Hrs; now left | exact Hm].
Qed.

Lemma emails_keep l : Forall safe_special l -> forall st,
  holds tok (masked_text st) ->
  holds tok (masked_text (fold_left email_step l st)).
Proof.
  induction 1 as [|v l Hv Hl IH]; intros st H; [exact H|].
  simpl. apply IH. unfold email_step. cbn [masked_text].
  apply replace_first_keeps; auto using tok_open.
  - apply safe_nonempty. now left.
  - apply Hv.
  - intros R. apply clear_safe_special; auto using short_token_token.
Qed.

Lemma mask_text_keeps t :
  holds tok t -> holds tok (fst (mask_text t)).
Proof.
  intros H. unfold mask_text, mask_emails. cbn [fst].
  apply emails_keep.
  - apply Forall_forall. intros m Hm. eapply email_match_safe; eauto.
  - cbn [masked_text]. apply patterns_keep; [apply incl_refl | exact H].
Qed.

End Keep.

End KeepFacts.

(* ================================================================== *)
(** * How many phone placeholders a text of a given length can get *)

Module SizeFacts.

Import RoundTrip.

(** The least number of characters of a match of a pattern. *)
Fixpoint least (r : regex) : nat :=
  match r with
  | [] => 0
  | Boundary :: r' => least r'
  | Rep _ lo _ :: r' => lo + least r'
  end.

Lemma shape_least r : forall m, shape r m -> least r <= List.length m.
Proof.
  induction r as [|[set lo hi|] r IH]; intros m H; cbn [shape least] in *.
  - subst m. simpl. lia.
  - destruct H as (m1 & m2 & -> & _ & Hlo & _ & Hs).
    apply IH in Hs. rewrite length_app. lia.
  - now apply IH.
Qed.

(** A phone number has nine characters or more. *)
Lemma phone_least r : In r phone_patterns -> 9 <= least r.
Proof.
  unfold phone_patterns.
  intros [<- | [<- | [<- | [<- | [<- | []]]]]]; simpl; lia.
Qed.

Lemma match_here_length r prev s m :
  match_here r prev s = Some m ->
  least r <= List.length m <= List.length s.
Proof.
  intros H. split.
  - apply shape_least. eapply match_here_shape; eauto.
  - unfold match_here in H.
    destruct (match_items r prev s) as [rest|]; [|discriminate].
    inversion H; subst m. rewrite length_firstn. lia.
Qed.

(** The matches do not overlap: nine characters of the text for each. *)
Lemma findall_scan_count r : 9 <= least r -> forall s prev skip,
  9 * List.length (findall_scan r prev s skip) <= List.length s - skip.
Proof.
  intros Hr. induction s as [|c s IH]; intros prev skip.
  - destruct skip; cbn [findall_scan]; [|simpl; lia].
    destruct (match_here r prev []) as [m|] eqn:E; [|simpl; lia].
    apply match_here_length in E. simpl in E. lia.
  - destruct skip; cbn [findall_scan].
    + destruct (match_here r prev (c :: s)) as [m|] eqn:E.
      * apply match_here_length in E. cbn [List.length] in *.
        specialize (IH (Some c) (List.length m - 1)). lia.
      * specialize (IH (Some c) 0). cbn [List.length]. lia.
    + specialize (IH (Some c) skip). cbn [List.length]. lia.
Qed.

Lemma findall_count r s :
  In r phone_patterns -> 9 * List.length (findall r s) <= List.length s.
Proof.
  intros H. pose proof (@findall_scan_count r (@phone_least r H) s None 0).
  unfold findall. lia.
Qed.

Lemma findall_long r s :
  In r phone_patterns ->
  Forall (fun v => 9 <= List.length v) (findall r s).
Proof.
  intros H. apply Forall_forall. intros v Hv.
  apply findall_shape, shape_least in Hv.
  pose proof (@phone_least r H). lia.
Qed.

(** [s.replace(old, new, 1)] is no longer than [s] by more than what
    [new] has over [old]. *)
Lemma replace_first_length old new : forall s,
  List.length (replace_first old new s)
  <= List.length s + (List.length new - List.length old).
Proof.
  induction s as [|c s IH]; cbn [replace_first].
  - destruct (prefixb old []) eqn:E; [|simpl; lia].
    apply prefixb_iff in E as [r E].
    apply (f_equal (@List.length ascii)) in E.
    rewrite !length_app, length_skipn in *. simpl in *. lia.
  - destruct (prefixb old (c :: s)) eqn:E.
    + apply prefixb_iff in E as [r E].
      apply (f_equal (@List.length ascii)) in E.
      rewrite !length_app, length_skipn in *. lia.
    + cbn [List.length]. lia.
Qed.

Lemma phone_placeholder_short n :
  (n < bound)%N -> List.length (phone_placeholder n) <= 17.
Proof.
  intros H. apply str_of_int_short in H.
  unfold phone_placeholder. rewrite !length_app. simpl. lia.
Qed.

(** One turn of the loop over the matches: one placeholder at most, and
    at most eight characters more. *)
Lemma phone_step_size st v :
  9 <= List.length v -> (phone_counter st < bound)%N ->
  (phone_counter (phone_step st v) <= phone_counter st + 1)%N
  /\ List.length (masked_text (phone_step st v))
     <= List.length (masked_text st) + 8.
Proof.
  intros Hv Hc. unfold phone_step.
  destruct (truthy (strip v) && negb (mem v (values (mapping st))));
    cbn [phone_counter masked_text]; [|lia].
  pose proof (@replace_first_length
                v (phone_placeholder (phone_counter st)) (masked_text st)).
  pose proof (@phone_placeholder_short (phone_counter st) Hc). lia.
Qed.

Lemma phones_size l : forall st,
  Forall (fun v => 9 <= List.length v) l ->
  (phone_counter st + N.of_nat (List.length l) <= bound)%N ->
  (phone_counter (fold_left phone_step l st)
   <= phone_counter st + N.of_nat (List.length l))%N
  /\ List.length (masked_text (fold_left phone_step l st))
     <= List.length (masked_text st) + 8 * List.length l.
Proof.
  induction l as [|v l IH]; intros st Hl Hc; cbn [fold_left List.length].
  - lia.
  - inversion Hl as [|? ? Hv Hl']; subst.
    cbn [List.length] in Hc. unfold bound in *.
    destruct (@phone_step_size st v Hv) as [H1 H2]; [unfold bound; lia|].
    destruct (IH (phone_step st v) Hl') as [H3 H4]; lia.
Qed.

(** One pattern: a placeholder for every nine characters at most, and a
    text at most twice as long. *)
Lemma pattern_step_size st r :
  In r phone_patterns ->
  (9 * phone_counter st + N.of_nat (List.length (masked_text st))
   <= 9 * bound)%N ->
  (9 * phone_counter (pattern_step st r)
   <= 9 * phone_counter st + N.of_nat (List.length (masked_text st)))%N
  /\ List.length (masked_text (pattern_step st r))
     <= 2 * List.length (masked_text st).
Proof.
  intros Hr Hc. unfold pattern_step.
  pose proof (@findall_count r (masked_text st) Hr) as Hn.
  unfold bound in *.
  destruct (@phones_size (findall r (masked_text st)) st
                         (@findall_long r (masked_text st) Hr)) as [H1 H2];
    unfold bound, text in *; lia.
Qed.

(** A text of up to 250 million characters gets fewer than 10^9 phone
    placeholders. *)
Lemma short_text_few_phones (t : text) :
  (N.of_nat (List.length t) <= 250000000)%N ->
  (phones_assigned t < 1000000000)%N.
Proof.
  intros Hl. unfold phones_assigned, mask_phones, phone_patterns.
  cbn [fold_left].
  set (s0 := State t [] 1).
  assert (H0 : phone_counter s0 = 1%N /\ masked_text s0 = t)
    by (split; reflexivity).
  destruct H0 as [C0 T0].
  destruct (@pattern_step_size s0 phone_intl_short) as [C1 L1];
    [unfold phone_patterns; simpl; tauto
    | unfold bound; rewrite C0, T0; lia |].
  set (s1 := pattern_step s0 phone_intl_short) in *.
  rewrite C0, T0 in *.
  destruct (@pattern_step_size s1 phone_intl_area) as [C2 L2];
    [unfold phone_patterns; simpl; tauto | unfold bound; lia |].
  set (s2 := pattern_step s1 phone_intl_area) in *.
  destruct (@pattern_step_size s2 phone_paren) as [C3 L3];
    [unfold phone_patterns; simpl; tauto | unfold bound; lia |].
  set (s3 := pattern_step s2 phone_paren) in *.
  destruct (@pattern_step_size s3 phone_sep) as [C4 L4];
    [unfold phone_patterns; simpl; tauto | unfold bound; lia |].
  set (s4 := pattern_step s3 phone_sep) in *.
  destruct (@pattern_step_size s4 phone_bare) as [C5 L5];
    [unfold phone_patterns; simpl; tauto | unfold bound; lia |].
  lia.
Qed.

End SizeFacts.

(* ================================================================== *)
(** * The properties of the specification *)

(* ------------------------------------------------------------------ *)
(** ** Masking and unmasking *)

(** C1.  Round trip of [mask_text] and [unmask_text]: a text without a
    placeholder-shaped substring, to which masking hands out fewer than
    10^9 phone placeholders, comes back unchanged when its masked form is
    unmasked with its own table.  Every text of up to 250 million
    characters is such a text ([SizeFacts.short_text_few_phones]); one
    that is not holds 10^9 different phone numbers, nine characters or
    more each. *)
Theorem round_trip_below_bound (t : text) :
  has_placeholder t = false ->
  (phones_assigned t < 1000000000)%N ->
  unmask_text (fst (mask_text t)) (snd (mask_text t)) = t.
Proof.
  intros Hfree Hb. unfold mask_text. cbn [fst snd].
  apply email_inv_round_trip; [|exact Hfree].
  apply mask_emails_inv, mask_phones_inv.
  unfold phones_assigned in Hb. unfold bound. lia.
Qed.

Lemma round_trip_below_bound_witness :
  unmask_text
    (fst (mask_text (txt "Call (555) 123-4567 or 5551234567, a.b@c.org!")))
    (snd (mask_text (txt "Call (555) 123-4567 or 5551234567, a.b@c.org!")))
  = txt "Call (555) 123-4567 or 5551234567, a.b@c.org!".
Proof.
  apply round_trip_below_bound; vm_compute; reflexivity.
Defined.

(** The bound on the placeholders cannot be dropped from the statement
    above: on the text of the numbers 1000000001, ..., 2000000000,
    1000000000, some 10^10 characters without a placeholder-shaped
    substring, [replace] with a count of one puts the last placeholder
    inside an earlier one, and unmasking the masked text with its own
    table does not give the text back. *)
Lemma round_trip_fails_beyond_bound :
  has_placeholder Beyond.giant = false
  /\ unmask_text (fst (mask_text Beyond.giant)) (snd (mask_text Beyond.giant))
     <> Beyond.giant.
Proof.
  split.
  - apply Beyond.numbers_free.
  - apply Beyond.numbers_round_trip_fails, Beyond.many_eq.
Qed.

(** C2.  The end-to-end scenario: the message is masked to the stated
    text and table, and the model response is unmasked with that table
    to the stated text. *)
Theorem scenario_end_to_end :
  mask_text (txt "Call me at +1-555-0101 or email alice@example.com")
  = (txt "Call me at [PHONE_1] or email [EMAIL_1]",
     [(txt "[PHONE_1]", txt "+1-555-0101");
      (txt "[EMAIL_1]", txt "alice@example.com")])
  /\ unmask_text (txt "Sure, we'll contact you at [PHONE_1].")
       [(txt "[PHONE_1]", txt "+1-555-0101");
        (txt "[EMAIL_1]", txt "alice@example.com")]
     = txt "Sure, we'll contact you at +1-555-0101.".
Proof. split; vm_compute; reflexivity. Qed.

(** The table that [mask_text] returns: no phone number is the value of
    two keys, the keys of the phone numbers are phone placeholders, and
    after them every match of the email pattern, in order, has a key
    [[EMAIL_i]] of its own. *)
Theorem table_of_mask_text (t : text) :
  NoDup (values (mapping (mask_phones t)))
  /\ (forall p v, In (p, v) (mapping (mask_phones t)) ->
                  exists i, p = phone_placeholder i)
  /\ snd (mask_text t)
     = mapping (mask_phones t)
       ++ TableFacts.email_entries
            1 (findall email_pattern (masked_text (mask_phones t))).
Proof.
  destruct (TableFacts.mask_phones_table t) as [Hk Hv].
  split; [exact Hv|]. split.
  - intros p v H. apply Hk in H as (i & _ & E). eauto.
  - unfold mask_text, mask_emails. cbn [snd].
    apply TableFacts.emails_table.
    intros p v H. left. apply Hk in H as (i & _ & E). eauto.
Qed.

(** C3.  What [mask_text] does with a repeated value.  Of a phone
    number written twice, the first occurrence is replaced by
    [[PHONE_1]] and the second is skipped as already masked, though
    [replace] with a count of one has left it in the text: the number is
    still in the masked text.  Of an email address written twice, each
    occurrence gets a placeholder of its own, the loop over the emails
    having no test of the table: the address is the value of two
    keys. *)
Lemma repeated_literals_not_reused :
  mask_text (txt "555-123-4567 or 555-123-4567")
  = (txt "[PHONE_1] or 555-123-4567",
     [(txt "[PHONE_1]", txt "555-123-4567")])
  /\ occurs (txt "555-123-4567")
            (fst (mask_text (txt "555-123-4567 or 555-123-4567"))) = true
  /\ mask_text (txt "a@b.co and a@b.co")
     = (txt "[EMAIL_1] and [EMAIL_2]",
        [(txt "[EMAIL_1]", txt "a@b.co"); (txt "[EMAIL_2]", txt "a@b.co")])
  /\ dict_get (snd (mask_text (txt "a@b.co and a@b.co"))) (txt "[EMAIL_1]")
     = dict_get (snd (mask_text (txt "a@b.co and a@b.co"))) (txt "[EMAIL_2]").
Proof. repeat split; vm_compute; reflexivity. Qed.

(** A placeholder token of the text whose number has at most nine
    digits (a token of at most seventeen characters) is still in the
    masked text. *)
Theorem short_placeholder_tokens_kept (t tok : text) :
  KeepFacts.is_placeholder tok = true ->
  List.length tok <= 17 ->
  occurs tok t = true ->
  occurs tok (fst (mask_text t)) = true.
Proof.
  intros Hp Hl Ho. apply KeepFacts.occurs_holds.
  apply KeepFacts.mask_text_keeps.
  - now apply KeepFacts.is_placeholder_token.
  - now apply KeepFacts.occurs_holds.
Qed.

Lemma short_placeholder_tokens_kept_witness :
  occurs (txt "[EMAIL_12]")
         (fst (mask_text
                 (txt "See [EMAIL_12], call 5551234567 or a.b@c.org")))
  = true.
Proof.
  apply short_placeholder_tokens_kept.
  - reflexivity.
  - simpl. lia.
  - reflexivity.
Defined.

(** C5.  What [mask_text] does with a placeholder token whose number is
    a ten-digit phone number found later in the text.  The pattern
    matches the number at the end, and [replace] with a count of one
    rewrites its first occurrence, the one inside the token: the token
    [[PHONE_5551234567]] is in the text and not in the masked text, and
    the number that was matched is still there. *)
Lemma placeholder_token_altered :
  let t := txt "[PHONE_5551234567] call 5551234567" in
  let token := txt "[PHONE_5551234567]" in
  KeepFacts.is_placeholder token = true
  /\ occurs token t = true
  /\ fst (mask_text t) = txt "[PHONE_[PHONE_1]] call 5551234567"
  /\ occurs token (fst (mask_text t)) = false.
Proof. repeat split; vm_compute; reflexivity. Qed.

(* ------------------------------------------------------------------ *)
(** ** Distance and nearest store *)

Section GeoClaims.

Variable F : Type.
Variables fadd fsub fmul fdiv : F -> F -> F.
Variable fneg : F -> F.
Variable of_int : Z -> F.
Variable radians : F -> F.
Variables sin cos sqrt : F -> option F.
Variable atan2 : F -> F -> F.
Variable square : F -> F.
Variable round1 : F -> F.
Variable ltb : F -> F -> bool.
Variable inf : F.
Variable float_truthy : F -> bool.

#[local] Abbreviation distance :=
  (Geo.calculate_distance fadd fsub fmul fdiv of_int
                          radians sin cos sqrt atan2 square round1).

#[local] Abbreviation nearest_store :=
  (Geo.get_nearest_store_for_customer
     fadd fsub fmul fdiv of_int
     radians sin cos sqrt atan2 square round1 ltb inf float_truthy).

(** What IEEE 754 arithmetic and the C library give for the operations:
    [b - a] is the negation of [a - b], or both are the same zero;
    scaling and halving commute with negation; the sine is odd; a square
    does not see the sign; the product commutes. *)
Hypothesis sub_swap :
  forall a b, fsub a b = fneg (fsub b a) \/ fsub a b = fsub b a.
Hypothesis radians_neg : forall x, radians (fneg x) = fneg (radians x).
Hypothesis half_neg :
  forall x, fdiv (fneg x) (of_int 2) = fneg (fdiv x (of_int 2)).
Hypothesis sin_neg : forall x, sin (fneg x) = option_map fneg (sin x).
Hypothesis square_neg : forall x, square (fneg x) = square x.
Hypothesis mul_comm : forall a b, fmul a b = fmul b a.

(** The values of the operations on the zeros and ones of the origin. *)
Hypothesis sub_0_0 : fsub (of_int 0) (of_int 0) = of_int 0.
Hypothesis radians_0 : radians (of_int 0) = of_int 0.
Hypothesis half_0 : fdiv (of_int 0) (of_int 2) = of_int 0.
Hypothesis sin_0 : sin (of_int 0) = Some (of_int 0).
Hypothesis cos_0 : cos (of_int 0) = Some (of_int 1).
Hypothesis square_0 : square (of_int 0) = of_int 0.
Hypothesis mul_1_1 : fmul (of_int 1) (of_int 1) = of_int 1.
Hypothesis mul_1_0 : fmul (of_int 1) (of_int 0) = of_int 0.
Hypothesis add_0_0 : fadd (of_int 0) (of_int 0) = of_int 0.
Hypothesis sqrt_0 : sqrt (of_int 0) = Some (of_int 0).
Hypothesis sub_1_0 : fsub (of_int 1) (of_int 0) = of_int 1.
Hypothesis sqrt_1 : sqrt (of_int 1) = Some (of_int 1).
Hypothesis atan2_0_1 : atan2 (of_int 0) (of_int 1) = of_int 0.
Hypothesis mul_2_0 : fmul (of_int 2) (of_int 0) = of_int 0.
Hypothesis mul_radius_0 : fmul (of_int 6371000) (of_int 0) = of_int 0.
Hypothesis round1_0 : round1 (of_int 0) = of_int 0.

(** C7.  [calculate_distance] gives the same result, value or exception,
    when the two points are exchanged, and the distance from the origin
    to itself is zero. *)
Theorem calculate_distance_symmetric :
  (forall lat1 lon1 lat2 lon2,
      distance lat1 lon1 lat2 lon2 = distance lat2 lon2 lat1 lon1)
  /\ distance (of_int 0) (of_int 0) (of_int 0) (of_int 0) = Ok (of_int 0).
Proof.
  assert (half_sin : forall a b,
             sin (fdiv (radians (fsub a b)) (of_int 2))
             = sin (fdiv (radians (fsub b a)) (of_int 2))
             \/ sin (fdiv (radians (fsub a b)) (of_int 2))
                = option_map fneg
                    (sin (fdiv (radians (fsub b a)) (of_int 2)))).
  { intros a b. destruct (sub_swap a b) as [E | E]; rewrite E.
    - right. now rewrite radians_neg, half_neg, sin_neg.
    - now left. }
  split.
  - intros lat1 lon1 lat2 lon2. unfold Geo.calculate_distance. cbv zeta.
    destruct (half_sin lat1 lat2) as [E1 | E1];
      destruct (half_sin lon1 lon2) as [E2 | E2];
      rewrite E1, E2;
      destruct (sin (fdiv (radians (fsub lat2 lat1)) (of_int 2))) as [s1|];
      try reflexivity;
      destruct (cos (radians lat1)) as [c1|];
      destruct (cos (radians lat2)) as [c2|];
      try reflexivity;
      destruct (sin (fdiv (radians (fsub lon2 lon1)) (of_int 2))) as [s2|];
      try reflexivity;
      cbn [Geo.math bind option_map];
      rewrite ?square_neg, (mul_comm c2 c1); reflexivity.
  - unfold Geo.calculate_distance. cbv zeta.
    rewrite sub_0_0, radians_0, half_0, sin_0, cos_0. cbn [Geo.math bind].
    rewrite square_0, mul_1_1, mul_1_0, add_0_0, sqrt_0. cbn [Geo.math bind].
    rewrite sub_1_0, sqrt_1. cbn [Geo.math bind].
    now rewrite atan2_0_1, mul_2_0, mul_radius_0, round1_0.
Qed.

(** C8.  When the customer row is missing or a coordinate is [NULL], the
    call returns, and what it returns is the default store: the first
    row of [stores] with [distance_m] 50. *)
Theorem absent_origin_default_store (db : Geo.database F) (id : Z) :
  Geo.origin_absent db id ->
  nearest_store db id = Ok (Geo.default_store db)
  /\ forall s rest,
       Geo.stores db = s :: rest ->
       Geo.default_store db = Geo.StoreWith s (Geo.Sentinel F 50).
Proof.
  intros H. split.
  - unfold Geo.get_nearest_store_for_customer, Geo.origin_absent in *.
    destruct (Geo.customer_row db id) as [row|]; [|reflexivity].
    destruct H as [-> | H]; [reflexivity|].
    rewrite H. now destruct (Geo.customer_latitude row).
  - intros s rest E. unfold Geo.default_store. now rewrite E.
Qed.

(** C6.  A customer on the equator: the latitude 0.0 is a number, and
    the guard takes it for a missing one.  The first store comes back
    with the sentinel 50, whatever the distances to the stores are. *)
Theorem zero_latitude_skips_the_scan
        (zero lon : F) (first second : Geo.store F) :
  float_truthy zero = false ->
  nearest_store
    (Geo.Database [Geo.Customer 1 (Some zero) (Some lon)] [first; second]) 1
  = Ok (Geo.StoreWith first (Geo.Sentinel F 50)).
Proof.
  intros H. unfold Geo.get_nearest_store_for_customer.
  cbn. now rewrite H.
Qed.

End GeoClaims.

Lemma calculate_distance_symmetric_witness :
  (forall lat1 lon1 lat2 lon2,
      RealModel.distance lat1 lon1 lat2 lon2
      = RealModel.distance lat2 lon2 lat1 lon1)
  /\ RealModel.distance RealModel.zero RealModel.zero
                         RealModel.zero RealModel.zero
     = Ok RealModel.zero.
Proof.
  apply (@calculate_distance_symmetric _ _ _ _ _ RealModel.neg).
  - apply RealModel.sub_swap.
  - apply RealModel.radians_neg.
  - apply RealModel.half_neg.
  - apply RealModel.sin_neg.
  - apply RealModel.square_neg.
  - apply RealModel.mul_comm.
  - apply RealModel.sub_0_0.
  - apply RealModel.radians_0.
  - apply RealModel.half_0.
  - apply RealModel.sin_0.
  - apply RealModel.cos_0.
  - apply RealModel.square_0.
  - apply RealModel.mul_1_1.
  - apply RealModel.mul_1_0.
  - apply RealModel.add_0_0.
  - apply RealModel.sqrt_0.
  - apply RealModel.sub_1_0.
  - apply RealModel.sqrt_1.
  - apply RealModel.atan2_0_1.
  - apply RealModel.mul_2_0.
  - apply RealModel.mul_radius_0.
  - apply RealModel.round1_0.
Defined.

Lemma absent_origin_default_store_witness :
  let first := RealModel.shop 1 (RealModel.of_int 40) (RealModel.of_int 74) in
  let second := RealModel.shop 2 (RealModel.of_int 41) (RealModel.of_int 73) in
  let db := Geo.Database [Geo.Customer 7 None (Some (RealModel.of_int 74))]
                         [first; second] in
  RealModel.nearest_store db 7 = Ok (Geo.default_store db)
  /\ forall s rest,
       Geo.stores db = s :: rest ->
       Geo.default_store db
       = Geo.StoreWith s (Geo.Sentinel _ 50).
Proof.
  intros first second db.
  apply absent_origin_default_store. simpl. left. reflexivity.
Defined.

Lemma zero_latitude_skips_the_scan_witness :
  let first := RealModel.shop 1 (RealModel.of_int 40) (RealModel.of_int 74) in
  let second := RealModel.shop 2 (RealModel.of_int 1) (RealModel.of_int 74) in
  RealModel.nearest_store
    (Geo.Database
       [Geo.Customer 1 (Some RealModel.zero) (Some (RealModel.of_int 74))]
       [first; second]) 1
  = Ok (Geo.StoreWith first (Geo.Sentinel _ 50)).
Proof.
  intros first second.
  apply zero_latitude_skips_the_scan, RealModel.float_truthy_0.
Defined.

(* ------------------------------------------------------------------ *)
(** ** Retrieval *)

Section RagClaims.

Variable collection : Type.
Variable embedding : Type.
Variable get_collection : text -> result collection.
Variable encode : text -> result embedding.
Variable query :
  collection -> embedding -> nat -> result (option (list (list text))).

(** C9.  When the collection cannot be loaded, for whatever reason,
    [retrieve] returns the empty list for every query and every [k]. *)
Theorem retrieve_without_collection (query_text : text) (k : nat) (e : exn) :
  get_collection Rag.collection_name = Raise e ->
  Rag.retrieve get_collection encode query query_text k = Ok [].
Proof. intros H. unfold Rag.retrieve. now rewrite H. Qed.

End RagClaims.

Lemma retrieve_without_collection_witness :
  Rag.retrieve
    (fun _ => @Raise unit
       (Exception (txt "Collection retail_knowledge does not exist.")))
    (fun _ => @Ok unit tt)
    (fun _ _ _ => Ok (Some [[txt "Our hot drinks"]]))
    (txt "What hot drinks do you have?") 2
  = Ok [].
Proof.
  apply (@retrieve_without_collection unit unit _ _ _ _ _
           (Exception (txt "Collection retail_knowledge does not exist."))).
  reflexivity.
Defined.

(* ------------------------------------------------------------------ *)
(** ** [process_message] *)

Section AppClaims.

Variable A : Type.
Variable store_context : Type.
Variable not_a_string : value A -> exn.
Variable get_customer_context : Z -> result (context A).
Variable get_nearest_store_for_customer : Z -> result store_context.
Variable rag_retrieve : text -> nat -> result (list text).
Variable st_warning : text -> result unit.
Variable call_llm_with_system : text -> text -> result text.
Variable build_prompt :
  context A -> store_context -> list text -> text -> result (text * text).

#[local] Abbreviation process :=
  (App.process_message not_a_string get_customer_context
     get_nearest_store_for_customer rag_retrieve st_warning
     call_llm_with_system build_prompt).

#[local] Abbreviation documents :=
  (App.retrieve_documents rag_retrieve st_warning).

(** C10, as the code has it.  [process_message] always returns a text.
    An exception of the record lookup, of the store lookup, of the
    masking of the record, of [build_prompt] or of the model call comes
    back as the apology for that exception.  An exception of the
    retrieval is caught by the inner handler: after the warning the
    message is processed with no documents; only an exception of the
    warning itself comes back as an apology.  When nothing raises, the
    unmasked response comes back. *)
Theorem process_message_total (user_message : text) (id : Z) :
  let masked_message := fst (mask_text user_message) in
  (exists s, process user_message id = Ok s)
  /\ (forall e,
        get_customer_context id = Raise e ->
        process user_message id = Ok (App.apology e))
  /\ (forall ctx e,
        get_customer_context id = Ok ctx ->
        get_nearest_store_for_customer id = Raise e ->
        process user_message id = Ok (App.apology e))
  /\ (forall ctx st e,
        get_customer_context id = Ok ctx ->
        get_nearest_store_for_customer id = Ok st ->
        mask_customer_context not_a_string ctx = Raise e ->
        process user_message id = Ok (App.apology e))
  /\ (forall e,
        rag_retrieve masked_message App.TOP_K_RAG = Raise e ->
        st_warning (txt "RAG retrieval unavailable: " ++ message_of e)
        = Ok tt ->
        documents masked_message = Ok [])
  /\ (forall ctx st mc e,
        get_customer_context id = Ok ctx ->
        get_nearest_store_for_customer id = Ok st ->
        mask_customer_context not_a_string ctx = Ok mc ->
        documents masked_message = Raise e ->
        process user_message id = Ok (App.apology e))
  /\ (forall ctx st mc docs e,
        get_customer_context id = Ok ctx ->
        get_nearest_store_for_customer id = Ok st ->
        mask_customer_context not_a_string ctx = Ok mc ->
        documents masked_message = Ok docs ->
        build_prompt (fst mc) st docs masked_message = Raise e ->
        process user_message id = Ok (App.apology e))
  /\ (forall ctx st mc docs prompts e,
        get_customer_context id = Ok ctx ->
        get_nearest_store_for_customer id = Ok st ->
        mask_customer_context not_a_string ctx = Ok mc ->
        documents masked_message = Ok docs ->
        build_prompt (fst mc) st docs masked_message = Ok prompts ->
        call_llm_with_system (fst prompts) (snd prompts) = Raise e ->
        process user_message id = Ok (App.apology e))
  /\ (forall ctx st mc docs prompts response,
        get_customer_context id = Ok ctx ->
        get_nearest_store_for_customer id = Ok st ->
        mask_customer_context not_a_string ctx = Ok mc ->
        documents masked_message = Ok docs ->
        build_prompt (fst mc) st docs masked_message = Ok prompts ->
        call_llm_with_system (fst prompts) (snd prompts) = Ok response ->
        process user_message id
        = Ok (unmask_text response
                (App.merged_mapping (snd (mask_text user_message))
                                    (snd mc)))).
Proof.
  intros masked_message.
  unfold App.process_message, App.process_message_body.
  fold masked_message.
  repeat split.
  - destruct (get_customer_context id); cbn [bind try_except]; eauto.
    destruct (get_nearest_store_for_customer id); cbn [bind try_except];
      eauto.
    destruct (mask_customer_context not_a_string a);
      cbn [bind try_except]; eauto.
    destruct (documents masked_message); cbn [bind try_except]; eauto.
    destruct (build_prompt (fst a1) a0 a2 masked_message);
      cbn [bind try_except]; eauto.
    destruct (call_llm_with_system (fst a3) (snd a3));
      cbn [bind try_except]; eauto.
  - intros e ->. reflexivity.
  - intros ctx e -> ->. reflexivity.
  - intros ctx st e -> -> H. cbn [bind]. rewrite H. reflexivity.
  - intros e H W. unfold App.retrieve_documents. rewrite H.
    cbn [try_except]. rewrite W. reflexivity.
  - intros ctx st mc e -> -> H D. cbn [bind]. rewrite H. cbn [bind].
    rewrite D. reflexivity.
  - intros ctx st mc docs e -> -> H D B. cbn [bind]. rewrite H. cbn [bind].
    rewrite D. cbn [bind]. rewrite B. reflexivity.
  - intros ctx st mc docs prompts e -> -> H D B L. cbn [bind]. rewrite H.
    cbn [bind]. rewrite D. cbn [bind]. rewrite B. cbn [bind]. rewrite L.
    reflexivity.
  - intros ctx st mc docs prompts response -> -> H D B L. cbn [bind].
    rewrite H. cbn [bind]. rewrite D. cbn [bind]. rewrite B. cbn [bind].
    rewrite L. reflexivity.
Qed.

End AppClaims.

(** An exception of the retrieval does not come back as an apology: with
    no index and a model that answers, the answer comes back. *)
Lemma retrieval_failure_is_not_an_apology :
  Session.rag_retrieve (fst (mask_text Session.message)) App.TOP_K_RAG
  = Raise Session.no_index
  /\ App.process_message
       Session.not_a_string Session.get_customer_context
       Session.get_nearest_store_for_customer Session.rag_retrieve
       Session.st_warning Session.greeting Session.build_prompt
       Session.message 1
     = Ok (txt "Hello!")
  /\ txt "Hello!" <> App.apology Session.no_index.
Proof.
  split; [reflexivity|]. split; [vm_compute; reflexivity|].
  vm_compute. discriminate.
Qed.

(** C4.  A message and a customer record, with different phone numbers,
    whose tables both use the key [[PHONE_1]]: the merged table of
    [process_message] gives that key the phone of the record; unmasking
    the masked message, or any response around [[PHONE_1]], writes the
    phone of the record where the message had its own; and with a model
    that repeats the message, [process_message] returns the message with
    the phone of the record. *)
Theorem merged_table_restores_record_phone :
  exists (message : text) (record masked_record : context unit)
         (customer_mapping : dict),
    let table :=
      App.merged_mapping (snd (mask_text message)) customer_mapping in
    occurs (txt "+1-555-0101") message = true
    /\ context_get record (txt "phone") = Some (Str (txt "555-987-6543"))
    /\ mask_customer_context Session.not_a_string record
       = Ok (masked_record, customer_mapping)
    /\ dict_get (snd (mask_text message)) (txt "[PHONE_1]")
       = Some (txt "+1-555-0101")
    /\ dict_get customer_mapping (txt "[PHONE_1]")
       = Some (txt "555-987-6543")
    /\ dict_get table (txt "[PHONE_1]") = Some (txt "555-987-6543")
    /\ unmask_text (fst (mask_text message)) table
       = txt "Call me at 555-987-6543"
    /\ unmask_text (fst (mask_text message)) table <> message
    /\ (forall a b,
          EchoFacts.no_open a = true -> EchoFacts.no_open b = true ->
          unmask_text (a ++ txt "[PHONE_1]" ++ b) table
          = a ++ txt "555-987-6543" ++ b)
    /\ App.process_message
         Session.not_a_string (fun _ => Ok record)
         Session.get_nearest_store_for_customer Session.rag_retrieve
         Session.st_warning Session.echo Session.build_prompt
         message 1
       = Ok (txt "Call me at 555-987-6543").
Proof.
  exists Session.message, Session.record.
  exists [(txt "id", Other tt);
          (txt "name", Str (txt "Bob"));
          (txt "phone", Str (txt "[PHONE_1]"));
          (txt "email", Str (txt "[EMAIL_1]"))].
  exists [(txt "[PHONE_1]", txt "555-987-6543");
          (txt "[EMAIL_1]", txt "bob@example.com")].
  intros table.
  assert (T : table = [(txt "[PHONE_1]", txt "555-987-6543");
                       (txt "[EMAIL_1]", txt "bob@example.com")])
    by (vm_compute; reflexivity).
  repeat split; try (vm_compute; reflexivity).
  - vm_compute. discriminate.
  - intros a b Ha Hb. rewrite T. cbn [unmask_text fold_left fst snd].
    change (txt "[PHONE_1]") with (lb :: txt "PHONE_1]").
    change (txt "[EMAIL_1]") with (lb :: txt "EMAIL_1]").
    rewrite EchoFacts.replace_echo by assumption.
    apply EchoFacts.replace_absent.
    apply EchoFacts.no_open_app; [exact Ha|].
    apply EchoFacts.no_open_app; [reflexivity | exact Hb].
Qed.

(* ================================================================== *)
(** * Texts that the patterns cannot match *)

Module CleanFacts.

(** A match at a position is a prefix of the text there. *)
Lemma match_here_is_prefix r prev s m :
  match_here r prev s = Some m -> exists rest, s = m ++ rest.
Proof.
  unfold match_here.
  destruct (match_items r prev s) as [rest|]; [|discriminate].
  intros E. inversion E; subst m; clear E.
  exists (skipn (List.length s - List.length rest) s).
  symmetry. apply firstn_skipn.
Qed.

(** The characters of a match are characters of the text. *)
Lemma findall_scan_chars r s : forall prev skip m c,
  In m (findall_scan r prev s skip) -> In c m -> In c s.
Proof.
  induction s as [|a s IH]; intros prev skip m c Hm Hc.
  - destruct skip; cbn [findall_scan] in Hm; [|destruct Hm].
    destruct (match_here r prev []) as [m0|] eqn:E; [|destruct Hm].
    destruct Hm as [<- | []].
    apply match_here_is_prefix in E as (rest & E).
    destruct m0; [destruct Hc | discriminate].
  - destruct skip; cbn [findall_scan] in Hm.
    + destruct (match_here r prev (a :: s)) as [m0|] eqn:E.
      * destruct Hm as [<- | Hm].
        -- apply match_here_is_prefix in E as (rest & E). rewrite E.
           apply in_or_app. now left.
        -- right. eapply IH; eauto.
      * right. eapply IH; eauto.
    + right. eapply IH; eauto.
Qed.

(** A pattern that must take a character of [set] finds nothing in a
    text without one. *)
Lemma findall_without r set lo hi s :
  In (Rep set (S lo) hi) r ->
  forallb (fun c => negb (set c)) s = true ->
  findall r s = [].
Proof.
  intros Hin Hs. destruct (findall r s) as [|m l] eqn:E; [reflexivity|].
  exfalso.
  assert (Hm : In m (findall r s)) by (rewrite E; now left).
  pose proof (@findall_shape r s m Hm) as Hshape.
  pose proof (@shape_mandatory r m set lo hi Hshape Hin) as Hex.
  apply existsb_exists in Hex as (c & Hc & Hset).
  unfold findall in Hm.
  pose proof (@findall_scan_chars r s None 0 m c Hm Hc) as Hcs.
  rewrite forallb_forall in Hs. apply Hs in Hcs.
  rewrite Hset in Hcs. discriminate.
Qed.

Definition no_digit (t : text) : bool := forallb (fun c => negb (is_digit c)) t.

Definition no_at (t : text) : bool :=
  forallb (fun c => negb (is_char "@" c)) t.

Lemma phone_pattern_digits r :
  In r phone_patterns -> exists lo hi, In (Rep is_digit (S lo) hi) r.
Proof.
  intros [<- | [<- | [<- | [<- | [<- | []]]]]].
  - exists 0, (Some 3). right. left. reflexivity.
  - exists 0, (Some 3). right. left. reflexivity.
  - exists 2, (Some 3). right. left. reflexivity.
  - exists 2, (Some 3). left. reflexivity.
  - exists 9, (Some 10). right. left. reflexivity.
Qed.

Lemma patterns_without_digit t rs :
  no_digit t = true -> incl rs phone_patterns ->
  fold_left pattern_step rs (State t [] 1) = State t [] 1.
Proof.
  intros Ht. induction rs as [|r rs IH]; intros Hincl; [reflexivity|].
  cbn [fold_left]. unfold pattern_step at 2. cbn [masked_text].
  destruct (@phone_pattern_digits r) as (lo & hi & Hin).
  { apply Hincl. now left. }
  rewrite (@findall_without r is_digit lo hi t Hin Ht). cbn [fold_left].
  apply IH. intros x Hx. apply Hincl. now right.
Qed.

Lemma mask_phones_without_digit t :
  no_digit t = true -> mask_phones t = State t [] 1.
Proof.
  intros Ht. unfold mask_phones. apply patterns_without_digit; [exact Ht|].
  apply incl_refl.
Qed.

Lemma emails_without_at t :
  no_at t = true -> findall email_pattern t = [].
Proof.
  intros Ht. apply (@findall_without email_pattern (is_char "@") 0 (Some 1)).
  - right. right. left. reflexivity.
  - exact Ht.
Qed.

End CleanFacts.

(* ================================================================== *)
(** * The keys of the tables *)

Module KeyFacts.

(** The key is a text that starts with an opening bracket. *)
Definition opens (k : text) : Prop := exists p, k = lb :: p.

Definition keys_open (m : dict) : Prop :=
  forall k v, In (k, v) m -> opens k.

Lemma phone_placeholder_opens n : opens (phone_placeholder n).
Proof. rewrite phone_placeholder_eq. now eexists. Qed.

Lemma email_placeholder_opens n : opens (email_placeholder n).
Proof. rewrite email_placeholder_eq. now eexists. Qed.

Lemma email_entries_open l : forall i,
  keys_open (TableFacts.email_entries i l).
Proof.
  induction l as [|e l IH]; intros i k v H; [destruct H|].
  destruct H as [H | H].
  - inversion H; subst. apply email_placeholder_opens.
  - eapply IH; eauto.
Qed.

Lemma mask_text_table t :
  snd (mask_text t)
  = mapping (mask_phones t)
    ++ TableFacts.email_entries
         1 (findall email_pattern (masked_text (mask_phones t))).
Proof.
  destruct (TableFacts.mask_phones_table t) as [Hk _].
  unfold mask_text, mask_emails. cbn [snd].
  apply TableFacts.emails_table.
  intros p v H. left. apply Hk in H as (i & _ & E). eauto.
Qed.

Lemma mask_text_keys_open t : keys_open (snd (mask_text t)).
Proof.
  rewrite mask_text_table. intros k v H.
  apply in_app_iff in H as [H | H].
  - destruct (TableFacts.mask_phones_table t) as [Hk _].
    apply Hk in H as (i & _ & ->). apply phone_placeholder_opens.
  - eapply email_entries_open; eauto.
Qed.

Lemma dict_set_in d k v k' v' :
  In (k', v') (dict_set d k v) -> (k', v') = (k, v) \/ In (k', v') d.
Proof.
  induction d as [|[k0 v0] d IH]; simpl.
  - intros [H | []]. now left.
  - destruct (text_eqb k0 k).
    + intros [H | H]; [now left | right; now right].
    + intros [H | H]; [right; now left|].
      apply IH in H as [H | H]; [now left | right; now right].
Qed.

Lemma dict_set_open d k v :
  keys_open d -> opens k -> keys_open (dict_set d k v).
Proof.
  intros Hd Hk k' v' H. apply dict_set_in in H as [H | H].
  - inversion H; subst. exact Hk.
  - eapply Hd; eauto.
Qed.

Lemma dict_update_open e : forall d,
  keys_open d -> keys_open e -> keys_open (dict_update d e).
Proof.
  unfold dict_update. induction e as [|[k v] e IH]; intros d Hd He.
  - exact Hd.
  - cbn [fold_left fst snd]. apply IH.
    + apply dict_set_open; [exact Hd|]. eapply He. now left.
    + intros k' v' H. eapply He. right. exact H.
Qed.

Lemma keys_open_nil : keys_open [].
Proof. intros k v []. Qed.

(** A text without an opening bracket holds no key. *)
Lemma unmask_text_absent m : forall r,
  keys_open m -> EchoFacts.no_open r = true -> unmask_text r m = r.
Proof.
  unfold unmask_text. induction m as [|[k v] m IH]; intros r Hm Hr.
  - reflexivity.
  - cbn [fold_left fst snd].
    destruct (Hm k v (or_introl eq_refl)) as (p & ->).
    rewrite EchoFacts.replace_absent by exact Hr.
    apply IH; [|exact Hr]. intros k' v' H. eapply Hm. right. exact H.
Qed.

End KeyFacts.

(* ================================================================== *)
(** * The customer context under masking *)

Module ContextFacts.

Section Context.

Variable A : Type.
Variable not_a_string : value A -> exn.

Lemma context_get_set_same (c : context A) k v :
  context_get c k <> None -> context_get (context_set c k v) k = Some v.
Proof.
  induction c as [|[k0 v0] c IH]; simpl; [congruence|].
  destruct (text_eqb k0 k) eqn:E; simpl.
  - now rewrite text_eqb_refl.
  - rewrite E. exact IH.
Qed.

Lemma context_get_set_other (c : context A) k v k' :
  k' <> k -> context_get (context_set c k v) k' = context_get c k'.
Proof.
  intros Hne. induction c as [|[k0 v0] c IH]; simpl.
  - destruct (text_eqb k k') eqn:E; [|reflexivity].
    apply text_eqb_eq in E. congruence.
  - destruct (text_eqb k0 k) eqn:E; simpl.
    + apply text_eqb_eq in E. subst k0.
      destruct (text_eqb k k') eqn:E'; [|reflexivity].
      apply text_eqb_eq in E'. congruence.
    + now rewrite IH.
Qed.

Lemma context_set_keys (c : context A) k v :
  context_get c k <> None -> map fst (context_set c k v) = map fst c.
Proof.
  induction c as [|[k0 v0] c IH]; simpl; [congruence|].
  destruct (text_eqb k0 k) eqn:E; simpl.
  - intros _. apply text_eqb_eq in E. now subst.
  - intros H. now rewrite IH.
Qed.

(** The value can be masked: the key is absent, or it holds a [str]. *)
Definition maskable (v : option (value A)) : Prop :=
  match v with
  | None => True
  | Some (Str _) => True
  | Some _ => False
  end.

(** What one block of [mask_customer_context] does. *)
Lemma mask_field_cases field (c : context A) (m : dict) :
  match context_get c field with
  | None => mask_field not_a_string field (c, m) = Ok (c, m)
  | Some (Str s) =>
      mask_field not_a_string field (c, m)
      = Ok (context_set c field (Str (fst (mask_text s))),
            dict_update m (snd (mask_text s)))
  | Some v => mask_field not_a_string field (c, m) = Raise (not_a_string v)
  end.
Proof.
  unfold mask_field. destruct (context_get c field) as [[s| |a]|]; reflexivity.
Qed.

Lemma Ok_pair (X Y : Type) (x x' : X) (y y' : Y) :
  Ok (x, y) = Ok (x', y') -> x = x' /\ y = y'.
Proof. intros H. now inversion H. Qed.

(** The table that masking the field gives, when the field holds a
    [str]. *)
Definition field_table (c : context A) (field : text) : dict :=
  match context_get c field with
  | Some (Str s) => snd (mask_text s)
  | _ => []
  end.

Lemma mask_customer_context_spec
        (c masked_context : context A) (all_mappings : dict) :
  mask_customer_context not_a_string c = Ok (masked_context, all_mappings) ->
  map fst masked_context = map fst c
  /\ (forall k, k <> txt "phone" -> k <> txt "email" ->
                context_get masked_context k = context_get c k)
  /\ (forall s, context_get c (txt "phone") = Some (Str s) ->
                context_get masked_context (txt "phone")
                = Some (Str (fst (mask_text s))))
  /\ (forall s, context_get c (txt "email") = Some (Str s) ->
                context_get masked_context (txt "email")
                = Some (Str (fst (mask_text s))))
  /\ all_mappings
     = dict_update (dict_update [] (field_table c (txt "phone")))
                   (field_table c (txt "email"))
  /\ KeyFacts.keys_open all_mappings.
Proof.
  intros H.
  assert (Hopen : forall field,
             KeyFacts.keys_open (field_table c field)).
  { intros field. unfold field_table.
    destruct (context_get c field) as [[s| |a]|];
      try apply KeyFacts.keys_open_nil.
    apply KeyFacts.mask_text_keys_open. }
  assert (Htable : all_mappings
                   = dict_update (dict_update [] (field_table c (txt "phone")))
                                 (field_table c (txt "email"))
                   -> KeyFacts.keys_open all_mappings).
  { intros ->. apply KeyFacts.dict_update_open; [|apply Hopen].
    apply KeyFacts.dict_update_open; [apply KeyFacts.keys_open_nil|].
    apply Hopen. }
  unfold mask_customer_context in H.
  pose proof (mask_field_cases (txt "phone") c []) as Hp.
  unfold field_table in *.
  destruct (context_get c (txt "phone")) as [[s| |a]|] eqn:Ep;
    rewrite Hp in H; cbn [bind] in H; try discriminate.
  - assert (Pp : context_get c (txt "phone") <> None) by congruence.
    pose proof (mask_field_cases (txt "email")
                  (context_set c (txt "phone") (Str (fst (mask_text s))))
                  (dict_update [] (snd (mask_text s)))) as He.
    rewrite context_get_set_other in He by discriminate.
    destruct (context_get c (txt "email")) as [[s'| |a]|] eqn:Ee;
      rewrite He in H; try discriminate;
      apply Ok_pair in H as [<- <-].
    + assert (Pe : context_get
                     (context_set c (txt "phone") (Str (fst (mask_text s))))
                     (txt "email") <> None).
      { rewrite context_get_set_other by discriminate.
        congruence. }
      repeat split.
      * rewrite context_set_keys by exact Pe.
        apply context_set_keys. exact Pp.
      * intros k Hk1 Hk2.
        now rewrite !context_get_set_other by assumption.
      * intros s0 E. injection E as <-.
        rewrite context_get_set_other by discriminate.
        apply context_get_set_same. exact Pp.
      * intros s0 E. injection E as <-.
        apply context_get_set_same. exact Pe.
      * now apply Htable.
    + repeat split.
      * apply context_set_keys. exact Pp.
      * intros k Hk1 Hk2.
        now rewrite context_get_set_other by assumption.
      * intros s0 E. injection E as <-.
        apply context_get_set_same. exact Pp.
      * intros s0 E. discriminate.
      * now apply Htable.
  - pose proof (mask_field_cases (txt "email") c []) as He.
    destruct (context_get c (txt "email")) as [[s'| |a]|] eqn:Ee;
      rewrite He in H; try discriminate;
      apply Ok_pair in H as [<- <-].
    + assert (Pe : context_get c (txt "email") <> None) by congruence.
      repeat split.
      * apply context_set_keys. exact Pe.
      * intros k Hk1 Hk2.
        now rewrite context_get_set_other by assumption.
      * intros s0 E. discriminate.
      * intros s0 E. injection E as <-.
        apply context_get_set_same. exact Pe.
      * now apply Htable.
    + repeat split; try discriminate; auto.
Qed.


Lemma mask_customer_context_open (c masked_context : context A) all_mappings :
  mask_customer_context not_a_string c = Ok (masked_context, all_mappings) ->
  KeyFacts.keys_open all_mappings.
Proof. intros H. now apply mask_customer_context_spec in H. Qed.

End Context.

End ContextFacts.

(* ================================================================== *)
(** * [str.strip] *)

Module StripFacts.

Lemma lstrip_head s c : hd_error (lstrip s) = Some c -> is_space c = false.
Proof.
  induction s as [|a s IH]; simpl; [discriminate|].
  destruct (is_space a) eqn:E; [exact IH|].
  simpl. intros H. injection H as <-. exact E.
Qed.

(** What [lstrip] removes is white space. *)
Lemma lstrip_split s :
  exists p, s = p ++ lstrip s /\ forallb is_space p = true.
Proof.
  induction s as [|a s (p & E & Hp)]; simpl.
  - now exists [].
  - destruct (is_space a) eqn:Ea.
    + exists (a :: p). simpl. rewrite Ea, Hp.
      split; [now f_equal | reflexivity].
    + now exists [].
Qed.

Lemma strip_last s c :
  hd_error (rev (strip s)) = Some c -> is_space c = false.
Proof.
  unfold strip. rewrite rev_involutive. apply lstrip_head.
Qed.

Lemma strip_head s c : hd_error (strip s) = Some c -> is_space c = false.
Proof.
  unfold strip.
  destruct (lstrip_split (rev (lstrip s))) as (p & E & _).
  intros H. apply (lstrip_head s).
  rewrite <- (rev_involutive (lstrip s)), E, rev_app_distr.
  destruct (rev (lstrip (rev (lstrip s)))); [discriminate|]. exact H.
Qed.

End StripFacts.

(* ================================================================== *)
(** * The streamed completion *)

Module StreamFacts.

Import Llm.

(** The text that the loop adds for a chunk with a first choice. *)
Definition said (c : chunk) : text :=
  match choices c with
  | Some (Delta (Some s)) :: _ => s
  | _ => []
  end.

(** A stream of the chunks [cs] and then [finish]. *)
Definition stream_of (cs : list chunk) (finish : completion) : completion :=
  fold_right Yield finish cs.

Definition has_choice (c : chunk) : Prop := choices c <> [].

Lemma collect_chunks cs finish : forall full_response,
  Forall has_choice cs ->
  collect (stream_of cs finish) full_response
  = collect finish (full_response ++ List.concat (map said cs)).
Proof.
  induction cs as [|[ch] cs IH]; intros full H.
  - simpl. now rewrite app_nil_r.
  - inversion H as [|? ? Hc Hcs]; subst.
    unfold has_choice in Hc. cbn [choices] in Hc.
    cbn [stream_of fold_right collect map List.concat].
    fold (stream_of cs finish).
    unfold first_delta, said at 1. cbn [choices].
    destruct ch as [|d ds]; [congruence|]. cbn [bind].
    destruct d as [[[s|]]|].
    + destruct s as [|a s]; cbn [truthy]; rewrite IH by exact Hcs.
      * reflexivity.
      * now rewrite app_assoc.
    + now rewrite IH by exact Hcs.
    + now rewrite IH by exact Hcs.
Qed.

Lemma collect_no_choice cs c rest : forall full_response,
  Forall has_choice cs -> choices c = [] ->
  collect (stream_of cs (Yield c rest)) full_response = Raise index_error.
Proof.
  intros full H E. rewrite collect_chunks by exact H.
  cbn [collect]. unfold first_delta. now rewrite E.
Qed.

End StreamFacts.

(* ================================================================== *)
(** * A model service to run the calls on *)

Module Service.

Import Llm.

(** An environment with the key set, and one without. *)
Definition with_key (name : text) : option text :=
  if text_eqb name (txt "GROQ_API_KEY") then Some (txt "gsk_demo") else None.

Definition without_key (name : text) : option text := None.

Definition Groq (api_key : option text) : result unit := Ok tt.

(** The chunks of an answer: one with no content, one with no delta,
    one with an empty content among them. *)
Definition chunks : list chunk :=
  [Chunk [Some (Delta None)];
   Chunk [Some (Delta (Some (txt " Hello")))];
   Chunk [None];
   Chunk [Some (Delta (Some (txt ", Neeraj! ")))];
   Chunk [Some (Delta (Some (txt "")))]].

Definition answers (client : unit) (model : text) (messages : list message)
           (temperature : unit) : result completion :=
  Ok (StreamFacts.stream_of chunks Finished).

Definition timeout : exn := Exception (txt "Request timed out.").

(** A service whose stream breaks after the first two chunks. *)
Definition breaks (client : unit) (model : text) (messages : list message)
           (temperature : unit) : result completion :=
  Ok (StreamFacts.stream_of (firstn 2 chunks) (Interrupted timeout)).

End Service.

(* ================================================================== *)
(** * The prompt *)

Module PromptFacts.

Import Llm Prompt.

(** The joined parts and the separator after them, when there are
    parts. *)
Definition lead (sep : text) (parts : list text) : text :=
  match parts with
  | [] => []
  | _ :: _ => join sep parts ++ sep
  end.

Lemma join_cons sep p q rest :
  join sep (p :: q :: rest) = p ++ sep ++ join sep (q :: rest).
Proof. reflexivity. Qed.

Lemma join_app sep a b :
  b <> [] -> join sep (a ++ b) = lead sep a ++ join sep b.
Proof.
  intros Hb. induction a as [|p a IH]; [reflexivity|].
  destruct a as [|q a].
  - destruct b as [|q b]; [congruence|]. cbn [app lead join].
    now rewrite <- app_assoc.
  - cbn [app] in *. rewrite join_cons, IH. cbn [lead].
    rewrite join_cons. now rewrite <- !app_assoc.
Qed.

(** A part is in the joined text. *)
Lemma join_holds sep line parts :
  In line parts -> KeepFacts.holds line (join sep parts).
Proof.
  induction parts as [|p parts IH]; intros Hin; [destruct Hin|].
  destruct parts as [|q parts].
  - destruct Hin as [-> | []]. exists [], []. cbn [join app].
    now rewrite app_nil_r.
  - rewrite join_cons. destruct Hin as [-> | Hin].
    + exists [], (sep ++ join sep (q :: parts)). reflexivity.
    + destruct (IH Hin) as (x & y & E). rewrite E.
      exists (p ++ sep ++ x), y. now rewrite <- !app_assoc.
Qed.

(** The keys of the customer context that [build_prompt] reads. *)
Definition read_keys : list text :=
  [txt "name"; txt "loyalty_level"; txt "preferred_drink";
   txt "recent_orders"; txt "active_coupons"].

Section Parts.

Variable F : Type.
Variable float_str : F -> text.
Variable rows_str : list (row F) -> text.
Variable float_truthy : F -> bool.
Variable not_rows : value (item F) -> exn.

#[local] Abbreviation customer_part :=
  (Prompt.customer_part float_str rows_str float_truthy not_rows).
#[local] Abbreviation orders_part :=
  (Prompt.orders_part float_str float_truthy not_rows).
#[local] Abbreviation coupons_part :=
  (Prompt.coupons_part float_str float_truthy not_rows).
#[local] Abbreviation build_prompt :=
  (Prompt.build_prompt float_str rows_str float_truthy not_rows).
#[local] Abbreviation order_line := (Prompt.order_line float_str).
#[local] Abbreviation coupon_line := (Prompt.coupon_line float_str).

(** The block of the customer, for a context that is not empty. *)
Lemma customer_part_some (c : context (item F)) :
  c <> [] ->
  customer_part c
  = (orders <- orders_part c ;;
     coupons <- coupons_part c ;;
     Ok ([customer_header;
          txt "Name: "
            ++ customer_get float_str rows_str c (txt "name") (txt "Unknown");
          txt "Loyalty Level: "
            ++ customer_get float_str rows_str c (txt "loyalty_level")
                            (txt "None");
          txt "Preferred Drink: "
            ++ customer_get float_str rows_str c (txt "preferred_drink")
                            (txt "None")]
         ++ orders ++ coupons ++ [txt ""])).
Proof. destruct c; [congruence | reflexivity]. Qed.

(** Two contexts that [build_prompt] cannot tell apart. *)
Definition agree (c c' : context (item F)) : Prop :=
  (c = [] <-> c' = [])
  /\ forall k, In k read_keys -> context_get c' k = context_get c k.

Lemma customer_part_agree c c' :
  agree c c' -> customer_part c' = customer_part c.
Proof.
  intros [He Hk].
  assert (Hn : context_get c' (txt "name") = context_get c (txt "name")).
  { apply Hk. cbn. tauto. }
  assert (Hl : context_get c' (txt "loyalty_level")
               = context_get c (txt "loyalty_level")).
  { apply Hk. cbn. tauto. }
  assert (Hd : context_get c' (txt "preferred_drink")
               = context_get c (txt "preferred_drink")).
  { apply Hk. cbn. tauto. }
  assert (Ho : context_get c' (txt "recent_orders")
               = context_get c (txt "recent_orders")).
  { apply Hk. cbn. tauto. }
  assert (Hc : context_get c' (txt "active_coupons")
               = context_get c (txt "active_coupons")).
  { apply Hk. cbn. tauto. }
  unfold Prompt.customer_part.
  destruct c as [|x c]; destruct c' as [|x' c'].
  - reflexivity.
  - destruct He as [He _]. specialize (He eq_refl). discriminate.
  - destruct He as [_ He]. specialize (He eq_refl). discriminate.
  - unfold Prompt.orders_part, Prompt.coupons_part, customer_get.
    now rewrite Hn, Hl, Hd, Ho, Hc.
Qed.

Lemma build_prompt_agree c c' store_ctx rag_docs user_message :
  agree c c' ->
  build_prompt c' store_ctx rag_docs user_message
  = build_prompt c store_ctx rag_docs user_message.
Proof.
  intros H. unfold Prompt.build_prompt. now rewrite (customer_part_agree H).
Qed.

(** The prompt, when it is built, ends with the header of the message
    and the message. *)
Lemma build_prompt_end c store_ctx rag_docs user_message sp up :
  build_prompt c store_ctx rag_docs user_message = Ok (sp, up) ->
  sp = system_prompt
  /\ exists parts,
       up = lead [newline] parts
            ++ message_header ++ [newline] ++ user_message.
Proof.
  unfold Prompt.build_prompt.
  destruct (customer_part c) as [customer|]; [|discriminate].
  cbn [bind]. intros H. injection H as <- <-. split; [reflexivity|].
  exists (customer ++ store_part float_str store_ctx
          ++ documents_part rag_docs).
  rewrite !app_assoc. rewrite join_app by discriminate.
  now rewrite <- !app_assoc.
Qed.

(** The rows have the keys. *)
Definition has_keys (ks : list text) (r : row F) : Prop :=
  forall k, In k ks -> context_get r k <> None.

Definition order_keys : list text :=
  [txt "item_name"; txt "size"; txt "status"].

Definition coupon_keys : list text := [txt "description"; txt "valid_until"].

Lemma subscript_ok (r : row F) k :
  context_get r k <> None -> exists v, subscript r k = Ok v.
Proof.
  unfold subscript. destruct (context_get r k); [eauto | congruence].
Qed.

Lemma order_line_ok r :
  has_keys order_keys r -> exists l, order_line r = Ok l.
Proof.
  intros H. unfold Prompt.order_line.
  destruct (@subscript_ok r (txt "item_name")) as (v1 & ->).
  { apply H. cbn. tauto. }
  destruct (@subscript_ok r (txt "size")) as (v2 & ->).
  { apply H. cbn. tauto. }
  destruct (@subscript_ok r (txt "status")) as (v3 & ->).
  { apply H. cbn. tauto. }
  cbn [bind]. eauto.
Qed.

Lemma coupon_line_ok r :
  has_keys coupon_keys r -> exists l, coupon_line r = Ok l.
Proof.
  intros H. unfold Prompt.coupon_line.
  destruct (@subscript_ok r (txt "description")) as (v1 & ->).
  { apply H. cbn. tauto. }
  destruct (@subscript_ok r (txt "valid_until")) as (v2 & ->).
  { apply H. cbn. tauto. }
  cbn [bind]. eauto.
Qed.

Lemma lines_ok (line : row F -> result text) rows :
  Forall (fun r => exists l, line r = Ok l) rows ->
  exists ls, lines line rows = Ok ls.
Proof.
  induction 1 as [|r rows (l & E) _ (ls & IH)]; cbn [lines].
  - eauto.
  - rewrite E, IH. cbn [bind]. eauto.
Qed.

(** The value under a key of a list is fit for its loop: it is absent,
    or it is false, or it is a list of rows that satisfies [P]. *)
Definition listing (v : option (value (item F)))
           (P : list (row F) -> Prop) : Prop :=
  match v with
  | None => True
  | Some (Other (Rows l)) => P l
  | Some w => value_truthy float_truthy w = false
  end.

Lemma orders_part_ok c :
  listing (context_get c (txt "recent_orders"))
          (fun l => Forall (has_keys order_keys) (firstn 3 l)) ->
  exists ls, orders_part c = Ok ls.
Proof.
  unfold listing, Prompt.orders_part.
  destruct (context_get c (txt "recent_orders")) as [[s| |[n|l]]|];
    intros H; try (rewrite H; eauto); [|cbn; eauto].
  destruct (value_truthy float_truthy (Other (Rows l))); [|eauto].
  destruct (@lines_ok order_line (firstn 3 l)) as (ls & ->).
  { eapply Forall_impl; [|exact H]. intros r. apply order_line_ok. }
  cbn [bind]. eauto.
Qed.

Lemma coupons_part_ok c :
  listing (context_get c (txt "active_coupons"))
          (fun l => Forall (has_keys coupon_keys) l) ->
  exists ls, coupons_part c = Ok ls.
Proof.
  unfold listing, Prompt.coupons_part.
  destruct (context_get c (txt "active_coupons")) as [[s| |[n|l]]|];
    intros H; try (rewrite H; eauto); [|cbn; eauto].
  destruct (value_truthy float_truthy (Other (Rows l))); [|eauto].
  destruct (@lines_ok coupon_line l) as (ls & ->).
  { eapply Forall_impl; [|exact H]. intros r. apply coupon_line_ok. }
  cbn [bind]. eauto.
Qed.

Lemma build_prompt_ok c store_ctx rag_docs user_message :
  listing (context_get c (txt "recent_orders"))
          (fun l => Forall (has_keys order_keys) (firstn 3 l)) ->
  listing (context_get c (txt "active_coupons"))
          (fun l => Forall (has_keys coupon_keys) l) ->
  exists up,
    build_prompt c store_ctx rag_docs user_message = Ok (system_prompt, up).
Proof.
  intros Ho Hc. unfold Prompt.build_prompt, Prompt.customer_part.
  destruct c as [|x c]; [cbn [bind]; eauto|].
  destruct (orders_part_ok _ Ho) as (os & ->).
  destruct (coupons_part_ok _ Hc) as (cs & ->).
  cbn [bind]. eauto.
Qed.

End Parts.

End PromptFacts.

(* ================================================================== *)
(** * A shop to run the code on *)

(** A small database, with a float carried as its decimal text. *)
Module Demo.

Import Llm Prompt.

Definition float : Type := text.

Definition float_str (x : float) : text := x.

Definition float_truthy (x : float) : bool :=
  negb (text_eqb x (txt "0.0") || text_eqb x (txt "-0.0")).

Definition rows_str (l : list (row float)) : text := txt "[...]".

Definition not_rows (v : value (item float)) : exn :=
  Exception (txt "object has no len()").

Definition not_a_string (v : value (item float)) : exn :=
  Exception (txt "expected string or bytes-like object").

(** The order of the texts, character by character. *)
Fixpoint text_leb (a b : text) : bool :=
  match a, b with
  | [], _ => true
  | _ :: _, [] => false
  | x :: a', y :: b' =>
      (code x <? code y)%N || ((code x =? code y)%N && text_leb a' b')
  end.

(** [NULL] sorts below every text. *)
Definition key_leb (a b : option text) : bool :=
  match a, b with
  | None, _ => true
  | Some _, None => false
  | Some x, Some y => text_leb x y
  end.

Fixpoint insert_desc (A : Type) (key : A -> option text) (x : A)
         (l : list A) : list A :=
  match l with
  | [] => [x]
  | y :: l' =>
      if key_leb (key y) (key x) then x :: l
      else y :: insert_desc key x l'
  end.

Definition order_by_desc (A : Type) (key : A -> option text) (l : list A)
  : list A :=
  fold_right (insert_desc key) [] l.

Lemma insert_desc_in (A : Type) (key : A -> option text) x l y :
  In y (insert_desc key x l) -> y = x \/ In y l.
Proof.
  induction l as [|z l IH]; simpl.
  - intros [H | []]. now left.
  - destruct (key_leb (key z) (key x)); simpl.
    + intros [H | [H | H]]; auto.
    + intros [H | H]; auto. apply IH in H as [H | H]; auto.
Qed.

Lemma order_by_desc_in (A : Type) (key : A -> option text) l y :
  In y (order_by_desc key l) -> In y l.
Proof.
  unfold order_by_desc. induction l as [|x l IH]; simpl; [tauto|].
  intros H. apply insert_desc_in in H as [H | H]; auto.
Qed.

Definition downtown : Geo.store float :=
  Geo.Store 1 (txt "BeanHaven Coffee - Downtown")
            (Some (txt "40.7589")) (Some (txt "-73.9851"))
            (txt "123 Main St, New York, NY") (txt "06:00") (txt "21:00").

Definition uptown : Geo.store float :=
  Geo.Store 2 (txt "BeanHaven Coffee - Uptown")
            (Some (txt "40.7829")) (Some (txt "-73.9654"))
            (txt "456 Park Ave, New York, NY") (txt "07:00") (txt "20:00").

Definition neeraj : Db.customer float :=
  Db.Customer 1 (txt "Neeraj Kumar") (txt "+1-555-0101")
              (Some (txt "neeraj.kumar@example.com"))
              (Some (txt "Hot Cocoa")) (Some (txt "Gold"))
              (Some (txt "120 Main St, New York, NY"))
              (Some (txt "40.7592")) (Some (txt "-73.9855")).

(** A customer who gave no email address. *)
Definition walk_in : Db.customer float :=
  Db.Customer 11 (txt "Sam Reed") (txt "+1-555-0111") None
              (Some (txt "Latte")) (Some (txt "Bronze")) None None None.

Definition an_order (n customer store : Z) (what : string) (day : string)
  : Db.order :=
  Db.Order n (Some customer) (Some store) (Some (txt what))
           (Some (txt "hot_drink")) (Some (txt "Medium"))
           (Some (txt "completed")) (Some (txt day)).

Definition a_coupon (n customer : Z) (what : string) (active : Z)
  : Db.coupon float :=
  Db.Coupon n (Some customer) (Some (txt what)) (Some (txt "Hot Cocoa"))
            (Some (txt "10.0")) (Some (txt "2030-01-31")) (Some active).

Definition db : Db.database float :=
  Db.Database
    [neeraj; walk_in]
    [downtown; uptown]
    [an_order 1 1 1 "Hot Cocoa" "2025-03-01T08:00:00";
     an_order 2 1 1 "Cappuccino" "2025-03-02T08:00:00";
     an_order 3 11 2 "Latte" "2025-03-03T08:00:00";
     an_order 4 1 2 "Espresso" "2025-03-04T08:00:00";
     an_order 5 1 1 "Americano" "2025-03-05T08:00:00";
     an_order 6 1 9 "Mocha" "2025-03-06T08:00:00";
     an_order 7 1 1 "Latte" "2025-03-07T08:00:00";
     an_order 8 1 2 "Cold Brew" "2025-03-08T08:00:00";
     an_order 9 1 1 "Flat White" "2025-03-09T08:00:00"]
    [a_coupon 1 1 "10% OFF Hot Cocoa" 1;
     a_coupon 2 1 "Expired offer" 0;
     a_coupon 3 11 "Free Size Upgrade" 1].

Definition get_customer_context : Z -> context (item float) :=
  Db.get_customer_context order_by_desc db.

Definition build_prompt :
  context (item float) -> option (row float) -> list text -> text ->
  result (text * text) :=
  Prompt.build_prompt float_str rows_str float_truthy not_rows.

(** The store context of the first store at the default distance. *)
Definition nearby : option (row float) :=
  Some [(txt "id", Other (Int 1));
        (txt "name", Str (txt "BeanHaven Coffee - Downtown"));
        (txt "latitude", Other (Real (txt "40.7589")));
        (txt "longitude", Other (Real (txt "-73.9851")));
        (txt "address", Str (txt "123 Main St, New York, NY"));
        (txt "open_time", Str (txt "06:00"));
        (txt "close_time", Str (txt "21:00"));
        (txt "distance_m", Other (Int 50))].

End Demo.

(* ================================================================== *)
(** * The prompt of a masked record *)

Module MaskedPromptFacts.

Import Llm Prompt PromptFacts.

Section Masked.

Variable F : Type.
Variable not_a_string : value (item F) -> exn.

(** Masking a record changes nothing that [build_prompt] reads. *)
Lemma mask_agree (c masked : context (item F)) table :
  mask_customer_context not_a_string c = Ok (masked, table) ->
  agree c masked.
Proof.
  intros H.
  apply ContextFacts.mask_customer_context_spec in H as (Hk & Ho & _).
  split.
  - split; intros ->.
    + destruct masked; [reflexivity | discriminate].
    + destruct c; [reflexivity | discriminate].
  - intros k Hin. apply Ho;
      destruct Hin as [<- | [<- | [<- | [<- | [<- | []]]]]]; discriminate.
Qed.

End Masked.

End MaskedPromptFacts.

(* ================================================================== *)
(** * The customer context of the database *)

Module DbFacts.

Import Llm Prompt PromptFacts.

Section Tables.

Variable F : Type.
Variable order_by_desc :
  forall A : Type, (A -> option text) -> list A -> list A.

#[local] Abbreviation get_customer_context :=
  (Db.get_customer_context order_by_desc).
#[local] Abbreviation recent_orders := (Db.recent_orders order_by_desc).
#[local] Abbreviation active_coupons := (Db.active_coupons order_by_desc).

Lemma unknown_customer (db : Db.database F) id :
  Db.customer_row db id = None -> get_customer_context db id = [].
Proof. intros H. unfold Db.get_customer_context. now rewrite H. Qed.

(** The fields of the context of a customer that is in the table. *)
Lemma known_customer (db : Db.database F) id c :
  Db.customer_row db id = Some c ->
  get_customer_context db id <> []
  /\ context_get (get_customer_context db id) (txt "phone")
     = Some (Str (Db.phone c))
  /\ context_get (get_customer_context db id) (txt "email")
     = Some (Db.text_cell _ (Db.email c))
  /\ context_get (get_customer_context db id) (txt "name")
     = Some (Str (Db.name c))
  /\ context_get (get_customer_context db id) (txt "recent_orders")
     = Some (Other (Rows (map (@Db.order_dict F) (recent_orders db id))))
  /\ context_get (get_customer_context db id) (txt "active_coupons")
     = Some (Other (Rows (map (@Db.coupon_dict F) (active_coupons db id)))).
Proof.
  intros H. unfold Db.get_customer_context. rewrite H.
  repeat split. discriminate.
Qed.

Lemma order_dict_keys (os : Db.order * Geo.store F) :
  has_keys order_keys (Db.order_dict os).
Proof.
  destruct os as [o s]. intros k [<- | [<- | [<- | []]]]; discriminate.
Qed.

Lemma coupon_dict_keys (c : Db.coupon F) :
  has_keys coupon_keys (Db.coupon_dict c).
Proof. intros k [<- | [<- | []]]; discriminate. Qed.

Lemma Forall_map_all (A B : Type) (f : A -> B) (P : B -> Prop) l :
  (forall x, P (f x)) -> Forall P (map f l).
Proof. intros H. induction l; simpl; constructor; auto. Qed.

Lemma Forall_firstn (A : Type) (P : A -> Prop) n : forall l,
  Forall P l -> Forall P (firstn n l).
Proof.
  induction n as [|n IH]; intros l H; [constructor|].
  destruct H; simpl; constructor; auto.
Qed.

Lemma firstn_in (A : Type) (x : A) n : forall l,
  In x (firstn n l) -> In x l.
Proof.
  induction n as [|n IH]; intros [|y l]; simpl; try tauto.
  intros [H | H]; auto.
Qed.

(** The two lists of the context are fit for the loops of
    [build_prompt]. *)
Lemma context_listings (db : Db.database F) id (float_truthy : F -> bool) :
  listing float_truthy
    (context_get (get_customer_context db id) (txt "recent_orders"))
    (fun l => Forall (has_keys order_keys) (firstn 3 l))
  /\ listing float_truthy
       (context_get (get_customer_context db id) (txt "active_coupons"))
       (fun l => Forall (has_keys coupon_keys) l).
Proof.
  destruct (Db.customer_row db id) as [c|] eqn:E.
  - destruct (known_customer db id E) as (_ & _ & _ & _ & -> & ->).
    split; cbn [listing].
    + apply Forall_firstn, Forall_map_all, order_dict_keys.
    + apply Forall_map_all, coupon_dict_keys.
  - rewrite (unknown_customer db id E). split; exact I.
Qed.

Lemma equals_eq (column : option Z) n :
  Db.equals column n = true -> column = Some n.
Proof.
  destruct column as [m|]; simpl; [|discriminate].
  intros H. apply Z.eqb_eq in H. now subst.
Qed.

End Tables.

End DbFacts.

(* ================================================================== *)
(** * The batches of the index *)

Module IndexFacts.

Import Index.

(** The slices of the loop, each with the index it starts at, for a
    list of which [l] is what is left at [start]. *)
Fixpoint parts (A : Type) (count start : nat) (l : list A)
  : list (nat * list A) :=
  match count with
  | O => []
  | S c =>
      (start, firstn batch_size l)
        :: parts c (start + batch_size) (skipn batch_size l)
  end.

Lemma slices_parts (A : Type) (l0 : list A) count : forall i l,
  skipn i l0 = l ->
  map (fun j => (j, slice l0 j (j + batch_size)))
      (range_from count i batch_size)
  = parts count i l.
Proof.
  induction count as [|c IH]; intros i l H; [reflexivity|].
  cbn [range_from map parts]. f_equal.
  - unfold slice. rewrite H. f_equal. f_equal. lia.
  - apply IH. rewrite <- H, skipn_skipn. f_equal. lia.
Qed.

Lemma parts_concat (A : Type) count : forall start (l : list A),
  List.length l <= count * batch_size ->
  List.concat (map snd (parts count start l)) = l.
Proof.
  induction count as [|c IH]; intros start l H.
  - destruct l; [reflexivity | simpl in H; lia].
  - cbn [parts map List.concat snd]. rewrite IH.
    + apply firstn_skipn.
    + rewrite length_skipn. unfold batch_size in *. lia.
Qed.

Lemma parts_indices (A : Type) count : forall start (l : list A),
  List.length l <= count * batch_size ->
  List.concat (map (fun p => seq (fst p) (List.length (snd p)))
                   (parts count start l))
  = seq start (List.length l).
Proof.
  induction count as [|c IH]; intros start l H.
  - destruct l; [reflexivity | simpl in H; lia].
  - cbn [parts map List.concat fst snd]. rewrite IH.
    + destruct (Nat.le_ge_cases batch_size (List.length l)) as [Hl | Hl].
      * rewrite length_firstn, length_skipn, Nat.min_l by exact Hl.
        rewrite <- seq_app. f_equal. lia.
      * rewrite firstn_all2, skipn_all2 by exact Hl.
        simpl. apply app_nil_r.
    + rewrite length_skipn. unfold batch_size in *. lia.
Qed.

Lemma parts_sizes (A : Type) count : forall start (l : list A),
  (count - 1) * batch_size < List.length l ->
  Forall (fun p => 1 <= List.length (snd p) <= batch_size)
         (parts count start l).
Proof.
  induction count as [|c IH]; intros start l H; [constructor|].
  cbn [parts]. constructor.
  - cbn [snd]. rewrite length_firstn. unfold batch_size in *. lia.
  - destruct c as [|c]; [constructor|].
    apply IH. rewrite length_skipn. unfold batch_size in *. simpl in *. lia.
Qed.

(** The number of rounds of the loop over [n] chunks. *)
Definition rounds (n : nat) : nat := (n - 0 + (batch_size - 1)) / batch_size.

Lemma rounds_enough n : n <= rounds n * batch_size.
Proof.
  unfold rounds, batch_size. rewrite Nat.sub_0_r.
  pose proof (Nat.div_mod_eq (n + (100 - 1)) 100) as E.
  pose proof (Nat.mod_upper_bound (n + (100 - 1)) 100 ltac:(lia)) as B.
  lia.
Qed.

Lemma rounds_needed n : 0 < n -> (rounds n - 1) * batch_size < n.
Proof.
  unfold rounds, batch_size. rewrite Nat.sub_0_r. intros Hn.
  pose proof (Nat.div_mod_eq (n + (100 - 1)) 100) as E.
  pose proof (Nat.mod_upper_bound (n + (100 - 1)) 100 ltac:(lia)) as B.
  lia.
Qed.

(** The batch of a slice that starts at [i]. *)
Definition batch_of (p : nat * list document) : batch :=
  Batch (map page_content (snd p))
        (map (fun j => doc_id (fst p + j)) (seq 0 (List.length (snd p))))
        (map source_of (snd p)).

Lemma batches_parts chunks :
  batches chunks
  = map batch_of (parts (rounds (List.length chunks)) 0 chunks).
Proof.
  unfold batches, range. fold (rounds (List.length chunks)).
  rewrite <- (@slices_parts _ chunks (rounds (List.length chunks)) 0 chunks)
    by reflexivity.
  rewrite map_map. reflexivity.
Qed.

Lemma concat_map_map (A B C : Type) (f : A -> list B) (g : B -> C) l :
  List.concat (map (fun x => map g (f x)) l) = map g (List.concat (map f l)).
Proof.
  induction l as [|x l IH]; [reflexivity|].
  simpl. now rewrite IH, map_app.
Qed.

Lemma shifted_seq (B : Type) (f : nat -> B) i n :
  map (fun j => f (i + j)) (seq 0 n) = map f (seq i n).
Proof.
  revert i; induction n as [|n IH]; intros i; [reflexivity|].
  cbn [seq map]. rewrite Nat.add_0_r. f_equal.
  rewrite <- seq_shift, map_map.
  rewrite <- (IH (S i)). apply map_ext. intros j. f_equal. lia.
Qed.

Lemma doc_id_inj a b : doc_id a = doc_id b -> a = b.
Proof.
  unfold doc_id. intros H. apply app_inv_head in H.
  apply str_of_int_inj in H. lia.
Qed.

Lemma doc_ids_distinct n : NoDup (map doc_id (seq 0 n)).
Proof.
  assert (H : forall l, NoDup l -> NoDup (map doc_id l)).
  { induction 1 as [|x l Hx Hl IH]; simpl; constructor; [|exact IH].
    intros Hin. apply in_map_iff in Hin as (y & E & Hy).
    apply doc_id_inj in E. now subst. }
  apply H, seq_NoDup.
Qed.

Lemma batches_documents chunks :
  List.concat (map documents (batches chunks)) = map page_content chunks.
Proof.
  rewrite batches_parts, map_map. cbn [batch_of documents].
  rewrite (concat_map_map snd page_content).
  now rewrite parts_concat by apply rounds_enough.
Qed.

Lemma batches_metadatas chunks :
  List.concat (map metadatas (batches chunks)) = map source_of chunks.
Proof.
  rewrite batches_parts, map_map. cbn [batch_of metadatas].
  rewrite (concat_map_map snd source_of).
  now rewrite parts_concat by apply rounds_enough.
Qed.

Lemma batches_ids chunks :
  List.concat (map ids (batches chunks))
  = map doc_id (seq 0 (List.length chunks)).
Proof.
  rewrite batches_parts, map_map. cbn [batch_of ids].
  rewrite (map_ext _ (fun p => map doc_id
                                   (seq (fst p) (List.length (snd p))))).
  - rewrite (concat_map_map
               (fun p => seq (fst p) (List.length (snd p))) doc_id).
    now rewrite parts_indices by apply rounds_enough.
  - intros p. apply shifted_seq.
Qed.

Lemma batches_sizes chunks :
  Forall (fun b => 1 <= List.length (documents b) <= batch_size
                   /\ List.length (ids b) = List.length (documents b)
                   /\ List.length (metadatas b) = List.length (documents b))
         (batches chunks).
Proof.
  rewrite batches_parts. apply Forall_map.
  destruct chunks as [|d chunks]; [constructor|].
  eapply Forall_impl; [|apply parts_sizes, rounds_needed; simpl; lia].
  intros p Hp. cbn [batch_of documents ids metadatas].
  rewrite !length_map, length_seq. auto.
Qed.

End IndexFacts.

(* ================================================================== *)
(** * The scan over a table with a store that has no coordinates *)

Module ScanFacts.

Import Geo.

Section Scan.

Variable F : Type.
Variables fadd fsub fmul fdiv : F -> F -> F.
Variable of_int : Z -> F.
Variable radians : F -> F.
Variables sin cos sqrt : F -> option F.
Variable atan2 : F -> F -> F.
Variable square : F -> F.
Variable round1 : F -> F.
Variable ltb : F -> F -> bool.

#[local] Abbreviation distance_to :=
  (store_distance fadd fsub fmul fdiv of_int
                  radians sin cos sqrt atan2 square round1).

#[local] Abbreviation scan_from :=
  (scan fadd fsub fmul fdiv of_int
        radians sin cos sqrt atan2 square round1 ltb).

(** A row without a latitude raises the error of [math.radians]; a row
    with a latitude and no longitude that of the subtraction. *)
Lemma no_coordinates lat lon (s : store F) :
  store_latitude s = None \/ store_longitude s = None ->
  distance_to lat lon s
  = Raise (match store_latitude s with
           | None => type_error
           | Some _ => operand_error
           end).
Proof.
  unfold store_distance. intros [-> | ->]; [reflexivity|].
  now destruct (store_latitude s).
Qed.

(** The scan raises when a row has no distance. *)
Lemma scan_raises lat lon s e0 rows : forall nearest_store m,
  In s rows -> distance_to lat lon s = Raise e0 ->
  exists e, scan_from lat lon rows nearest_store m = Raise e.
Proof.
  induction rows as [|r rows IH]; intros nearest m Hin Hs; [destruct Hin|].
  cbn [scan].
  destruct (distance_to lat lon r) as [d|e] eqn:Er; cbn [bind]; [|eauto].
  destruct Hin as [-> | Hin]; [congruence|].
  destruct (ltb d m); apply IH; assumption.
Qed.

End Scan.

End ScanFacts.

(* ================================================================== *)
(** * The order and the distances of the real numbers *)

Module RealFacts.

Import Stdlib.Reals.Reals Stdlib.micromega.Lra.

Local Open Scope R_scope.

Lemma ltb_trans a b c :
  RealModel.ltb a b = true -> RealModel.ltb b c = true ->
  RealModel.ltb a c = true.
Proof.
  unfold RealModel.ltb.
  destruct (Rlt_dec a b), (Rlt_dec b c), (Rlt_dec a c);
    try discriminate; try reflexivity; lra.
Qed.

Lemma geb_trans a b c :
  RealModel.ltb a b = false -> RealModel.ltb b c = false ->
  RealModel.ltb a c = false.
Proof.
  unfold RealModel.ltb.
  destruct (Rlt_dec a b), (Rlt_dec b c), (Rlt_dec a c);
    try discriminate; try reflexivity; lra.
Qed.

Lemma ltb_irrefl a : RealModel.ltb a a = false.
Proof. unfold RealModel.ltb. destruct (Rlt_dec a a); [lra | reflexivity]. Qed.

Lemma ltb_zero_far : RealModel.ltb RealModel.zero RealModel.far = true.
Proof.
  unfold RealModel.ltb, RealModel.zero, RealModel.far, RealModel.of_int.
  destruct (Rlt_dec 0 100000000); [reflexivity | lra].
Qed.

Lemma truthy_of_int z : z <> 0%Z ->
  RealModel.float_truthy (RealModel.of_int z) = true.
Proof.
  intros H. unfold RealModel.float_truthy, RealModel.of_int.
  destruct (Req_dec_T (IZR z) 0) as [E | E]; [|reflexivity].
  apply eq_IZR_R0 in E. contradiction.
Qed.

(** The distance from a point to itself. *)
Lemma distance_same_point lat lon :
  RealModel.distance lat lon lat lon = Ok RealModel.zero.
Proof.
  unfold RealModel.distance, Geo.calculate_distance. cbv zeta.
  replace (lat - lat) with RealModel.zero
    by (unfold RealModel.zero, RealModel.of_int; lra).
  replace (lon - lon) with RealModel.zero
    by (unfold RealModel.zero, RealModel.of_int; lra).
  rewrite RealModel.radians_0, RealModel.half_0, RealModel.sin_0.
  unfold RealModel.cos at 1 2. cbn [Geo.math bind].
  rewrite RealModel.square_0.
  replace (RealModel.zero
           + Rtrigo_def.cos (RealModel.radians lat)
             * Rtrigo_def.cos (RealModel.radians lat) * RealModel.zero)
    with RealModel.zero
    by (unfold RealModel.zero, RealModel.of_int; ring).
  rewrite RealModel.sqrt_0. cbn [Geo.math bind].
  rewrite RealModel.sub_1_0, RealModel.sqrt_1. cbn [Geo.math bind].
  now rewrite RealModel.atan2_0_1, RealModel.mul_2_0,
    RealModel.mul_radius_0, RealModel.round1_0.
Qed.

End RealFacts.

(* ================================================================== *)
(** * The numbering of the placeholders *)

Module NumberFacts.

(** The numbers [from], [from + 1], ..., [count] of them. *)
Fixpoint numbers (from : N) (count : nat) : list N :=
  match count with
  | O => []
  | S c => from :: numbers (from + 1) c
  end.

Lemma numbers_snoc count : forall from,
  numbers from (S count) = numbers from count ++ [(from + N.of_nat count)%N].
Proof.
  induction count as [|c IH]; intros from.
  - simpl. now rewrite N.add_0_r.
  - change (numbers from (S (S c)))
      with (from :: numbers (from + 1) (S c)).
    rewrite IH.
    replace (from + N.of_nat (S c))%N with (from + 1 + N.of_nat c)%N by lia.
    reflexivity.
Qed.

Lemma numbers_below from count i :
  In i (numbers from count) -> (i < from + N.of_nat count)%N.
Proof.
  revert from; induction count as [|c IH]; intros from; simpl; [tauto|].
  intros [<- | H]; [lia|]. apply IH in H. lia.
Qed.

(** The phone loop: the keys are the phone placeholders of the numbers
    from 1 up to the counter. *)
Definition numbered (st : state) : Prop :=
  exists k,
    phone_counter st = (1 + N.of_nat k)%N
    /\ keys (mapping st) = map phone_placeholder (numbers 1 k).

Lemma phone_step_numbered st v : numbered st -> numbered (phone_step st v).
Proof.
  intros (k & Hc & Hk). unfold phone_step.
  destruct (truthy (strip v) && negb (mem v (values (mapping st))));
    [|now exists k].
  exists (S k). cbn [phone_counter mapping]. split; [lia|].
  rewrite dict_set_fresh.
  - rewrite keys_snoc, Hk, numbers_snoc, map_app, Hc. reflexivity.
  - rewrite Hk. intros H. apply in_map_iff in H as (i & E & Hi).
    apply phone_placeholder_inj in E. apply numbers_below in Hi. lia.
Qed.

Lemma phones_numbered l : forall st,
  numbered st -> numbered (fold_left phone_step l st).
Proof.
  induction l as [|v l IH]; intros st H; [exact H|].
  simpl. apply IH. now apply phone_step_numbered.
Qed.

Lemma patterns_numbered rs : forall st,
  numbered st -> numbered (fold_left pattern_step rs st).
Proof.
  induction rs as [|r rs IH]; intros st H; [exact H|].
  simpl. apply IH. unfold pattern_step. now apply phones_numbered.
Qed.

Lemma mask_phones_numbered t : numbered (mask_phones t).
Proof. apply patterns_numbered. now exists 0. Qed.

Lemma email_entries_keys l : forall i,
  keys (TableFacts.email_entries i l)
  = map email_placeholder (numbers i (List.length l)).
Proof.
  induction l as [|e l IH]; intros i; [reflexivity|].
  cbn [TableFacts.email_entries List.length numbers map keys fst].
  f_equal. apply IH.
Qed.

End NumberFacts.

(* ================================================================== *)
(** * [dict.update] *)

Module UpdateFacts.

Lemma dict_get_set d k v k' :
  dict_get (dict_set d k v) k'
  = if text_eqb k k' then Some v else dict_get d k'.
Proof.
  induction d as [|[k0 v0] d IH]; simpl.
  - reflexivity.
  - destruct (text_eqb k0 k) eqn:E; simpl.
    + apply text_eqb_eq in E. subst k0. now destruct (text_eqb k k').
    + rewrite IH. destruct (text_eqb k k') eqn:E'; [|reflexivity].
      apply text_eqb_eq in E'. subst k'. now rewrite E.
Qed.

Lemma dict_get_none d k : ~ In k (keys d) -> dict_get d k = None.
Proof.
  induction d as [|[k0 v0] d IH]; simpl; [reflexivity|].
  intros H. destruct (text_eqb k0 k) eqn:E.
  - apply text_eqb_eq in E. tauto.
  - apply IH. tauto.
Qed.

(** After [d.update(e)] a key of [e] has the value of [e], and any
    other key the value it had in [d]. *)
Lemma dict_get_update e : forall d k,
  NoDup (keys e) ->
  dict_get (dict_update d e) k
  = match dict_get e k with
    | Some v => Some v
    | None => dict_get d k
    end.
Proof.
  unfold dict_update. induction e as [|[k0 v0] e IH]; intros d k Hn.
  - reflexivity.
  - inversion Hn as [|? ? Hk0 Hn']; subst.
    cbn [fold_left fst snd dict_get]. rewrite IH by exact Hn'.
    rewrite dict_get_set.
    destruct (text_eqb k0 k) eqn:E; [|reflexivity].
    apply text_eqb_eq in E. subst k0.
    now rewrite (dict_get_none e k Hk0).
Qed.

Lemma dict_set_nodup d k v :
  NoDup (keys d) -> NoDup (keys (dict_set d k v)).
Proof.
  induction d as [|[k0 v0] d IH]; simpl; intros H.
  - constructor; [tauto | constructor].
  - inversion H as [|? ? Hk0 Hd]; subst.
    destruct (text_eqb k0 k) eqn:E; simpl.
    + apply text_eqb_eq in E. subst k0. now constructor.
    + constructor; [|now apply IH].
      intros Hin. apply in_keys in Hin as (w & Hin).
      apply KeyFacts.dict_set_in in Hin as [Hin | Hin].
      * injection Hin as -> _. now rewrite text_eqb_refl in E.
      * apply Hk0. unfold keys. apply in_map_iff.
        now exists (k0, w).
Qed.

Lemma dict_update_nodup e : forall d,
  NoDup (keys d) -> NoDup (keys (dict_update d e)).
Proof.
  unfold dict_update. induction e as [|[k v] e IH]; intros d H; [exact H|].
  cbn [fold_left fst snd]. apply IH. now apply dict_set_nodup.
Qed.

Section Context.

Variable A : Type.
Variable not_a_string : value A -> exn.

(** No key is twice in the table of a masked record. *)
Lemma mask_customer_context_nodup (c masked : context A) table :
  mask_customer_context not_a_string c = Ok (masked, table) ->
  NoDup (keys table).
Proof.
  intros H.
  apply ContextFacts.mask_customer_context_spec in H
    as (_ & _ & _ & _ & -> & _).
  apply dict_update_nodup, dict_update_nodup. constructor.
Qed.

End Context.

End UpdateFacts.

(* ================================================================== *)
(** * Further properties of the code *)

(* ------------------------------------------------------------------ *)
(** ** Masking *)

(** X1.  A text with no digit and no [@] holds nothing to mask:
    [mask_text] returns it unchanged, with an empty table. *)
Theorem mask_text_clean_text (t : text) :
  CleanFacts.no_digit t = true ->
  CleanFacts.no_at t = true ->
  mask_text t = (t, []).
Proof.
  intros Hd Ha. unfold mask_text, mask_emails.
  rewrite (CleanFacts.mask_phones_without_digit t Hd).
  cbn [masked_text mapping].
  now rewrite (CleanFacts.emails_without_at t Ha).
Qed.

Lemma mask_text_clean_text_witness :
  mask_text (txt "Where is my order? I'm cold!")
  = (txt "Where is my order? I'm cold!", []).
Proof. apply mask_text_clean_text; reflexivity. Defined.

(** X2.  Unmasking with the table of any masked text leaves a response
    without an opening bracket as it is: only placeholders are
    rewritten. *)
Theorem unmask_text_without_bracket (t response : text) :
  EchoFacts.no_open response = true ->
  unmask_text response (snd (mask_text t)) = response.
Proof.
  intros H. apply KeyFacts.unmask_text_absent; [|exact H].
  apply KeyFacts.mask_text_keys_open.
Qed.

Lemma unmask_text_without_bracket_witness :
  unmask_text
    (txt "We open at 06:00.")
    (snd (mask_text (txt "Call me at +1-555-0101 or mail a.b@c.org")))
  = txt "We open at 06:00.".
Proof. apply unmask_text_without_bracket. reflexivity. Defined.

Section ContextProperties.

Variable A : Type.
Variable not_a_string : value A -> exn.

#[local] Abbreviation mask_context :=
  (mask_customer_context not_a_string).

#[local] Abbreviation maskable := (@ContextFacts.maskable A).

(** X3.  [mask_customer_context] raises exactly when the phone or the
    email is there and is not a [str] (a [None], a number): the
    [TypeError] is that of the phone when the phone is at fault, else
    that of the email.  When both are a [str] or absent it returns. *)
Theorem mask_customer_context_raises (c : context A) :
  (forall v, context_get c (txt "phone") = Some v ->
             ~ maskable (Some v) ->
             mask_context c = Raise (not_a_string v))
  /\ (forall w, maskable (context_get c (txt "phone")) ->
                context_get c (txt "email") = Some w ->
                ~ maskable (Some w) ->
                mask_context c = Raise (not_a_string w))
  /\ (maskable (context_get c (txt "phone")) ->
      maskable (context_get c (txt "email")) ->
      exists masked, mask_context c = Ok masked).
Proof.
  assert (Hother : forall v,
             context_get (context_set c (txt "phone") v) (txt "email")
             = context_get c (txt "email")).
  { intros v. apply ContextFacts.context_get_set_other. discriminate. }
  unfold mask_customer_context.
  pose proof (ContextFacts.mask_field_cases
                not_a_string (txt "phone") c []) as Hp.
  split; [|split].
  - intros v E Hv. rewrite E in Hp.
    destruct v as [s| |a]; [destruct Hv; exact I | |]; now rewrite Hp.
  - intros w Mp E Hw.
    destruct (context_get c (txt "phone")) as [[s| |a]|];
      try destruct Mp; rewrite Hp; cbn [bind].
    + pose proof (ContextFacts.mask_field_cases
                    not_a_string (txt "email")
                    (context_set c (txt "phone") (Str (fst (mask_text s))))
                    (dict_update [] (snd (mask_text s)))) as He.
      rewrite Hother, E in He.
      destruct w as [s'| |a]; [destruct Hw; exact I | |]; exact He.
    + pose proof (ContextFacts.mask_field_cases
                    not_a_string (txt "email") c []) as He.
      rewrite E in He.
      destruct w as [s'| |a]; [destruct Hw; exact I | |]; exact He.
  - intros Mp Me.
    destruct (context_get c (txt "phone")) as [[s| |a]|];
      try destruct Mp; rewrite Hp; cbn [bind].
    + pose proof (ContextFacts.mask_field_cases
                    not_a_string (txt "email")
                    (context_set c (txt "phone") (Str (fst (mask_text s))))
                    (dict_update [] (snd (mask_text s)))) as He.
      rewrite Hother in He.
      destruct (context_get c (txt "email")) as [[s'| |a]|];
        try destruct Me; eauto.
    + pose proof (ContextFacts.mask_field_cases
                    not_a_string (txt "email") c []) as He.
      destruct (context_get c (txt "email")) as [[s'| |a]|];
        try destruct Me; eauto.
Qed.

(** X4.  When [mask_customer_context] returns, the masked context has
    the keys of the context, in their order; every field but the phone
    and the email is as it was; a phone or an email that was there is
    the masked text of the one given; and the table is the table of the
    phone updated with the table of the email, all of its keys
    placeholders. *)
Theorem mask_customer_context_keeps
        (c masked_context : context A) (all_mappings : dict) :
  mask_context c = Ok (masked_context, all_mappings) ->
  map fst masked_context = map fst c
  /\ (forall k, k <> txt "phone" -> k <> txt "email" ->
                context_get masked_context k = context_get c k)
  /\ (forall s, context_get c (txt "phone") = Some (Str s) ->
                context_get masked_context (txt "phone")
                = Some (Str (fst (mask_text s))))
  /\ (forall s, context_get c (txt "email") = Some (Str s) ->
                context_get masked_context (txt "email")
                = Some (Str (fst (mask_text s))))
  /\ all_mappings
     = dict_update (dict_update [] (ContextFacts.field_table c (txt "phone")))
                   (ContextFacts.field_table c (txt "email"))
  /\ KeyFacts.keys_open all_mappings.
Proof. apply ContextFacts.mask_customer_context_spec. Qed.

End ContextProperties.

Lemma mask_customer_context_keeps_witness :
  exists masked_context all_mappings,
    map fst masked_context = map fst Session.record
    /\ (forall k, k <> txt "phone" -> k <> txt "email" ->
                  context_get masked_context k
                  = context_get Session.record k)
    /\ (forall s, context_get Session.record (txt "phone") = Some (Str s) ->
                  context_get masked_context (txt "phone")
                  = Some (Str (fst (mask_text s))))
    /\ (forall s, context_get Session.record (txt "email") = Some (Str s) ->
                  context_get masked_context (txt "email")
                  = Some (Str (fst (mask_text s))))
    /\ all_mappings
       = dict_update
           (dict_update []
              (ContextFacts.field_table Session.record (txt "phone")))
           (ContextFacts.field_table Session.record (txt "email"))
    /\ KeyFacts.keys_open all_mappings.
Proof.
  eexists. eexists.
  apply (@mask_customer_context_keeps unit Session.not_a_string).
  vm_compute. reflexivity.
Defined.

(* ------------------------------------------------------------------ *)
(** ** The call of the model *)

Section LlmProperties.

Import Llm.

Variable getenv : text -> option text.
Variable groq : Type.
Variable temperature_value : Type.
Variable Groq : option text -> result groq.
Variable create :
  groq -> text -> list message -> temperature_value -> result completion.

#[local] Abbreviation complete := (Llm.complete getenv Groq create).
#[local] Abbreviation call_llm := (Llm.call_llm getenv Groq create).
#[local] Abbreviation call_llm_with_system :=
  (Llm.call_llm_with_system getenv Groq create).

(** X5.  Without a key in the environment, unset or empty, both calls
    raise the error of the missing key as it is, not wrapped as an API
    error, whatever the client would do. *)
Theorem call_llm_without_key
        (system_prompt user_prompt model : text)
        (temperature : temperature_value) :
  key_truthy (getenv (txt "GROQ_API_KEY")) = false ->
  call_llm user_prompt model temperature = Raise key_not_set
  /\ call_llm_with_system system_prompt user_prompt model temperature
     = Raise key_not_set.
Proof.
  intros H.
  unfold Llm.call_llm, Llm.call_llm_with_system, Llm.complete,
    validate_groq_api_key, get_groq_api_key.
  now rewrite H.
Qed.

(** X6.  With a key and a client, when the stream delivers the chunks
    [cs], each with a first choice, and ends, the response is the
    contents of the chunks put together in order and stripped; a chunk
    whose delta or content is [None] or empty adds nothing. *)
Theorem call_llm_with_system_response
        (system_prompt user_prompt model : text)
        (temperature : temperature_value)
        (client : groq) (cs : list chunk) :
  key_truthy (getenv (txt "GROQ_API_KEY")) = true ->
  Groq (getenv (txt "GROQ_API_KEY")) = Ok client ->
  create client model
         [Message System system_prompt; Message User user_prompt]
         temperature
  = Ok (StreamFacts.stream_of cs Finished) ->
  Forall StreamFacts.has_choice cs ->
  call_llm_with_system system_prompt user_prompt model temperature
  = Ok (strip (List.concat (map StreamFacts.said cs))).
Proof.
  intros Hk Hg Hc Hcs.
  unfold Llm.call_llm_with_system, Llm.complete,
    validate_groq_api_key, get_groq_api_key.
  rewrite Hk. cbn [negb bind]. rewrite Hg. cbn [bind]. rewrite Hc.
  cbn [bind]. rewrite StreamFacts.collect_chunks by exact Hcs.
  reflexivity.
Qed.

(** X7.  With a key and a client, whatever goes wrong inside the call
    comes out as one exception whose text is the text of the cause after
    "Error calling Groq API: ": a failure of [create], a stream that
    breaks after any number of chunks, a chunk with no choice.  What
    the stream had delivered so far is dropped.  An exception of the
    constructor of the client is not wrapped. *)
Theorem call_llm_errors_wrapped
        (messages : list message) (model : text)
        (temperature : temperature_value) :
  key_truthy (getenv (txt "GROQ_API_KEY")) = true ->
  (forall e,
      Groq (getenv (txt "GROQ_API_KEY")) = Raise e ->
      complete messages model temperature = Raise e)
  /\ (forall client e,
        Groq (getenv (txt "GROQ_API_KEY")) = Ok client ->
        create client model messages temperature = Raise e ->
        complete messages model temperature = Raise (api_error e))
  /\ (forall client cs e,
        Groq (getenv (txt "GROQ_API_KEY")) = Ok client ->
        create client model messages temperature
        = Ok (StreamFacts.stream_of cs (Interrupted e)) ->
        Forall StreamFacts.has_choice cs ->
        complete messages model temperature = Raise (api_error e))
  /\ (forall client cs c rest,
        Groq (getenv (txt "GROQ_API_KEY")) = Ok client ->
        create client model messages temperature
        = Ok (StreamFacts.stream_of cs (Yield c rest)) ->
        Forall StreamFacts.has_choice cs ->
        choices c = [] ->
        complete messages model temperature
        = Raise (api_error index_error)).
Proof.
  intros Hk.
  unfold Llm.complete, validate_groq_api_key, get_groq_api_key.
  rewrite Hk. cbn [negb bind].
  split; [|split; [|split]].
  - intros e Hg. now rewrite Hg.
  - intros client e Hg Hc. rewrite Hg. cbn [bind]. now rewrite Hc.
  - intros client cs e Hg Hc Hcs. rewrite Hg. cbn [bind]. rewrite Hc.
    cbn [bind]. now rewrite StreamFacts.collect_chunks by exact Hcs.
  - intros client cs c rest Hg Hc Hcs E. rewrite Hg. cbn [bind].
    rewrite Hc. cbn [bind].
    now rewrite StreamFacts.collect_no_choice by assumption.
Qed.

(** X8.  A response that the call returns has no white space at its
    start and none at its end. *)
Theorem call_llm_response_stripped
        (messages : list message) (model : text)
        (temperature : temperature_value) (response : text) :
  complete messages model temperature = Ok response ->
  (forall c, hd_error response = Some c -> is_space c = false)
  /\ (forall c, hd_error (rev response) = Some c -> is_space c = false).
Proof.
  unfold Llm.complete. intros H.
  destruct validate_groq_api_key; [|discriminate]. cbn [bind] in H.
  destruct (Groq (get_groq_api_key getenv)) as [client|]; [|discriminate].
  cbn [bind] in H.
  destruct (create client model messages temperature) as [stream|];
    [|discriminate].
  cbn [bind try_except] in H.
  destruct (collect stream []) as [full|]; [|discriminate].
  cbn [bind] in H. injection H as <-.
  split; intros c.
  - apply StripFacts.strip_head.
  - apply StripFacts.strip_last.
Qed.

End LlmProperties.

Lemma call_llm_without_key_witness :
  Llm.call_llm Service.without_key Service.Groq Service.answers
               (txt "Is the store open?") Llm.DEFAULT_MODEL_NAME tt
  = Raise Llm.key_not_set
  /\ Llm.call_llm_with_system
       Service.without_key Service.Groq Service.answers
       Prompt.system_prompt (txt "Is the store open?")
       Llm.DEFAULT_MODEL_NAME tt
     = Raise Llm.key_not_set.
Proof. apply call_llm_without_key. reflexivity. Defined.

Lemma call_llm_with_system_response_witness :
  Llm.call_llm_with_system
    Service.with_key Service.Groq Service.answers
    Prompt.system_prompt (txt "Is the store open?")
    Llm.DEFAULT_MODEL_NAME tt
  = Ok (strip (List.concat (map StreamFacts.said Service.chunks))).
Proof.
  apply (@call_llm_with_system_response
           Service.with_key unit unit Service.Groq Service.answers
           Prompt.system_prompt (txt "Is the store open?")
           Llm.DEFAULT_MODEL_NAME tt tt Service.chunks).
  - reflexivity.
  - reflexivity.
  - reflexivity.
  - repeat constructor; discriminate.
Defined.

Lemma call_llm_errors_wrapped_witness :
  (forall e,
      Service.Groq (Service.with_key (txt "GROQ_API_KEY")) = Raise e ->
      Llm.complete Service.with_key Service.Groq Service.breaks
                   [Llm.Message Llm.User (txt "Is the store open?")]
                   Llm.DEFAULT_MODEL_NAME tt
      = Raise e)
  /\ (forall client e,
        Service.Groq (Service.with_key (txt "GROQ_API_KEY")) = Ok client ->
        Service.breaks client Llm.DEFAULT_MODEL_NAME
                       [Llm.Message Llm.User (txt "Is the store open?")] tt
        = Raise e ->
        Llm.complete Service.with_key Service.Groq Service.breaks
                     [Llm.Message Llm.User (txt "Is the store open?")]
                     Llm.DEFAULT_MODEL_NAME tt
        = Raise (Llm.api_error e))
  /\ (forall client cs e,
        Service.Groq (Service.with_key (txt "GROQ_API_KEY")) = Ok client ->
        Service.breaks client Llm.DEFAULT_MODEL_NAME
                       [Llm.Message Llm.User (txt "Is the store open?")] tt
        = Ok (StreamFacts.stream_of cs (Llm.Interrupted e)) ->
        Forall StreamFacts.has_choice cs ->
        Llm.complete Service.with_key Service.Groq Service.breaks
                     [Llm.Message Llm.User (txt "Is the store open?")]
                     Llm.DEFAULT_MODEL_NAME tt
        = Raise (Llm.api_error e))
  /\ (forall client cs c rest,
        Service.Groq (Service.with_key (txt "GROQ_API_KEY")) = Ok client ->
        Service.breaks client Llm.DEFAULT_MODEL_NAME
                       [Llm.Message Llm.User (txt "Is the store open?")] tt
        = Ok (StreamFacts.stream_of cs (Llm.Yield c rest)) ->
        Forall StreamFacts.has_choice cs ->
        Llm.choices c = [] ->
        Llm.complete Service.with_key Service.Groq Service.breaks
                     [Llm.Message Llm.User (txt "Is the store open?")]
                     Llm.DEFAULT_MODEL_NAME tt
        = Raise (Llm.api_error Llm.index_error)).
Proof. apply call_llm_errors_wrapped. reflexivity. Defined.

Lemma call_llm_response_stripped_witness :
  (forall c, hd_error (txt "Hello, Neeraj!") = Some c -> is_space c = false)
  /\ (forall c, hd_error (rev (txt "Hello, Neeraj!")) = Some c ->
                is_space c = false).
Proof.
  apply (@call_llm_response_stripped
           Service.with_key unit unit Service.Groq Service.answers
           [Llm.Message Llm.User (txt "Is the store open?")]
           Llm.DEFAULT_MODEL_NAME tt).
  reflexivity.
Defined.

(* ------------------------------------------------------------------ *)
(** ** The prompt *)

Section PromptProperties.

Import Llm Prompt.

Variable F : Type.
Variable float_str : F -> text.
Variable rows_str : list (row F) -> text.
Variable float_truthy : F -> bool.
Variable not_rows : value (item F) -> exn.
Variable not_a_string : value (item F) -> exn.

#[local] Abbreviation build_prompt :=
  (Prompt.build_prompt float_str rows_str float_truthy not_rows).

(** X9.  The user prompt that [build_prompt] returns ends with the
    header of the customer message, a line break and the message as it
    was given; the system prompt is always the same text.  With an
    empty customer context, no store and no document the user prompt is
    nothing but that. *)
Theorem build_prompt_message_last
        (customer_ctx : context (item F)) (store_ctx : option (row F))
        (rag_docs : list text) (user_message : text) :
  (forall sp up,
      build_prompt customer_ctx store_ctx rag_docs user_message = Ok (sp, up) ->
      sp = system_prompt
      /\ exists before,
           up = before ++ message_header ++ [newline] ++ user_message)
  /\ build_prompt [] None [] user_message
     = Ok (system_prompt, message_header ++ [newline] ++ user_message)
  /\ build_prompt [] (Some []) [] user_message
     = Ok (system_prompt, message_header ++ [newline] ++ user_message).
Proof.
  split; [|split; reflexivity].
  intros sp up H.
  apply PromptFacts.build_prompt_end in H as (-> & parts & ->).
  split; [reflexivity|]. eauto.
Qed.

(** X10.  [build_prompt] reads neither the phone nor the email of the
    customer context: the prompts built from a record and from the
    record that [mask_customer_context] returns for it are the same,
    result or exception. *)
Theorem build_prompt_ignores_masking
        (c masked : context (item F)) (table : dict)
        (store_ctx : option (row F)) (rag_docs : list text)
        (user_message : text) :
  mask_customer_context not_a_string c = Ok (masked, table) ->
  build_prompt masked store_ctx rag_docs user_message
  = build_prompt c store_ctx rag_docs user_message.
Proof.
  intros H. apply PromptFacts.build_prompt_agree.
  eapply MaskedPromptFacts.mask_agree. exact H.
Qed.

(** X11.  Of the recent orders only the first three are written, after
    a header with the number of all of them: two lists of orders of the
    same length with the same first three give the same prompt. *)
Theorem build_prompt_lists_three_orders
        (c : context (item F)) (orders orders' : list (row F))
        (store_ctx : option (row F)) (rag_docs : list text)
        (user_message : text) :
  context_get c (txt "recent_orders") = Some (Other (Rows orders)) ->
  List.length orders' = List.length orders ->
  firstn 3 orders' = firstn 3 orders ->
  build_prompt (context_set c (txt "recent_orders") (Other (Rows orders')))
               store_ctx rag_docs user_message
  = build_prompt c store_ctx rag_docs user_message.
Proof.
  intros Hc Hl Hf.
  assert (Hp : context_get c (txt "recent_orders") <> None) by congruence.
  assert (Hget : context_get
                   (context_set c (txt "recent_orders") (Other (Rows orders')))
                   (txt "recent_orders")
                 = Some (Other (Rows orders'))).
  { now apply ContextFacts.context_get_set_same. }
  assert (Hother : forall k, k <> txt "recent_orders" ->
             context_get
               (context_set c (txt "recent_orders") (Other (Rows orders'))) k
             = context_get c k).
  { intros k Hk. now apply ContextFacts.context_get_set_other. }
  unfold Prompt.build_prompt.
  rewrite !PromptFacts.customer_part_some.
  2: { intros E. rewrite E in Hc. discriminate. }
  2: { intros E. rewrite E in Hget. discriminate. }
  unfold Prompt.orders_part, Prompt.coupons_part, customer_get.
  rewrite Hget, Hc, !Hother by discriminate.
  replace (value_truthy float_truthy (Other (Rows orders')))
    with (value_truthy float_truthy (Other (Rows orders)))
    by (destruct orders, orders'; simpl in *; congruence).
  now rewrite Hf, Hl.
Qed.

(** X12.  [build_prompt] returns for every store context, documents and
    message when, in the customer context, the first three recent
    orders have an item name, a size and a status and every active
    coupon has a description and an end date (each list may also be
    absent or a false value).  A first order without the key
    [item_name] raises the [KeyError] of that key. *)
Theorem build_prompt_total
        (c : context (item F)) (store_ctx : option (row F))
        (rag_docs : list text) (user_message : text) :
  (PromptFacts.listing float_truthy
     (context_get c (txt "recent_orders"))
     (fun l => Forall (PromptFacts.has_keys PromptFacts.order_keys)
                      (firstn 3 l)) ->
   PromptFacts.listing float_truthy
     (context_get c (txt "active_coupons"))
     (fun l => Forall (PromptFacts.has_keys PromptFacts.coupon_keys) l) ->
   exists up,
     build_prompt c store_ctx rag_docs user_message = Ok (system_prompt, up))
  /\ (forall order rest,
        context_get c (txt "recent_orders")
        = Some (Other (Rows (order :: rest))) ->
        context_get order (txt "item_name") = None ->
        build_prompt c store_ctx rag_docs user_message
        = Raise (key_error (txt "item_name"))).
Proof.
  split.
  - apply PromptFacts.build_prompt_ok.
  - intros order rest Hc Hk.
    unfold Prompt.build_prompt, Prompt.customer_part.
    destruct c as [|x c]; [discriminate|].
    unfold Prompt.orders_part. rewrite Hc.
    cbn [value_truthy firstn lines]. unfold Prompt.order_line at 1.
    unfold subscript at 1. now rewrite Hk.
Qed.

(** X13.  The name of the customer is not masked: when the record has a
    name, the prompt built from the masked record holds the line of the
    name with the name as it is in the record. *)
Theorem customer_name_in_prompt
        (c masked : context (item F)) (table : dict) (name : text)
        (store_ctx : option (row F)) (rag_docs : list text)
        (user_message sp up : text) :
  mask_customer_context not_a_string c = Ok (masked, table) ->
  context_get c (txt "name") = Some (Str name) ->
  build_prompt masked store_ctx rag_docs user_message = Ok (sp, up) ->
  occurs (txt "Name: " ++ name) up = true.
Proof.
  intros Hm Hn H.
  rewrite (PromptFacts.build_prompt_agree
             float_str rows_str float_truthy not_rows
             store_ctx rag_docs user_message
             (MaskedPromptFacts.mask_agree not_a_string c Hm)) in H.
  unfold Prompt.build_prompt in H.
  rewrite PromptFacts.customer_part_some in H
    by (intros E; rewrite E in Hn; discriminate).
  destruct (Prompt.orders_part float_str float_truthy not_rows c)
    as [os|]; [|discriminate].
  destruct (Prompt.coupons_part float_str float_truthy not_rows c)
    as [cs|]; [|discriminate].
  unfold customer_get at 1 in H. rewrite Hn in H.
  cbn [bind app value_str] in H. rewrite !PromptFacts.join_cons in H.
  injection H as _ <-.
  apply KeepFacts.occurs_holds.
  eexists (customer_header ++ [newline]), _.
  rewrite <- !app_assoc. reflexivity.
Qed.

End PromptProperties.

Lemma build_prompt_ignores_masking_witness :
  exists masked table,
    mask_customer_context Demo.not_a_string (Demo.get_customer_context 1)
    = Ok (masked, table)
    /\ Demo.build_prompt masked Demo.nearby [txt "Hot drinks: cocoa."]
                         (txt "I'm cold")
       = Demo.build_prompt (Demo.get_customer_context 1) Demo.nearby
                           [txt "Hot drinks: cocoa."] (txt "I'm cold").
Proof.
  eexists. eexists. split.
  - vm_compute. reflexivity.
  - eapply (@build_prompt_ignores_masking
              Demo.float Demo.float_str Demo.rows_str Demo.float_truthy
              Demo.not_rows Demo.not_a_string).
    vm_compute. reflexivity.
Defined.

Lemma build_prompt_lists_three_orders_witness :
  let c := Demo.get_customer_context 1 in
  let orders :=
    map (@Db.order_dict Demo.float)
        (Db.recent_orders Demo.order_by_desc Demo.db 1) in
  let orders' := firstn 3 orders ++ [[]; []] in
  Demo.build_prompt
    (context_set c (txt "recent_orders") (Other (Prompt.Rows orders')))
    Demo.nearby [] (txt "Where is my order?")
  = Demo.build_prompt c Demo.nearby [] (txt "Where is my order?").
Proof.
  intros c orders orders'.
  apply (@build_prompt_lists_three_orders
           Demo.float Demo.float_str Demo.rows_str Demo.float_truthy
           Demo.not_rows c orders orders').
  - reflexivity.
  - reflexivity.
  - reflexivity.
Defined.

Lemma customer_name_in_prompt_witness :
  exists masked table sp up,
    mask_customer_context Demo.not_a_string (Demo.get_customer_context 1)
    = Ok (masked, table)
    /\ Demo.build_prompt masked Demo.nearby [] (txt "Where is my order?")
       = Ok (sp, up)
    /\ occurs (txt "Name: " ++ txt "Neeraj Kumar") up = true.
Proof.
  eexists. eexists. eexists. eexists. split; [|split].
  - vm_compute. reflexivity.
  - vm_compute. reflexivity.
  - eapply (@customer_name_in_prompt
              Demo.float Demo.float_str Demo.rows_str Demo.float_truthy
              Demo.not_rows Demo.not_a_string
              (Demo.get_customer_context 1) _ _ (txt "Neeraj Kumar")
              Demo.nearby [] (txt "Where is my order?")).
    + vm_compute. reflexivity.
    + reflexivity.
    + vm_compute. reflexivity.
Defined.

(* ------------------------------------------------------------------ *)
(** ** The customer context of the database *)

Section DbProperties.

Import Llm Prompt.

Variable F : Type.
Variable order_by_desc :
  forall A : Type, (A -> option text) -> list A -> list A.
Variable float_str : F -> text.
Variable rows_str : list (row F) -> text.
Variable float_truthy : F -> bool.
Variable not_rows : value (item F) -> exn.
Variable not_a_string : value (item F) -> exn.

#[local] Abbreviation get_customer_context :=
  (Db.get_customer_context order_by_desc).
#[local] Abbreviation build_prompt :=
  (Prompt.build_prompt float_str rows_str float_truthy not_rows).

(** What the engine's sort returns was in the list it was given. *)
Hypothesis order_by_desc_in :
  forall (A : Type) (key : A -> option text) (l : list A) (x : A),
    In x (order_by_desc key l) -> In x l.

(** X14.  In the context of a customer there are at most five recent
    orders; each of them is an order of that customer at a store of the
    table of stores, whose name it carries; and every coupon listed is
    a coupon of that customer that is active. *)
Theorem get_customer_context_queries
        (db : Db.database F) (customer_id : Z)
        (orders coupons : list (row F)) :
  context_get (get_customer_context db customer_id) (txt "recent_orders")
  = Some (Other (Rows orders)) ->
  context_get (get_customer_context db customer_id) (txt "active_coupons")
  = Some (Other (Rows coupons)) ->
  List.length orders <= 5
  /\ Forall
       (fun r =>
          context_get r (txt "customer_id") = Some (Other (Int customer_id))
          /\ exists s,
               In s (Db.stores db)
               /\ context_get r (txt "store_id")
                  = Some (Other (Int (Geo.store_id s)))
               /\ context_get r (txt "store_name")
                  = Some (Str (Geo.store_name s)))
       orders
  /\ Forall
       (fun r =>
          context_get r (txt "customer_id") = Some (Other (Int customer_id))
          /\ context_get r (txt "is_active") = Some (Other (Int 1)))
       coupons.
Proof.
  intros Ho Hc.
  destruct (Db.customer_row db customer_id) as [c|] eqn:E.
  2: { rewrite (DbFacts.unknown_customer order_by_desc db customer_id E) in Ho.
       discriminate. }
  destruct (DbFacts.known_customer order_by_desc db customer_id E)
    as (_ & _ & _ & _ & Eo & Ec).
  rewrite Eo in Ho. rewrite Ec in Hc.
  injection Ho as <-. injection Hc as <-.
  split; [|split].
  - rewrite length_map. unfold Db.recent_orders. apply firstn_le_length.
  - apply Forall_forall. intros r Hr.
    apply in_map_iff in Hr as ([o s] & <- & Hin).
    unfold Db.recent_orders in Hin.
    apply DbFacts.firstn_in in Hin. apply order_by_desc_in in Hin.
    apply in_flat_map in Hin as (o' & Ho' & Hs).
    apply in_map_iff in Hs as (s' & Hp & Hs). injection Hp as -> ->.
    apply filter_In in Ho' as [_ Ecust].
    apply filter_In in Hs as [Hs Estore].
    apply DbFacts.equals_eq in Ecust. apply DbFacts.equals_eq in Estore.
    cbn. rewrite Ecust, Estore. split; [reflexivity|].
    exists s. auto.
  - apply Forall_forall. intros r Hr.
    apply in_map_iff in Hr as (k & <- & Hin).
    unfold Db.active_coupons in Hin.
    apply order_by_desc_in in Hin.
    apply filter_In in Hin as [_ Hk].
    apply andb_true_iff in Hk as [Ecust Eact].
    apply DbFacts.equals_eq in Ecust. apply DbFacts.equals_eq in Eact.
    cbn. now rewrite Ecust, Eact.
Qed.

(** X15.  Masking the context of a customer of the database: for an id
    that is not in the table it returns the empty context and the empty
    table; for a customer whose email is [NULL] it raises the
    [TypeError] of [None]; for a customer with an email it returns, and
    the phone and the email of the masked context are the masked texts
    of those of the row. *)
Theorem mask_customer_context_of_database
        (db : Db.database F) (customer_id : Z) :
  (Db.customer_row db customer_id = None ->
   mask_customer_context not_a_string (get_customer_context db customer_id)
   = Ok ([], []))
  /\ (forall c,
        Db.customer_row db customer_id = Some c ->
        Db.email c = None ->
        mask_customer_context not_a_string
                              (get_customer_context db customer_id)
        = Raise (not_a_string Null))
  /\ (forall c email,
        Db.customer_row db customer_id = Some c ->
        Db.email c = Some email ->
        exists masked table,
          mask_customer_context not_a_string
                                (get_customer_context db customer_id)
          = Ok (masked, table)
          /\ context_get masked (txt "phone")
             = Some (Str (fst (mask_text (Db.phone c))))
          /\ context_get masked (txt "email")
             = Some (Str (fst (mask_text email)))).
Proof.
  split; [|split].
  - intros E. now rewrite (DbFacts.unknown_customer order_by_desc db _ E).
  - intros c E He. unfold Db.get_customer_context. rewrite E, He.
    reflexivity.
  - intros c email E He. unfold Db.get_customer_context. rewrite E, He.
    eexists. eexists. split; [reflexivity|]. split; reflexivity.
Qed.

(** X16.  [build_prompt] never fails on the context of a customer of
    the database, and neither on that context masked: the rows of the
    two queries have the keys that the prompt reads. *)
Theorem build_prompt_of_database
        (db : Db.database F) (customer_id : Z)
        (store_ctx : option (row F)) (rag_docs : list text)
        (user_message : text) :
  (exists up,
      build_prompt (get_customer_context db customer_id)
                   store_ctx rag_docs user_message
      = Ok (system_prompt, up))
  /\ (forall masked table,
        mask_customer_context not_a_string
                              (get_customer_context db customer_id)
        = Ok (masked, table) ->
        exists up,
          build_prompt masked store_ctx rag_docs user_message
          = Ok (system_prompt, up)).
Proof.
  assert (H : exists up,
             build_prompt (get_customer_context db customer_id)
                          store_ctx rag_docs user_message
             = Ok (system_prompt, up)).
  { destruct (DbFacts.context_listings order_by_desc db customer_id
                                        float_truthy) as [Ho Hc].
    now apply PromptFacts.build_prompt_ok. }
  split; [exact H|].
  intros masked table Hm.
  rewrite (PromptFacts.build_prompt_agree
             float_str rows_str float_truthy not_rows
             store_ctx rag_docs user_message
             (MaskedPromptFacts.mask_agree not_a_string _ Hm)).
  exact H.
Qed.

End DbProperties.

Lemma get_customer_context_queries_witness :
  exists orders coupons,
    context_get (Demo.get_customer_context 1) (txt "recent_orders")
    = Some (Other (Prompt.Rows orders))
    /\ context_get (Demo.get_customer_context 1) (txt "active_coupons")
       = Some (Other (Prompt.Rows coupons))
    /\ List.length orders <= 5
    /\ Forall
         (fun r =>
            context_get r (txt "customer_id") = Some (Other (Prompt.Int 1))
            /\ exists s,
                 In s (Db.stores Demo.db)
                 /\ context_get r (txt "store_id")
                    = Some (Other (Prompt.Int (Geo.store_id s)))
                 /\ context_get r (txt "store_name")
                    = Some (Str (Geo.store_name s)))
         orders
    /\ Forall
         (fun r =>
            context_get r (txt "customer_id") = Some (Other (Prompt.Int 1))
            /\ context_get r (txt "is_active") = Some (Other (Prompt.Int 1)))
         coupons.
Proof.
  eexists. eexists. split; [reflexivity|]. split; [reflexivity|].
  apply (@get_customer_context_queries
           Demo.float Demo.order_by_desc Demo.order_by_desc_in Demo.db 1).
  - reflexivity.
  - reflexivity.
Defined.

(* ------------------------------------------------------------------ *)
(** ** [process_message] and what it calls *)

Section AppProperties.

Variable A : Type.
Variable store_context : Type.
Variable not_a_string : value A -> exn.
Variable get_customer_context : Z -> result (context A).
Variable get_nearest_store_for_customer : Z -> result store_context.
Variable rag_retrieve : text -> nat -> result (list text).
Variable st_warning : text -> result unit.
Variable build_prompt :
  context A -> store_context -> list text -> text -> result (text * text).

#[local] Abbreviation retrieved :=
  (App.retrieve_documents rag_retrieve st_warning).

Section AnyModel.

Variable call_llm_with_system : text -> text -> result text.

#[local] Abbreviation process_with :=
  (App.process_message not_a_string get_customer_context
     get_nearest_store_for_customer rag_retrieve st_warning
     call_llm_with_system build_prompt).

(** X17.  When every step before it succeeds and the model answers
    with a text that has no opening bracket, [process_message] returns
    the answer of the model as it is: the tables of the message and of
    the record only rewrite placeholders. *)
Theorem process_message_plain_response
        (user_message : text) (customer_id : Z)
        (customer_ctx : context A) (store_ctx : store_context)
        (masked : context A * dict) (rag_docs : list text)
        (prompts : text * text) (response : text) :
  get_customer_context customer_id = Ok customer_ctx ->
  get_nearest_store_for_customer customer_id = Ok store_ctx ->
  mask_customer_context not_a_string customer_ctx = Ok masked ->
  retrieved (fst (mask_text user_message)) = Ok rag_docs ->
  build_prompt (fst masked) store_ctx rag_docs (fst (mask_text user_message))
  = Ok prompts ->
  call_llm_with_system (fst prompts) (snd prompts) = Ok response ->
  EchoFacts.no_open response = true ->
  process_with user_message customer_id = Ok response.
Proof.
  intros Hc Hs Hm Hd Hb Hl Hr.
  unfold App.process_message, App.process_message_body.
  rewrite Hc. cbn [bind]. rewrite Hs. cbn [bind]. rewrite Hm. cbn [bind].
  rewrite Hd. cbn [bind]. rewrite Hb. cbn [bind]. rewrite Hl.
  cbn [bind try_except]. f_equal.
  apply KeyFacts.unmask_text_absent; [|exact Hr].
  unfold App.merged_mapping. apply KeyFacts.dict_update_open.
  - apply KeyFacts.mask_text_keys_open.
  - destruct masked as [masked_ctx table].
    eapply ContextFacts.mask_customer_context_open. exact Hm.
Qed.

(** X28.  For a customer context with no phone and no email, when the
    model answers with the masked message itself, [process_message]
    returns the message of the user: the text is masked on the way out
    and restored on the way back, for every message without a
    placeholder-shaped substring and with fewer than 10^9 phone
    placeholders. *)
Theorem process_message_echo_round_trip
        (user_message : text) (customer_id : Z)
        (customer_ctx : context A) (store_ctx : store_context)
        (rag_docs : list text) (prompts : text * text) :
  get_customer_context customer_id = Ok customer_ctx ->
  context_get customer_ctx (txt "phone") = None ->
  context_get customer_ctx (txt "email") = None ->
  get_nearest_store_for_customer customer_id = Ok store_ctx ->
  retrieved (fst (mask_text user_message)) = Ok rag_docs ->
  build_prompt customer_ctx store_ctx rag_docs (fst (mask_text user_message))
  = Ok prompts ->
  call_llm_with_system (fst prompts) (snd prompts)
  = Ok (fst (mask_text user_message)) ->
  has_placeholder user_message = false ->
  (phones_assigned user_message < 1000000000)%N ->
  process_with user_message customer_id = Ok user_message.
Proof.
  intros Hc Hp He Hs Hd Hb Hl Hfree Hbound.
  unfold App.process_message, App.process_message_body.
  rewrite Hc. cbn [bind]. rewrite Hs. cbn [bind].
  unfold mask_customer_context, mask_field. rewrite Hp. cbn [bind].
  rewrite He. cbn [bind fst snd]. rewrite Hd. cbn [bind]. rewrite Hb.
  cbn [bind]. rewrite Hl. cbn [bind try_except]. f_equal.
  unfold App.merged_mapping, dict_update. cbn [fold_left].
  unfold mask_text. cbn [fst snd].
  apply email_inv_round_trip; [|exact Hfree].
  apply mask_emails_inv, mask_phones_inv.
  unfold phones_assigned in Hbound. unfold bound. lia.
Qed.

End AnyModel.

Section GroqModel.

Variable getenv : text -> option text.
Variable groq : Type.
Variable temperature_value : Type.
Variable Groq : option text -> result groq.
Variable create :
  groq -> text -> list Llm.message -> temperature_value ->
  result Llm.completion.

(** The default temperature, [0.7]. *)
Variable default_temperature : temperature_value.

(** [call_llm_with_system(system_prompt, user_prompt)] with the default
    model and temperature. *)
Definition call_with_defaults (system_prompt user_prompt : text)
  : result text :=
  Llm.call_llm_with_system getenv Groq create system_prompt user_prompt
                           Llm.DEFAULT_MODEL_NAME default_temperature.

#[local] Abbreviation process_groq :=
  (App.process_message not_a_string get_customer_context
     get_nearest_store_for_customer rag_retrieve st_warning
     call_with_defaults build_prompt).

(** X18.  Without a key in the environment every message is answered
    with an apology; when the steps before the call of the model
    succeed, it is the apology for the missing key. *)
Theorem process_message_without_key
        (user_message : text) (customer_id : Z) :
  Llm.key_truthy (getenv (txt "GROQ_API_KEY")) = false ->
  (exists e, process_groq user_message customer_id = Ok (App.apology e))
  /\ (forall customer_ctx store_ctx masked rag_docs prompts,
        get_customer_context customer_id = Ok customer_ctx ->
        get_nearest_store_for_customer customer_id = Ok store_ctx ->
        mask_customer_context not_a_string customer_ctx = Ok masked ->
        retrieved (fst (mask_text user_message)) = Ok rag_docs ->
        build_prompt (fst masked) store_ctx rag_docs
                     (fst (mask_text user_message))
        = Ok prompts ->
        process_groq user_message customer_id
        = Ok (App.apology Llm.key_not_set)).
Proof.
  intros Hk.
  assert (Hcall : forall sp up,
             call_with_defaults sp up = Raise Llm.key_not_set).
  { intros sp up. unfold call_with_defaults, Llm.call_llm_with_system,
      Llm.complete, Llm.validate_groq_api_key, Llm.get_groq_api_key.
    now rewrite Hk. }
  unfold App.process_message, App.process_message_body.
  split.
  - destruct (get_customer_context customer_id) as [ctx|e];
      [|now exists e].
    cbn [bind].
    destruct (get_nearest_store_for_customer customer_id) as [st|e];
      [|now exists e].
    cbn [bind].
    destruct (mask_customer_context not_a_string ctx) as [mc|e];
      [|now exists e].
    cbn [bind].
    destruct (retrieved (fst (mask_text user_message))) as [docs|e];
      [|now exists e].
    cbn [bind].
    destruct (build_prompt (fst mc) st docs (fst (mask_text user_message)))
      as [prompts|e]; [|now exists e].
    cbn [bind]. rewrite Hcall. now exists Llm.key_not_set.
  - intros ctx st mc docs prompts Hc Hs Hm Hd Hb.
    rewrite Hc. cbn [bind]. rewrite Hs. cbn [bind]. rewrite Hm. cbn [bind].
    rewrite Hd. cbn [bind]. rewrite Hb. cbn [bind]. now rewrite Hcall.
Qed.

End GroqModel.

End AppProperties.

Section DatabaseSession.

Import Prompt.

Variable F : Type.
Variable order_by_desc :
  forall A : Type, (A -> option text) -> list A -> list A.
Variable store_context : Type.
Variable not_a_string : value (item F) -> exn.
Variable get_nearest_store_for_customer : Z -> result store_context.
Variable rag_retrieve : text -> nat -> result (list text).
Variable st_warning : text -> result unit.
Variable call_llm_with_system : text -> text -> result text.
Variable build_prompt :
  context (item F) -> store_context -> list text -> text ->
  result (text * text).

(** X19.  For a customer of the database whose email is [NULL], once
    the store is found, [process_message] answers every message with
    the apology for the [TypeError] of masking [None], whatever the
    retrieval and the model would do. *)
Theorem process_message_null_email
        (db : Db.database F) (user_message : text) (customer_id : Z)
        (c : Db.customer F) (store_ctx : store_context) :
  Db.customer_row db customer_id = Some c ->
  Db.email c = None ->
  get_nearest_store_for_customer customer_id = Ok store_ctx ->
  App.process_message
    not_a_string
    (fun id => Ok (Db.get_customer_context order_by_desc db id))
    get_nearest_store_for_customer rag_retrieve st_warning
    call_llm_with_system build_prompt user_message customer_id
  = Ok (App.apology (not_a_string Null)).
Proof.
  intros Hc He Hs.
  unfold App.process_message, App.process_message_body.
  cbn [bind]. rewrite Hs. cbn [bind].
  unfold Db.get_customer_context. rewrite Hc, He. reflexivity.
Qed.

End DatabaseSession.

Lemma process_message_plain_response_witness :
  App.process_message
    Session.not_a_string Session.get_customer_context
    Session.get_nearest_store_for_customer Session.rag_retrieve
    Session.st_warning Session.greeting Session.build_prompt
    Session.message 1
  = Ok (txt "Hello!").
Proof.
  eapply (@process_message_plain_response
            unit unit Session.not_a_string Session.get_customer_context
            Session.get_nearest_store_for_customer Session.rag_retrieve
            Session.st_warning Session.build_prompt Session.greeting
            Session.message 1).
  - reflexivity.
  - reflexivity.
  - vm_compute. reflexivity.
  - reflexivity.
  - reflexivity.
  - reflexivity.
  - reflexivity.
Defined.

Lemma process_message_without_key_witness :
  (exists e,
      App.process_message
        Session.not_a_string Session.get_customer_context
        Session.get_nearest_store_for_customer Session.rag_retrieve
        Session.st_warning
        (call_with_defaults Service.without_key Service.Groq
                            Service.answers tt)
        Session.build_prompt Session.message 1
      = Ok (App.apology e))
  /\ (forall customer_ctx store_ctx masked rag_docs prompts,
        Session.get_customer_context 1 = Ok customer_ctx ->
        Session.get_nearest_store_for_customer 1 = Ok store_ctx ->
        mask_customer_context Session.not_a_string customer_ctx
        = Ok masked ->
        App.retrieve_documents Session.rag_retrieve Session.st_warning
                               (fst (mask_text Session.message))
        = Ok rag_docs ->
        Session.build_prompt (fst masked) store_ctx rag_docs
                             (fst (mask_text Session.message))
        = Ok prompts ->
        App.process_message
          Session.not_a_string Session.get_customer_context
          Session.get_nearest_store_for_customer Session.rag_retrieve
          Session.st_warning
          (call_with_defaults Service.without_key Service.Groq
                              Service.answers tt)
          Session.build_prompt Session.message 1
        = Ok (App.apology Llm.key_not_set)).
Proof. apply process_message_without_key. reflexivity. Defined.

Lemma process_message_null_email_witness :
  App.process_message
    Demo.not_a_string
    (fun id => Ok (Demo.get_customer_context id))
    (fun _ => Ok Demo.nearby) Session.rag_retrieve Session.st_warning
    Session.greeting Demo.build_prompt (txt "Is the store open?") 11
  = Ok (App.apology (Demo.not_a_string Null)).
Proof.
  apply (@process_message_null_email
           Demo.float Demo.order_by_desc (option (Prompt.row Demo.float))
           Demo.not_a_string (fun _ => Ok Demo.nearby)
           Session.rag_retrieve Session.st_warning Session.greeting
           Demo.build_prompt Demo.db (txt "Is the store open?") 11
           Demo.walk_in Demo.nearby).
  - reflexivity.
  - reflexivity.
  - reflexivity.
Defined.

Lemma process_message_echo_round_trip_witness :
  App.process_message
    Session.not_a_string
    (fun _ => Ok [(txt "id", Other tt); (txt "name", Str (txt "Bob"))])
    Session.get_nearest_store_for_customer Session.rag_retrieve
    Session.st_warning Session.echo Session.build_prompt
    (txt "Call (555) 123-4567 or mail a.b@c.org") 1
  = Ok (txt "Call (555) 123-4567 or mail a.b@c.org").
Proof.
  eapply (@process_message_echo_round_trip
            unit unit Session.not_a_string
            (fun _ => Ok [(txt "id", Other tt); (txt "name", Str (txt "Bob"))])
            Session.get_nearest_store_for_customer Session.rag_retrieve
            Session.st_warning Session.build_prompt Session.echo
            (txt "Call (555) 123-4567 or mail a.b@c.org") 1).
  - reflexivity.
  - reflexivity.
  - reflexivity.
  - reflexivity.
  - reflexivity.
  - reflexivity.
  - reflexivity.
  - vm_compute. reflexivity.
  - vm_compute. reflexivity.
Defined.

(* ------------------------------------------------------------------ *)
(** ** The nearest store *)

Section GeoProperties.

Variable F : Type.
Variables fadd fsub fmul fdiv : F -> F -> F.
Variable of_int : Z -> F.
Variable radians : F -> F.
Variables sin cos sqrt : F -> option F.
Variable atan2 : F -> F -> F.
Variable square : F -> F.
Variable round1 : F -> F.
Variable ltb : F -> F -> bool.
Variable inf : F.
Variable float_truthy : F -> bool.

#[local] Abbreviation distance_to :=
  (Geo.store_distance fadd fsub fmul fdiv of_int
                      radians sin cos sqrt atan2 square round1).

#[local] Abbreviation nearest :=
  (Geo.get_nearest_store_for_customer
     fadd fsub fmul fdiv of_int
     radians sin cos sqrt atan2 square round1 ltb inf float_truthy).

(** X20.  With no row in the table of stores the answer is the empty
    [dict] for every customer id: for a customer without a row, without
    coordinates or with them. *)
Theorem nearest_store_without_stores (db : Geo.database F) (id : Z) :
  Geo.stores db = [] -> nearest db id = Ok (Geo.EmptyDict F).
Proof. apply GeoFacts.nearest_store_no_stores. Qed.

(** X21.  A store whose latitude or longitude is [NULL] makes the
    lookup fail for every customer who has two non-zero coordinates:
    the call raises and returns no store, wherever the store is in the
    table. *)
Theorem nearest_store_null_store
        (db : Geo.database F) (id : Z) (row : Geo.customer F)
        (lat lon : F) (s : Geo.store F) :
  Geo.customer_row db id = Some row ->
  Geo.customer_latitude row = Some lat ->
  Geo.customer_longitude row = Some lon ->
  float_truthy lat = true -> float_truthy lon = true ->
  In s (Geo.stores db) ->
  Geo.store_latitude s = None \/ Geo.store_longitude s = None ->
  exists e, nearest db id = Raise e.
Proof.
  intros Hrow Hlat Hlon Tlat Tlon Hin Hs.
  unfold Geo.get_nearest_store_for_customer.
  rewrite Hrow, Hlat, Hlon, Tlat, Tlon. cbn [negb orb].
  destruct (Geo.stores db) as [|s0 rows] eqn:Es; [destruct Hin|].
  eapply ScanFacts.scan_raises; [exact Hin|].
  apply ScanFacts.no_coordinates. exact Hs.
Qed.

Section Order.

(** The order of the floats that are numbers. *)
Hypothesis ltb_trans :
  forall a b c, ltb a b = true -> ltb b c = true -> ltb a c = true.
Hypothesis geb_trans :
  forall a b c, ltb a b = false -> ltb b c = false -> ltb a c = false.
Hypothesis ltb_irrefl : forall a, ltb a a = false.

(** X22.  For a customer with two non-zero coordinates, when every
    store has a distance that is a number below infinity, the store
    returned carries the distance computed for it, no store of the
    table is nearer, and every store before it in the table is
    strictly farther: among the nearest stores the first one is
    returned. *)
Theorem nearest_store_is_nearest
        (db : Geo.database F) (id : Z) (row : Geo.customer F)
        (lat lon : F) :
  Geo.customer_row db id = Some row ->
  Geo.customer_latitude row = Some lat ->
  Geo.customer_longitude row = Some lon ->
  float_truthy lat = true -> float_truthy lon = true ->
  Geo.stores db <> [] ->
  (forall s, In s (Geo.stores db) ->
             exists d, distance_to lat lon s = Ok d /\ ltb d inf = true) ->
  exists before s after d,
    Geo.stores db = before ++ s :: after
    /\ nearest db id = Ok (Geo.StoreWith s (Geo.Computed d))
    /\ distance_to lat lon s = Ok d
    /\ (forall s' d', In s' (Geo.stores db) ->
                      distance_to lat lon s' = Ok d' -> ltb d' d = false)
    /\ (forall s' d', In s' before ->
                      distance_to lat lon s' = Ok d' -> ltb d d' = true).
Proof. now apply GeoFacts.nearest_store_minimal. Qed.

End Order.

End GeoProperties.

Lemma nearest_store_without_stores_witness :
  RealModel.nearest_store
    (Geo.Database
       [Geo.Customer 1 (Some (RealModel.of_int 40))
                     (Some (RealModel.of_int 74))] []) 1
  = Ok (Geo.EmptyDict _).
Proof. apply nearest_store_without_stores. reflexivity. Defined.

Lemma nearest_store_null_store_witness :
  let located := RealModel.shop 1 (RealModel.of_int 40) (RealModel.of_int 74) in
  let unlocated :=
    Geo.Store 2 (txt "Kiosk") None None
              (txt "Pier 1") (txt "08:00") (txt "16:00") in
  exists e,
    RealModel.nearest_store
      (Geo.Database
         [Geo.Customer 1 (Some (RealModel.of_int 40))
                       (Some (RealModel.of_int 74))]
         [located; unlocated]) 1
    = Raise e.
Proof.
  intros located unlocated.
  eapply (@nearest_store_null_store
            _ _ _ _ _ _ _ _ _ _ _ _ _ _ _ _ _ 1 _
            (RealModel.of_int 40) (RealModel.of_int 74) unlocated).
  - reflexivity.
  - reflexivity.
  - reflexivity.
  - apply RealFacts.truthy_of_int. discriminate.
  - apply RealFacts.truthy_of_int. discriminate.
  - right. left. reflexivity.
  - left. reflexivity.
Defined.

Lemma nearest_store_is_nearest_witness :
  let first := RealModel.shop 1 (RealModel.of_int 40) (RealModel.of_int 74) in
  let second := RealModel.shop 2 (RealModel.of_int 40) (RealModel.of_int 74) in
  let db :=
    Geo.Database
      [Geo.Customer 1 (Some (RealModel.of_int 40))
                    (Some (RealModel.of_int 74))]
      [first; second] in
  let distance_to :=
    Geo.store_distance
      Rdefinitions.Rplus Rdefinitions.Rminus Rdefinitions.Rmult
      Rdefinitions.Rdiv RealModel.of_int RealModel.radians RealModel.sin
      RealModel.cos RealModel.sqrt RealModel.atan2 RealModel.square
      RealModel.round1 (RealModel.of_int 40) (RealModel.of_int 74) in
  exists before s after d,
    Geo.stores db = before ++ s :: after
    /\ RealModel.nearest_store db 1 = Ok (Geo.StoreWith s (Geo.Computed d))
    /\ distance_to s = Ok d
    /\ (forall s' d', In s' (Geo.stores db) ->
                      distance_to s' = Ok d' -> RealModel.ltb d' d = false)
    /\ (forall s' d', In s' before ->
                      distance_to s' = Ok d' -> RealModel.ltb d d' = true).
Proof.
  intros first second db distance_to.
  eapply (@nearest_store_is_nearest
            _ _ _ _ _ _ _ _ _ _ _ _ _ _ _ _
            RealFacts.ltb_trans RealFacts.geb_trans RealFacts.ltb_irrefl
            db 1).
  - reflexivity.
  - reflexivity.
  - reflexivity.
  - apply RealFacts.truthy_of_int. discriminate.
  - apply RealFacts.truthy_of_int. discriminate.
  - discriminate.
  - intros s [<- | [<- | []]]; exists RealModel.zero;
      (split; [apply RealFacts.distance_same_point
              | apply RealFacts.ltb_zero_far]).
Defined.

(* ------------------------------------------------------------------ *)
(** ** Retrieval and the index *)

Section RagProperties.

Variable collection : Type.
Variable embedding : Type.
Variable get_collection : text -> result collection.
Variable encode : text -> result embedding.
Variable query :
  collection -> embedding -> nat -> result (option (list (list text))).
Variable st_warning : text -> result unit.

#[local] Abbreviation retrieve :=
  (Rag.retrieve get_collection encode query).

(** X23.  Once the collection is loaded, [retrieve] has no handler: an
    exception of the embedding model or of the query comes out of it as
    it is, and it is the inner handler of [process_message] that turns
    it into a warning and an empty list of documents.  When the query
    returns, the answer is the first list of documents, and the empty
    list when there is none. *)
Theorem retrieve_with_collection
        (query_text : text) (k : nat) (c : collection) :
  get_collection Rag.collection_name = Ok c ->
  (forall e, encode query_text = Raise e ->
             retrieve query_text k = Raise e)
  /\ (forall v e, encode query_text = Ok v -> query c v k = Raise e ->
                  retrieve query_text k = Raise e)
  /\ (forall e,
        retrieve query_text App.TOP_K_RAG = Raise e ->
        st_warning (txt "RAG retrieval unavailable: " ++ message_of e)
        = Ok tt ->
        App.retrieve_documents retrieve st_warning query_text = Ok [])
  /\ (forall v documents others,
        encode query_text = Ok v ->
        query c v k = Ok (Some (documents :: others)) ->
        retrieve query_text k = Ok documents)
  /\ (forall v,
        encode query_text = Ok v ->
        query c v k = Ok None \/ query c v k = Ok (Some []) ->
        retrieve query_text k = Ok []).
Proof.
  intros Hc.
  split; [|split; [|split; [|split]]].
  - intros e He. unfold Rag.retrieve. now rewrite Hc, He.
  - intros v e He H. unfold Rag.retrieve. rewrite Hc, He. cbn [bind].
    now rewrite H.
  - intros e He Hw. unfold App.retrieve_documents. rewrite He.
    cbn [try_except]. now rewrite Hw.
  - intros v documents others He H. unfold Rag.retrieve.
    rewrite Hc, He. cbn [bind]. now rewrite H.
  - intros v He [H | H]; unfold Rag.retrieve; rewrite Hc, He; cbn [bind];
      now rewrite H.
Qed.

End RagProperties.

Lemma retrieve_with_collection_witness :
  let encode := fun _ : text => @Ok unit tt in
  let query :=
    fun (_ _ : unit) (_ : nat) =>
      @Raise (option (list (list text))) (Exception (txt "index is closed")) in
  let retrieve := Rag.retrieve (fun _ => @Ok unit tt) encode query in
  (forall e, encode (txt "refund policy") = Raise e ->
             retrieve (txt "refund policy") 4 = Raise e)
  /\ (forall v e, encode (txt "refund policy") = Ok v ->
                  query tt v 4 = Raise e ->
                  retrieve (txt "refund policy") 4 = Raise e)
  /\ (forall e,
        retrieve (txt "refund policy") App.TOP_K_RAG = Raise e ->
        Session.st_warning
          (txt "RAG retrieval unavailable: " ++ message_of e)
        = Ok tt ->
        App.retrieve_documents retrieve Session.st_warning
                               (txt "refund policy")
        = Ok [])
  /\ (forall v documents others,
        encode (txt "refund policy") = Ok v ->
        query tt v 4 = Ok (Some (documents :: others)) ->
        retrieve (txt "refund policy") 4 = Ok documents)
  /\ (forall v,
        encode (txt "refund policy") = Ok v ->
        query tt v 4 = Ok None \/ query tt v 4 = Ok (Some []) ->
        retrieve (txt "refund policy") 4 = Ok []).
Proof.
  intros encode query retrieve.
  apply (@retrieve_with_collection unit unit _ encode query
           Session.st_warning (txt "refund policy") 4 tt).
  reflexivity.
Defined.

(** X24.  The batches that [build_vector_store] adds to the collection
    hold every chunk once, in order: the texts of the batches put
    together are the texts of the chunks, and so are the sources; the
    ids are [doc_0], [doc_1], ... up to the number of chunks, no two of
    them the same; and every batch has at least one and at most a
    hundred entries, with as many ids and metadata as texts. *)
Theorem batches_partition (chunks : list Index.document) :
  List.concat (map Index.documents (Index.batches chunks))
  = map Index.page_content chunks
  /\ List.concat (map Index.metadatas (Index.batches chunks))
     = map Index.source_of chunks
  /\ List.concat (map Index.ids (Index.batches chunks))
     = map Index.doc_id (seq 0 (List.length chunks))
  /\ NoDup (List.concat (map Index.ids (Index.batches chunks)))
  /\ Forall
       (fun b =>
          1 <= List.length (Index.documents b) <= Index.batch_size
          /\ List.length (Index.ids b) = List.length (Index.documents b)
          /\ List.length (Index.metadatas b)
             = List.length (Index.documents b))
       (Index.batches chunks).
Proof.
  split; [apply IndexFacts.batches_documents|].
  split; [apply IndexFacts.batches_metadatas|].
  split; [apply IndexFacts.batches_ids|].
  split; [|apply IndexFacts.batches_sizes].
  rewrite IndexFacts.batches_ids. apply IndexFacts.doc_ids_distinct.
Qed.

(* ------------------------------------------------------------------ *)
(** ** The default store in the prompt *)

Section StorePromptProperties.

Import Llm Prompt.

Variable F : Type.
Variables fadd fsub fmul fdiv : F -> F -> F.
Variable of_int : Z -> F.
Variable radians : F -> F.
Variables sin cos sqrt : F -> option F.
Variable atan2 : F -> F -> F.
Variable square : F -> F.
Variable round1 : F -> F.
Variable ltb : F -> F -> bool.
Variable inf : F.
Variable float_truthy : F -> bool.
Variable float_str : F -> text.
Variable rows_str : list (row F) -> text.
Variable not_rows : value (item F) -> exn.

#[local] Abbreviation nearest :=
  (Geo.get_nearest_store_for_customer
     fadd fsub fmul fdiv of_int
     radians sin cos sqrt atan2 square round1 ltb inf float_truthy).

#[local] Abbreviation build_prompt :=
  (Prompt.build_prompt float_str rows_str float_truthy not_rows).

(** X25.  For a customer without a row or without coordinates, the
    default distance reaches the model as a distance: every prompt
    built with the store context that the lookup returns holds the line
    "Distance: 50m away", under the name of the first store of the
    table. *)
Theorem default_distance_in_prompt
        (db : Geo.database F) (id : Z) (s : Geo.store F)
        (rest : list (Geo.store F)) :
  Geo.origin_absent db id ->
  Geo.stores db = s :: rest ->
  exists store,
    nearest db id = Ok store
    /\ forall customer_ctx rag_docs user_message sp up,
         build_prompt customer_ctx (StoreContext.store_context store)
                      rag_docs user_message
         = Ok (sp, up) ->
         occurs (txt "Name: " ++ Geo.store_name s) up = true
         /\ occurs (txt "Distance: 50m away") up = true.
Proof.
  intros Habsent Hstores.
  exists (Geo.StoreWith s (Geo.Sentinel F 50)). split.
  - unfold Geo.get_nearest_store_for_customer, Geo.origin_absent,
      Geo.default_store in *.
    rewrite Hstores.
    destruct (Geo.customer_row db id) as [row|]; [|reflexivity].
    destruct Habsent as [-> | H]; [reflexivity|].
    rewrite H. now destruct (Geo.customer_latitude row).
  - intros customer_ctx rag_docs user_message sp up H.
    unfold Prompt.build_prompt in H.
    destruct (Prompt.customer_part float_str rows_str float_truthy not_rows
                                   customer_ctx)
      as [customer|]; [|discriminate].
    cbn [bind] in H. apply (f_equal (fun r => match r with
                                              | Ok p => snd p
                                              | Raise _ => []
                                              end)) in H.
    cbn [snd] in H. subst up.
    split; apply KeepFacts.occurs_holds, PromptFacts.join_holds;
      apply in_or_app; right; apply in_or_app; left;
      cbn [StoreContext.store_context StoreContext.store_dict store_part].
    + right. left. reflexivity.
    + right. right. left. reflexivity.
Qed.

End StorePromptProperties.

Lemma default_distance_in_prompt_witness :
  let first := RealModel.shop 1 (RealModel.of_int 40) (RealModel.of_int 74) in
  let second := RealModel.shop 2 (RealModel.of_int 41) (RealModel.of_int 73) in
  let db :=
    Geo.Database [Geo.Customer 7 None (Some (RealModel.of_int 74))]
                 [first; second] in
  exists store,
    RealModel.nearest_store db 7 = Ok store
    /\ forall customer_ctx rag_docs user_message sp up,
         Prompt.build_prompt
           (fun _ => txt "0.0") (fun _ => txt "[...]") RealModel.float_truthy
           (fun _ => Exception (txt "object has no len()"))
           customer_ctx (StoreContext.store_context store)
           rag_docs user_message
         = Ok (sp, up) ->
         occurs (txt "Name: " ++ Geo.store_name first) up = true
         /\ occurs (txt "Distance: 50m away") up = true.
Proof.
  intros first second db.
  apply (@default_distance_in_prompt
           _ _ _ _ _ _ _ _ _ _ _ _ _ _ _ _ _ _ _ db 7 first [second]).
  - simpl. left. reflexivity.
  - reflexivity.
Defined.

(* ------------------------------------------------------------------ *)
(** ** The tables *)

(** X26.  The keys of the table that [mask_text] returns are numbered
    without a gap: first the phone placeholders [[PHONE_1]], ...,
    [[PHONE_n]] for the [n] phone numbers that were given one, then the
    email placeholders [[EMAIL_1]], ..., [[EMAIL_m]] for the [m] matches
    of the email pattern. *)
Theorem mask_text_keys_numbered (t : text) :
  keys (snd (mask_text t))
  = map phone_placeholder
        (NumberFacts.numbers 1 (N.to_nat (phones_assigned t)))
    ++ map email_placeholder
           (NumberFacts.numbers
              1 (List.length
                   (findall email_pattern (masked_text (mask_phones t))))).
Proof.
  rewrite KeyFacts.mask_text_table. unfold keys at 1. rewrite map_app.
  fold (keys (mapping (mask_phones t))).
  fold (keys (TableFacts.email_entries
                1 (findall email_pattern (masked_text (mask_phones t))))).
  rewrite NumberFacts.email_entries_keys. f_equal.
  destruct (NumberFacts.mask_phones_numbered t) as (k & Hc & Hk).
  rewrite Hk. unfold phones_assigned. rewrite Hc.
  do 2 f_equal. lia.
Qed.

(** X27.  In the table that [process_message] unmasks with, the table
    of the message updated with the table of the masked record, a key
    of the record's table has the value of the record, also where the
    message had its own value for it; every other key has the value of
    the message. *)
Theorem merged_mapping_record_wins
        (A : Type) (not_a_string : value A -> exn)
        (user_message : text) (customer_ctx masked_customer_ctx : context A)
        (customer_pii_mapping : dict) (placeholder : text) :
  mask_customer_context not_a_string customer_ctx
  = Ok (masked_customer_ctx, customer_pii_mapping) ->
  dict_get (App.merged_mapping (snd (mask_text user_message))
                               customer_pii_mapping)
           placeholder
  = match dict_get customer_pii_mapping placeholder with
    | Some original => Some original
    | None => dict_get (snd (mask_text user_message)) placeholder
    end.
Proof.
  intros H. apply UpdateFacts.dict_get_update.
  eapply UpdateFacts.mask_customer_context_nodup. exact H.
Qed.

Lemma merged_mapping_record_wins_witness :
  exists masked_customer_ctx customer_pii_mapping,
    mask_customer_context Session.not_a_string Session.record
    = Ok (masked_customer_ctx, customer_pii_mapping)
    /\ dict_get (App.merged_mapping (snd (mask_text Session.message))
                                    customer_pii_mapping)
                (txt "[PHONE_1]")
       = match dict_get customer_pii_mapping (txt "[PHONE_1]") with
         | Some original => Some original
         | None => dict_get (snd (mask_text Session.message))
                            (txt "[PHONE_1]")
         end.
Proof.
  eexists. eexists. split.
  - vm_compute. reflexivity.
  - eapply (@merged_mapping_record_wins
              unit Session.not_a_string Session.message Session.record).
    vm_compute. reflexivity.
Defined.
